(** * csae_pyutils: a shallow embedding of [csae_pyutils/__init__.py]

    The module exports three helpers, [load_json], [gsheet_to_df] and
    [upload_files_to_owncloud].  Each of them drives one external facility
    (the file system and the JSON decoder, an HTTP client and the CSV reader,
    an ownCloud client).  The helpers are embedded as programs of a small
    exception-and-state monad; the external facilities are either parameters
    of a section (HTTP, ownCloud) or written out for the fragment of their
    behaviour that the module relies on (path splitting, JSON, CSV). *)

From Stdlib Require Import String Ascii List ZArith NArith Lia Bool.
Import ListNotations.

Local Open Scope string_scope.
Local Open Scope list_scope.

(** ** Python control flow: exceptions over a mutable world *)

Module Eff.

Section Monad.
Context {W E : Type}.

(** A computation runs in a world, may change it, and either returns a
    value or raises.  The world survives a raise: what was done before the
    exception stays done. *)
Definition M (A : Type) : Type := W -> (E + A) * W.

Definition ret {A} (a : A) : M A := fun w => (inr a, w).

Definition raise {A} (e : E) : M A := fun w => (inl e, w).

Definition bind {A B} (m : M A) (k : A -> M B) : M B :=
  fun w =>
    match m w with
    | (inl e, w') => (inl e, w')
    | (inr a, w') => k a w'
    end.

(** [try: m  except: h] with a bare [except] clause. *)
Definition try_except {A} (m : M A) (h : E -> M A) : M A :=
  fun w =>
    match m w with
    | (inl e, w') => h e w'
    | (inr a, w') => (inr a, w')
    end.

(** [for x in xs: acc = body x acc], the loop variable state being [acc]. *)
Fixpoint for_each {X A} (xs : list X) (body : X -> A -> M A) (acc : A) : M A :=
  match xs with
  | [] => ret acc
  | x :: xs' => bind (body x acc) (for_each xs' body)
  end.
End Monad.

Module Notations.
Declare Scope eff_scope.
Delimit Scope eff_scope with eff.
Notation "x <- m ;; k" := (bind m (fun x => k))
  (at level 61, m at next level, right associativity) : eff_scope.
Notation "m ;; k" := (bind m (fun _ => k))
  (at level 61, right associativity) : eff_scope.
End Notations.

End Eff.

Import Eff.Notations.

(** ** [os.path.split] (posixpath) *)

Module OsPath.

Definition sep : ascii := "/"%char.

Definition is_sep (c : ascii) : bool := Ascii.eqb c sep.

(** [cut p = (p[:i], p[i:])] for [i = p.rfind('/') + 1]. *)
Fixpoint cut (p : string) : string * string :=
  match p with
  | EmptyString => (EmptyString, EmptyString)
  | String c rest =>
      match cut rest with
      | (EmptyString, t) =>
          if is_sep c then (String c EmptyString, t)
          else (EmptyString, String c t)
      | (h, t) => (String c h, t)
      end
  end.

Fixpoint all_sep (s : string) : bool :=
  match s with
  | EmptyString => true
  | String c s' => is_sep c && all_sep s'
  end.

(** [s.rstrip('/')] *)
Fixpoint rstrip_sep (s : string) : string :=
  match s with
  | EmptyString => EmptyString
  | String c s' =>
      match rstrip_sep s' with
      | EmptyString => if is_sep c then EmptyString else String c EmptyString
      | r => String c r
      end
  end.

(** [head, tail = p[:i], p[i:]];
    [if head and head != sep*len(head): head = head.rstrip(sep)]. *)
Definition split (p : string) : string * string :=
  let (head, tail) := cut p in
  let head' :=
    match head with
    | EmptyString => head
    | _ => if all_sep head then head else rstrip_sep head
    end in
  (head', tail).

Fixpoint has_sep (s : string) : bool :=
  match s with
  | EmptyString => false
  | String c s' => is_sep c || has_sep s'
  end.

(** The last component of a path: what follows its last separator. *)
Definition is_basename (p b : string) : Prop :=
  has_sep b = false /\
  exists d, p = (d ++ b)%string /\
    (d = EmptyString \/ exists d', d = (d' ++ "/")%string).

End OsPath.

(** ** [upload_files_to_owncloud] *)

Module Upload.

(** Exceptions that can leave [upload_files_to_owncloud]: whatever the
    ownCloud client raises, and the interpreter's own error for reading a
    local variable that was never bound. *)
Inductive exn (Err : Type) : Type :=
| ClientError (e : Err)
| UnboundLocalError (name : string).
Arguments ClientError {Err} e.
Arguments UnboundLocalError {Err} name.

Section Client.
(** [R] is the state of everything outside the interpreter (the remote
    endpoint, the network, the local files that a put reads); [Err] the
    client library's exceptions; [Out] what a put returns. *)
Variables R Err Out : Type.

(** The three methods of [owncloud.Client] the function calls. *)
Record Client : Type := {
  login : string -> string -> R -> (Err + unit) * R;
  mkdir : string -> R -> (Err + bool) * R;
  put_file : string -> string -> R -> (Err + Out) * R
}.

(** What the function did to the outside, in order, with the answer it got. *)
Inductive event : Type :=
| ELogin (url user pw : string) (res : Err + unit)
| EMkdir (url name : string) (res : Err + bool)
| EPut (url remote_name local_path : string) (res : Err + Out)
| EPrint (line : string).

Record world : Type := { outside : R; trace : list event }.

Definition start (r : R) : world := {| outside := r; trace := [] |}.

Definition Py (A : Type) : Type := @Eff.M world (exn Err) A.

(** A method call: run it on the outside state, log it, and turn a client
    exception into a Python exception. *)
Definition call {A} (op : R -> (Err + A) * R) (ev : Err + A -> event) : Py A :=
  fun w =>
    let (res, r') := op (outside w) in
    let w' := {| outside := r'; trace := trace w ++ [ev res] |} in
    match res with
    | inl e => (inl (ClientError e), w')
    | inr a => (inr a, w')
    end.

Definition print (line : string) : Py unit :=
  fun w => (inr tt, {| outside := outside w; trace := trace w ++ [EPrint line] |}).

(** [owncloud.Client(url)]: building the object talks to nobody. *)
Variable owncloud_Client : string -> Client.

Definition endpoint : string := "https://oeawcloud.oeaw.ac.at".

Definition owncloud_name (collection tail : string) : string :=
  (collection ++ "/" ++ tail)%string.

(** The body of [for x in files]; [result] is the local variable of that
    name, [None] while it is unbound. *)
Definition loop_body (oc : Client) (collection : string)
    (x : string) (result : option Out) : Py (option Out) :=
  (let tail := snd (OsPath.split x) in
   let name := owncloud_name collection tail in
   print ("uploading " ++ tail ++ " to " ++ name);;
   r <- call (put_file oc name x) (EPut endpoint name x);;
   Eff.ret (Some r))%eff.

Definition return_local {A} (name : string) (v : option A) : Py A :=
  match v with
  | Some a => Eff.ret a
  | None => Eff.raise (UnboundLocalError name)
  end.

Definition upload_files_to_owncloud
    (file_list : list string) (user pw : string) (folder : string) : Py Out :=
  (let collection := folder in
   let oc := owncloud_Client endpoint in
   call (login oc user pw) (ELogin endpoint user pw);;
   Eff.try_except
     (call (mkdir oc collection) (EMkdir endpoint collection);; Eff.ret tt)
     (fun _ => Eff.ret tt);;
   let files := file_list in
   result <- Eff.for_each files (loop_body oc collection) None;;
   return_local "result" result)%eff.

Definition default_folder : string := "pfp-data".

(** The events of one iteration whose put was answered by [res]. *)
Definition put_events (collection x : string) (res : Err + Out) : list event :=
  let tail := snd (OsPath.split x) in
  let name := owncloud_name collection tail in
  [EPrint ("uploading " ++ tail ++ " to " ++ name); EPut endpoint name x res].

(** [puts_ok oc c xs r outs r']: starting from outside state [r], putting
    the files [xs] one after the other succeeds every time, with outcomes
    [outs], and leaves the outside in state [r']. *)
Inductive puts_ok (oc : Client) (collection : string) :
    list string -> R -> list Out -> R -> Prop :=
| puts_nil r : puts_ok oc collection [] r [] r
| puts_cons x xs r o r1 outs r2 :
    put_file oc (owncloud_name collection (snd (OsPath.split x))) x r = (inr o, r1) ->
    puts_ok oc collection xs r1 outs r2 ->
    puts_ok oc collection (x :: xs) r (o :: outs) r2.

Fixpoint ok_events (collection : string) (xs : list string) (outs : list Out) : list event :=
  match xs, outs with
  | x :: xs', o :: outs' => put_events collection x (inr o) ++ ok_events collection xs' outs'
  | _, _ => []
  end.

(** The local [result] after further successful puts with outcomes [outs]. *)
Definition acc_after (acc : option Out) (outs : list Out) : option Out :=
  fold_left (fun _ o => Some o) outs acc.

Definition is_put (ev : event) : bool :=
  match ev with EPut _ _ _ _ => true | _ => false end.
End Client.

Arguments login {R Err Out}.
Arguments mkdir {R Err Out}.
Arguments put_file {R Err Out}.
Arguments ELogin {Err Out}.
Arguments EMkdir {Err Out}.
Arguments EPut {Err Out}.
Arguments EPrint {Err Out}.
Arguments outside {R Err Out}.
Arguments trace {R Err Out}.
Arguments start {R Err Out}.
Arguments upload_files_to_owncloud {R Err Out}.
Arguments puts_ok {R Err Out}.
Arguments ok_events {Err Out}.
Arguments put_events {Err Out}.
Arguments is_put {Err Out}.

End Upload.

(** ** [json.load]: the decoder of the standard library

    [load_json] hands the open file to [json.load], which reads the whole
    text and decodes it with the default decoder (strict mode, no hooks).
    The decoder is written out here after [json/decoder.py] and
    [json/scanner.py]: whitespace, literals, numbers, strings with their
    escapes, arrays and objects.  A string is a sequence of code points.
    Two limits of the interpreter bear on what a text decodes to, and are
    settings of the run: how many containers it can still enter one inside
    the other before it raises [RecursionError], and how long an integer
    literal it converts before it raises [ValueError].  The position that a
    [JSONDecodeError] reports is left out. *)

Module Json.

Local Open Scope N_scope.

Definition codepoint : Type := N.
Definition text : Type := list codepoint.

Definition chr (a : ascii) : codepoint := N_of_ascii a.

Definition text_of_string (s : string) : text := map chr (list_ascii_of_string s).

Definition text_eqb (a b : text) : bool :=
  if list_eq_dec N.eq_dec a b then true else false.

(** A float is kept as the text handed to [float]: the literal itself, or
    one of [NaN], [Infinity], [-Infinity]. *)
#[warnings="-register-all"]
Inductive value : Type :=
| JNull
| JBool (b : bool)
| JInt (z : Z)
| JFloat (literal : text)
| JStr (s : text)
| JList (items : list value)
| JDict (items : list (text * value)).

(** The settings of the interpreter that the decoder meets.
    [nesting_limit] is the number of containers, one inside the other, that
    it can still enter (what is left of [sys.getrecursionlimit()], 1000 by
    default, when [json.load] is called); [max_str_digits] is
    [sys.get_int_max_str_digits()], 4300 by default, 0 for no limit. *)
Record interpreter : Type := {
  nesting_limit : nat;
  max_str_digits : nat
}.

(** What a step of the decoder ends in: a result, a [JSONDecodeError] with
    its message, a [RecursionError], the [ValueError] of [int] on too long a
    literal; [OutOfFuel] is the model's own, for a run cut short. *)
Inductive res (A : Type) : Type :=
| Ok (a : A)
| Error (msg : string)
| Recursion
| IntTooLong
| OutOfFuel.
Arguments Ok {A} a.
Arguments Error {A} msg.
Arguments Recursion {A}.
Arguments IntTooLong {A}.
Arguments OutOfFuel {A}.

Definition res_bind {A B} (r : res A) (k : A -> res B) : res B :=
  match r with
  | Ok a => k a
  | Error msg => Error msg
  | Recursion => Recursion
  | IntTooLong => IntTooLong
  | OutOfFuel => OutOfFuel
  end.

(** *** Characters *)

Definition c_quote : codepoint := 34.
Definition c_backslash : codepoint := 92.
Definition c_slash : codepoint := 47.
Definition c_comma : codepoint := 44.
Definition c_colon : codepoint := 58.
Definition c_lbracket : codepoint := 91.
Definition c_rbracket : codepoint := 93.
Definition c_lbrace : codepoint := 123.
Definition c_rbrace : codepoint := 125.
Definition c_minus : codepoint := 45.
Definition c_plus : codepoint := 43.
Definition c_dot : codepoint := 46.
Definition c_zero : codepoint := 48.

(** [WHITESPACE_STR = ' \t\n\r'] *)
Definition is_ws (c : codepoint) : bool :=
  (c =? 32)%N || (c =? 9)%N || (c =? 10)%N || (c =? 13)%N.

Definition is_digit (c : codepoint) : bool := (48 <=? c)%N && (c <=? 57)%N.

Definition is_e (c : codepoint) : bool := (c =? 101)%N || (c =? 69)%N.

Definition is_sign (c : codepoint) : bool := (c =? c_minus)%N || (c =? c_plus)%N.

Arguments is_ws : simpl never.
Arguments is_digit : simpl never.
Arguments is_e : simpl never.
Arguments is_sign : simpl never.

(** [WHITESPACE.match(s, end).end()] *)
Fixpoint skip_ws (s : text) : text :=
  match s with
  | c :: s' => if is_ws c then skip_ws s' else s
  | [] => []
  end.

(** [s[idx:idx+len(p)] == p], with what follows. *)
Fixpoint strip_prefix (p s : text) : option text :=
  match p, s with
  | [], _ => Some s
  | a :: p', b :: s' => if (a =? b)%N then strip_prefix p' s' else None
  | _ :: _, [] => None
  end.

(** *** Numbers: [NUMBER_RE] *)

Fixpoint span_digits (s : text) : text * text :=
  match s with
  | c :: s' =>
      if is_digit c then let (d, r) := span_digits s' in (c :: d, r)
      else ([], s)
  | [] => ([], [])
  end.

(** First group of [NUMBER_RE]: an optional minus sign, then either a
    single zero or a non-zero digit followed by any number of digits. *)
Definition match_unsigned (sign s1 : text) : option (text * text) :=
  match s1 with
  | c :: s2 =>
      if (c =? c_zero)%N then Some (sign ++ [c], s2)
      else if is_digit c then
        let (d, r) := span_digits s2 in Some (sign ++ c :: d, r)
      else None
  | [] => None
  end.

Definition match_integer (s : text) : option (text * text) :=
  match s with
  | c :: s' => if (c =? c_minus)%N then match_unsigned [c] s' else match_unsigned [] s
  | [] => None
  end.

(** Second group, optional: a dot followed by at least one digit. *)
Definition match_frac (s : text) : text * text :=
  match s with
  | c :: s1 =>
      if (c =? c_dot)%N then
        match span_digits s1 with
        | ([], _) => ([], s)
        | (d, r) => (c :: d, r)
        end
      else ([], s)
  | [] => ([], s)
  end.

(** Third group, optional: [e] or [E], an optional sign, at least one digit. *)
Definition match_exp (s : text) : text * text :=
  match s with
  | c :: s1 =>
      if is_e c then
        let (sg, s2) :=
          match s1 with
          | c2 :: s2' => if is_sign c2 then ([c2], s2') else ([], s1)
          | [] => ([], s1)
          end in
        match span_digits s2 with
        | ([], _) => ([], s)
        | (d, r) => (c :: sg ++ d, r)
        end
      else ([], s)
  | [] => ([], s)
  end.

Definition digit_val (c : codepoint) : Z := Z.of_N c - 48.

Definition int_of_digits (d : text) : Z :=
  fold_left (fun acc c => 10 * acc + digit_val c)%Z d 0%Z.

(** [int(integer)] on a literal matched by the first group. *)
Definition parse_int (lit : text) : Z :=
  match lit with
  | c :: d => if (c =? c_minus)%N then (- int_of_digits d)%Z else int_of_digits lit
  | [] => 0%Z
  end.

(** The number of digits of a literal matched by the first group. *)
Definition int_digits (lit : text) : nat :=
  match lit with
  | c :: d => if (c =? c_minus)%N then length d else length lit
  | [] => O
  end.

(** [int] refuses a literal of more than 640 digits when a limit is set and
    the literal has more digits than the limit. *)
Definition int_refused (py : interpreter) (lit : text) : bool :=
  (640 <? int_digits lit)%nat
  && (0 <? max_str_digits py)%nat
  && (max_str_digits py <? int_digits lit)%nat.

(** [match_number], then the choice between [parse_int] and [parse_float]:
    [None] when no number starts here. *)
Definition scan_number (py : interpreter) (s : text) : option (res (value * text)) :=
  match match_integer s with
  | None => None
  | Some (integer, s1) =>
      let (frac, s2) := match_frac s1 in
      let (exp, s3) := match_exp s2 in
      match frac, exp with
      | [], [] =>
          if int_refused py integer then Some IntTooLong
          else Some (Ok (JInt (parse_int integer), s3))
      | _, _ => Some (Ok (JFloat (integer ++ frac ++ exp), s3))
      end
  end.

(** *** Strings: [scanstring] *)

Definition hex_val (c : codepoint) : option N :=
  if is_digit c then Some (c - 48)%N
  else if (97 <=? c)%N && (c <=? 102)%N then Some (c - 87)%N
  else if (65 <=? c)%N && (c <=? 70)%N then Some (c - 55)%N
  else None.

(** [int(esc, 16)] on four hexadecimal digits. *)
Definition hex4 (a b c d : codepoint) : option N :=
  match hex_val a, hex_val b, hex_val c, hex_val d with
  | Some x, Some y, Some z, Some w => Some (((x * 16 + y) * 16 + z) * 16 + w)%N
  | _, _, _, _ => None
  end.

(** The table [BACKSLASH]. *)
Definition backslash (esc : codepoint) : option codepoint :=
  if (esc =? c_quote)%N then Some c_quote
  else if (esc =? c_backslash)%N then Some c_backslash
  else if (esc =? c_slash)%N then Some c_slash
  else if (esc =? 98)%N then Some 8%N
  else if (esc =? 102)%N then Some 12%N
  else if (esc =? 110)%N then Some 10%N
  else if (esc =? 114)%N then Some 13%N
  else if (esc =? 116)%N then Some 9%N
  else None.

Definition c_u : codepoint := 117.

Definition is_high_surrogate (u : N) : bool := (55296 <=? u)%N && (u <=? 56319)%N.
Definition is_low_surrogate (u : N) : bool := (56320 <=? u)%N && (u <=? 57343)%N.

(** [0x10000 + (((uni - 0xd800) << 10) | (uni2 - 0xdc00))] *)
Definition join_surrogates (hi lo : N) : N :=
  (65536 + N.lor (N.shiftl (hi - 55296) 10) (lo - 56320))%N.

Arguments hex4 : simpl never.
Arguments backslash : simpl never.
Arguments is_high_surrogate : simpl never.
Arguments is_low_surrogate : simpl never.
Arguments join_surrogates : simpl never.

Definition msg_unterminated : string := "Unterminated string starting at".
Definition msg_control : string := "Invalid control character at".
Definition msg_escape : string := "Invalid \escape".
Definition msg_uXXXX : string := "Invalid \uXXXX escape".

(** [scanstring s] reads a string whose opening quote has been consumed:
    the decoded characters and what follows the closing quote. *)
Fixpoint scanstring (s : text) : res (text * text) :=
  match s with
  | [] => Error msg_unterminated
  | c :: s1 =>
      if (c =? c_quote)%N then Ok ([], s1)
      else if (c =? c_backslash)%N then
        match s1 with
        | [] => Error msg_unterminated
        | esc :: s2 =>
            if (esc =? c_u)%N then
              match s2 with
              | h1 :: h2 :: h3 :: h4 :: s3 =>
                  match hex4 h1 h2 h3 h4 with
                  | None => Error msg_uXXXX
                  | Some uni =>
                      let single := res_bind (scanstring s3)
                                      (fun '(str, rest) => Ok (uni :: str, rest)) in
                      if is_high_surrogate uni then
                        match s3 with
                        | b :: u :: s4 =>
                            if (b =? c_backslash)%N && (u =? c_u)%N then
                              match s4 with
                              | k1 :: k2 :: k3 :: k4 :: s5 =>
                                  match hex4 k1 k2 k3 k4 with
                                  | None => Error msg_uXXXX
                                  | Some uni2 =>
                                      if is_low_surrogate uni2 then
                                        res_bind (scanstring s5)
                                          (fun '(str, rest) =>
                                             Ok (join_surrogates uni uni2 :: str, rest))
                                      else single
                                  end
                              | _ => Error msg_uXXXX
                              end
                            else single
                        | _ => single
                        end
                      else single
                  end
              | _ => Error msg_uXXXX
              end
            else
              match backslash esc with
              | None => Error msg_escape
              | Some ch =>
                  res_bind (scanstring s2) (fun '(str, rest) => Ok (ch :: str, rest))
              end
        end
      else if (c <? 32)%N then Error msg_control
      else res_bind (scanstring s1) (fun '(str, rest) => Ok (c :: str, rest))
  end.

(** *** Objects as dictionaries *)

(** [d[k] = v] on an insertion-ordered dictionary: a key already present
    keeps its place and takes the new value. *)
Fixpoint dict_set (k : text) (v : value) (d : list (text * value)) : list (text * value) :=
  match d with
  | [] => [(k, v)]
  | (k', v') :: d' =>
      if text_eqb k k' then (k', v) :: d' else (k', v') :: dict_set k v d'
  end.

(** [dict(pairs)] *)
Definition dict (pairs : list (text * value)) : list (text * value) :=
  fold_left (fun d kv => dict_set (fst kv) (snd kv) d) pairs [].

Fixpoint dict_get (k : text) (d : list (text * value)) : option value :=
  match d with
  | [] => None
  | (k', v) :: d' => if text_eqb k k' then Some v else dict_get k d'
  end.

Definition dict_keys (d : list (text * value)) : list text := map fst d.

(** *** Values: [scan_once], [JSONObject], [JSONArray] *)

Definition msg_value : string := "Expecting value".
Definition msg_property : string := "Expecting property name enclosed in double quotes".
Definition msg_colon : string := "Expecting ':' delimiter".
Definition msg_comma : string := "Expecting ',' delimiter".
Definition msg_extra : string := "Extra data".
Definition msg_bom : string := "Unexpected UTF-8 BOM (decode using utf-8-sig)".

Definition lit_null : text := text_of_string "null".
Definition lit_true : text := text_of_string "true".
Definition lit_false : text := text_of_string "false".
Definition lit_nan : text := text_of_string "NaN".
Definition lit_inf : text := text_of_string "Infinity".
Definition lit_neg_inf : text := text_of_string "-Infinity".

(** The scalars that [_scan_once] recognises after strings, objects and
    arrays, in its order: [null], [true], [false], a number, then the three
    constants. *)
Definition scan_scalar (py : interpreter) (s : text) : res (value * text) :=
  match strip_prefix lit_null s with
  | Some rest => Ok (JNull, rest)
  | None =>
  match strip_prefix lit_true s with
  | Some rest => Ok (JBool true, rest)
  | None =>
  match strip_prefix lit_false s with
  | Some rest => Ok (JBool false, rest)
  | None =>
  match scan_number py s with
  | Some r => r
  | None =>
  match strip_prefix lit_nan s with
  | Some rest => Ok (JFloat lit_nan, rest)
  | None =>
  match strip_prefix lit_inf s with
  | Some rest => Ok (JFloat lit_inf, rest)
  | None =>
  match strip_prefix lit_neg_inf s with
  | Some rest => Ok (JFloat lit_neg_inf, rest)
  | None => Error msg_value
  end end end end end end end.

(** [depth] is the number of containers that can still be entered: an
    object or an array met at depth 0 raises [RecursionError], before
    anything of it is read.  [fuel] bounds the number of calls of the model;
    [decode] below hands out enough of it for any text. *)
Fixpoint scan_once (py : interpreter) (fuel depth : nat) (s : text) {struct fuel}
    : res (value * text) :=
  match fuel with
  | O => OutOfFuel
  | S fuel' =>
      match s with
      | [] => Error msg_value
      | c :: s1 =>
          if c =? c_quote then
            res_bind (scanstring s1) (fun '(str, rest) => Ok (JStr str, rest))
          else if c =? c_lbrace then
            match depth with
            | O => Recursion
            | S depth' =>
                match skip_ws s1 with
                | [] => Error msg_property
                | c2 :: s2 =>
                    if c2 =? c_rbrace then Ok (JDict [], s2)
                    else if c2 =? c_quote then
                      res_bind (object_loop py fuel' depth' s2 [])
                        (fun '(pairs, rest) => Ok (JDict (dict pairs), rest))
                    else Error msg_property
                end
            end
          else if c =? c_lbracket then
            match depth with
            | O => Recursion
            | S depth' =>
                match skip_ws s1 with
                | [] => Error msg_value
                | c2 :: s2 =>
                    if c2 =? c_rbracket then Ok (JList [], s2)
                    else
                      res_bind (array_loop py fuel' depth' (c2 :: s2) [])
                        (fun '(values, rest) => Ok (JList values, rest))
                end
            end
          else scan_scalar py s
      end
  end

(** The [while True] of [JSONObject]; [s] starts right after the opening
    quote of a key, and [depth] is what is left for the values. *)
with object_loop (py : interpreter) (fuel depth : nat) (s : text)
    (pairs : list (text * value)) {struct fuel}
    : res (list (text * value) * text) :=
  match fuel with
  | O => OutOfFuel
  | S fuel' =>
      res_bind (scanstring s) (fun '(key, s1) =>
        match skip_ws s1 with
        | [] => Error msg_colon
        | c :: s2 =>
            if c =? c_colon then
              res_bind (scan_once py fuel' depth (skip_ws s2)) (fun '(v, s3) =>
                let pairs' := (pairs ++ [(key, v)])%list in
                match skip_ws s3 with
                | [] => Error msg_comma
                | d :: s4 =>
                    if d =? c_rbrace then Ok (pairs', s4)
                    else if d =? c_comma then
                      match skip_ws s4 with
                      | [] => Error msg_property
                      | q :: s5 =>
                          if q =? c_quote then object_loop py fuel' depth s5 pairs'
                          else Error msg_property
                      end
                    else Error msg_comma
                end)
            else Error msg_colon
        end)
  end

(** The [while True] of [JSONArray]; [s] starts at a value. *)
with array_loop (py : interpreter) (fuel depth : nat) (s : text)
    (values : list value) {struct fuel}
    : res (list value * text) :=
  match fuel with
  | O => OutOfFuel
  | S fuel' =>
      res_bind (scan_once py fuel' depth s) (fun '(v, s1) =>
        let values' := (values ++ [v])%list in
        match skip_ws s1 with
        | [] => Error msg_comma
        | d :: s2 =>
            if d =? c_rbracket then Ok (values', s2)
            else if d =? c_comma then array_loop py fuel' depth (skip_ws s2) values'
            else Error msg_comma
        end)
  end.

(** [JSONDecoder.decode]: one value between optional whitespace, and nothing
    after it. *)
Definition decode (py : interpreter) (s : text) : res value :=
  res_bind (scan_once py (2 * length s + 2) (nesting_limit py) (skip_ws s))
    (fun '(obj, rest) =>
       match skip_ws rest with
       | [] => Ok obj
       | _ :: _ => Error msg_extra
       end).

Definition c_bom : codepoint := 65279.

(** [json.loads] on a [str]. *)
Definition loads (py : interpreter) (s : text) : res value :=
  match s with
  | c :: _ => if c =? c_bom then Error msg_bom else decode py s
  | [] => decode py s
  end.

(** The settings of a fresh interpreter. *)
Definition default_interpreter : interpreter :=
  {| nesting_limit := 1000; max_str_digits := 4300 |}.

End Json.

(** ** The shapes the decoder reads

    The tokens and the nesting of a JSON text as relations between a text
    and a value, without the decoder's control flow but in its own terms: the
    characters are told apart by the decoder's tests and the values of the
    leaves are computed by its functions.  These relations are the step
    between the decoder and the grammar of [JsonRfc] below, which shares
    nothing with the decoder. *)

Module JsonGrammar.
Import Json.

Local Open Scope N_scope.

Definition WS (w : text) : Prop := forallb is_ws w = true.

Definition Digits (d : text) : Prop := d <> [] /\ forallb is_digit d = true.

(** An integer part: [0], or a non-zero digit and more digits; with an
    optional minus sign in front. *)
Inductive Unsigned : text -> Prop :=
| U_zero : Unsigned [c_zero]
| U_pos c d : is_digit c = true -> c <> c_zero -> forallb is_digit d = true ->
    Unsigned (c :: d).

Inductive IntLit : text -> Prop :=
| IL_plain u : Unsigned u -> IntLit u
| IL_minus u : Unsigned u -> IntLit (c_minus :: u).

Inductive Frac : text -> Prop :=
| Frac_none : Frac []
| Frac_some d : Digits d -> Frac (c_dot :: d).

Inductive Exp : text -> Prop :=
| Exp_none : Exp []
| Exp_unsigned e d : is_e e = true -> Digits d -> Exp (e :: d)
| Exp_signed e sg d : is_e e = true -> is_sign sg = true -> Digits d -> Exp (e :: sg :: d).

Inductive Number (py : interpreter) : text -> value -> Prop :=
| Num_int i : IntLit i -> int_refused py i = false ->
    Number py i (JInt (parse_int i))
| Num_float i f e : IntLit i -> Frac f -> Exp e -> (f <> [] \/ e <> []) ->
    Number py (i ++ f ++ e) (JFloat (i ++ f ++ e)).

(** A low surrogate escape follows: the text starts with [\uXXXX] for a
    code unit [lo] in [DC00..DFFF]. *)
Definition low_escape (src : text) (lo : N) (rest : text) : Prop :=
  exists k1 k2 k3 k4,
    src = c_backslash :: c_u :: k1 :: k2 :: k3 :: k4 :: rest /\
    hex4 k1 k2 k3 k4 = Some lo /\ is_low_surrogate lo = true.

(** [StringBody src str]: the characters [src] between the quotes of a
    string literal denote the string [str]. *)
Inductive StringBody : text -> text -> Prop :=
| SB_end : StringBody [] []
| SB_char c src str :
    c <> c_quote -> c <> c_backslash -> 32 <= c ->
    StringBody src str -> StringBody (c :: src) (c :: str)
| SB_escape esc ch src str :
    backslash esc = Some ch ->
    StringBody src str -> StringBody (c_backslash :: esc :: src) (ch :: str)
| SB_unicode h1 h2 h3 h4 uni src str :
    hex4 h1 h2 h3 h4 = Some uni ->
    ~ (is_high_surrogate uni = true /\ exists lo rest, low_escape src lo rest) ->
    StringBody src str ->
    StringBody (c_backslash :: c_u :: h1 :: h2 :: h3 :: h4 :: src) (uni :: str)
| SB_pair h1 h2 h3 h4 hi lo pair src str :
    hex4 h1 h2 h3 h4 = Some hi -> is_high_surrogate hi = true ->
    low_escape pair lo src ->
    StringBody src str ->
    StringBody (c_backslash :: c_u :: h1 :: h2 :: h3 :: h4 :: pair)
               (join_surrogates hi lo :: str).

(** [Value py d t v]: the text [t] reads as the value [v] when [d]
    containers can still be entered. *)
Inductive Value (py : interpreter) : nat -> text -> value -> Prop :=
| V_null d : Value py d lit_null JNull
| V_true d : Value py d lit_true (JBool true)
| V_false d : Value py d lit_false (JBool false)
| V_nan d : Value py d lit_nan (JFloat lit_nan)
| V_inf d : Value py d lit_inf (JFloat lit_inf)
| V_neg_inf d : Value py d lit_neg_inf (JFloat lit_neg_inf)
| V_number d t v : Number py t v -> Value py d t v
| V_string d src str :
    StringBody src str -> Value py d (c_quote :: src ++ [c_quote]) (JStr str)
| V_array_empty d w :
    WS w -> Value py (S d) (c_lbracket :: w ++ [c_rbracket]) (JList [])
| V_array d w elems vs :
    WS w -> Elements py d elems vs ->
    Value py (S d) (c_lbracket :: w ++ elems ++ [c_rbracket]) (JList vs)
| V_object_empty d w :
    WS w -> Value py (S d) (c_lbrace :: w ++ [c_rbrace]) (JDict [])
| V_object d w members pairs :
    WS w -> Members py d members pairs ->
    Value py (S d) (c_lbrace :: w ++ members ++ [c_rbrace]) (JDict (dict pairs))

(** Values separated by commas, each followed by optional whitespace. *)
with Elements (py : interpreter) : nat -> text -> list value -> Prop :=
| E_last d t v w :
    Value py d t v -> WS w -> Elements py d (t ++ w) [v]
| E_more d t v w1 w2 more vs :
    Value py d t v -> WS w1 -> WS w2 -> Elements py d more vs ->
    Elements py d (t ++ w1 ++ c_comma :: w2 ++ more) (v :: vs)

(** [key : value] members separated by commas, in the order of the text. *)
with Members (py : interpreter) : nat -> text -> list (text * value) -> Prop :=
| M_last d ksrc k w1 w2 t v w3 :
    StringBody ksrc k -> WS w1 -> WS w2 -> Value py d t v -> WS w3 ->
    Members py d (c_quote :: ksrc ++ c_quote :: w1 ++ c_colon :: w2 ++ t ++ w3)
      [(k, v)]
| M_more d ksrc k w1 w2 t v w3 w4 more pairs :
    StringBody ksrc k -> WS w1 -> WS w2 -> Value py d t v -> WS w3 -> WS w4 ->
    Members py d more pairs ->
    Members py d (c_quote :: ksrc ++ c_quote :: w1 ++ c_colon :: w2 ++ t ++ w3
                  ++ c_comma :: w4 ++ more)
            ((k, v) :: pairs).

(** Conditions on the text after a token, under which the token ends where
    the grammar says: no digit goes on a run of digits, and nothing goes on a
    number. *)
Definition no_digit_ahead (r : text) : Prop :=
  match r with c :: _ => is_digit c = false | [] => True end.

Definition number_ends (r : text) : Prop :=
  match r with
  | c :: _ => is_digit c = false /\ c <> c_dot /\ is_e c = false
  | [] => True
  end.

Scheme Value_mut := Minimality for Value Sort Prop
  with Elements_mut := Minimality for Elements Sort Prop
  with Members_mut := Minimality for Members Sort Prop.

Combined Scheme Value_Elements_Members_ind from Value_mut, Elements_mut, Members_mut.

(** A whole text: one value, whitespace allowed around it, read with the
    nesting the interpreter has left. *)
Definition Document (py : interpreter) (s : text) (v : value) : Prop :=
  exists w1 t w2, s = w1 ++ t ++ w2 /\ WS w1 /\ WS w2 /\
    Value py (nesting_limit py) t v.

End JsonGrammar.

(** ** What the decoder is checked against *)

Module JsonSpecs.
Import Json JsonGrammar.

(** With fuel in proportion to the text, the scanner reads a value of the
    grammar, a list of elements up to the closing bracket, and a list of
    members up to the closing brace, and stops right after. *)
Definition scan_complete_value (py : interpreter) (d : nat) (t : text) (v : value)
    : Prop :=
  forall rest fuel, number_ends rest -> (2 * length t + 1 <= fuel)%nat ->
    scan_once py fuel d (t ++ rest) = Ok (v, rest).

Definition scan_complete_elements (py : interpreter) (d : nat) (elems : text)
    (vs : list value) : Prop :=
  forall rest fuel vals, (2 * length elems + 2 <= fuel)%nat ->
    array_loop py fuel d (elems ++ c_rbracket :: rest) vals = Ok (vals ++ vs, rest).

Definition scan_complete_members (py : interpreter) (d : nat) (members : text)
    (pairs : list (text * value)) : Prop :=
  forall ms rest fuel acc, members = c_quote :: ms ->
    (2 * length members + 2 <= fuel)%nat ->
    object_loop py fuel d (ms ++ c_rbrace :: rest) acc = Ok (acc ++ pairs, rest).

Definition mem (k : text) (ks : list text) : bool := existsb (text_eqb k) ks.

(** The keys of a member list, each at its first occurrence. *)
Fixpoint first_occurrences (ks : list text) : list text :=
  match ks with
  | [] => []
  | k :: ks' => k :: filter (fun k' => negb (text_eqb k k')) (first_occurrences ks')
  end.

(** The value of the last member of the list that has the key [k]. *)
Definition last_value (k : text) (pairs : list (text * value)) : option value :=
  fold_left (fun acc kv => if text_eqb k (fst kv) then Some (snd kv) else acc)
            pairs None.

(** The two ways in which a limit of the interpreter stops the decoder. *)
Definition stopped {A} (r : res A) : Prop := r = Recursion \/ r = IntTooLong.

(** The digits are not too many when no limit is set, or when the text
    is not longer than the limit. *)
Definition digits_fit (py : interpreter) (n : nat) : Prop :=
  max_str_digits py = O \/ (n <= max_str_digits py)%nat.

End JsonSpecs.

(** ** What a JSON text is

    The grammar of RFC 8259, with the three constants [NaN], [Infinity] and
    [-Infinity] that Python's decoder adds, as relations between a text and
    the value it denotes.  Nothing here is taken from the decoder: the
    characters are given by their codes, the value of an integer literal by
    the positions of its digits, the escapes by their table, a surrogate pair
    by the arithmetic of the Unicode standard, and the dictionary of an
    object by what it holds.  The two limits of the interpreter appear as
    they bear on a text: the depth to which containers nest, and the number
    of digits of an integer literal. *)

Module JsonRfc.

Local Open Scope N_scope.

(** Space, tab, line feed, carriage return. *)
Definition ws (c : N) : Prop := c = 32 \/ c = 9 \/ c = 10 \/ c = 13.

Definition Ws (w : Json.text) : Prop := Forall ws w.

(** [0] to [9]. *)
Definition digit (c : N) : Prop := 48 <= c /\ c <= 57.

(** [DigitsValue d z]: the digits [d], the most significant first, write
    the number [z] in base ten. *)
Inductive DigitsValue : Json.text -> Z -> Prop :=
| DV_one c : digit c -> DigitsValue [c] (Z.of_N c - 48)
| DV_more d z c :
    DigitsValue d z -> digit c ->
    DigitsValue (d ++ [c]) (10 * z + (Z.of_N c - 48)).

(** A natural number without a leading zero. *)
Inductive Natural : Json.text -> Z -> Prop :=
| Nat_zero : Natural [48] 0
| Nat_pos c d z : c <> 48 -> DigitsValue (c :: d) z -> Natural (c :: d) z.

(** [Integer i n z]: the literal [i], of [n] digits, writes [z]. *)
Inductive Integer : Json.text -> nat -> Z -> Prop :=
| Int_plain u z : Natural u z -> Integer u (length u) z
| Int_minus u z : Natural u z -> Integer (45 :: u) (length u) (- z).

Definition Digits (d : Json.text) : Prop := d <> [] /\ Forall digit d.

(** A dot and digits. *)
Inductive Fraction : Json.text -> Prop :=
| Fr_none : Fraction []
| Fr_some d : Digits d -> Fraction (46 :: d).

(** [e] or [E], a sign or none, and digits. *)
Inductive Exponent : Json.text -> Prop :=
| Ex_none : Exponent []
| Ex_unsigned e d : e = 101 \/ e = 69 -> Digits d -> Exponent (e :: d)
| Ex_signed e sg d :
    e = 101 \/ e = 69 -> sg = 43 \/ sg = 45 -> Digits d -> Exponent (e :: sg :: d).

(** The interpreter converts a literal of [n] digits to an integer: always
    up to 640 digits, beyond that when no limit is set or the limit is not
    passed. *)
Definition convertible (py : Json.interpreter) (n : nat) : Prop :=
  (n <= 640)%nat \/ Json.max_str_digits py = O \/ (n <= Json.max_str_digits py)%nat.

(** An integer literal denotes its integer; a literal with a fraction or an
    exponent denotes the float nearest to it, kept as the literal. *)
Inductive Number (py : Json.interpreter) : Json.text -> Json.value -> Prop :=
| Num_int i n z :
    Integer i n z -> convertible py n -> Number py i (Json.JInt z)
| Num_float i n z f e :
    Integer i n z -> Fraction f -> Exponent e -> (f <> [] \/ e <> []) ->
    Number py (i ++ f ++ e) (Json.JFloat (i ++ f ++ e)).

(** The character after a backslash and the character it stands for. *)
Inductive Escape : N -> N -> Prop :=
| Esc_quote : Escape 34 34
| Esc_backslash : Escape 92 92
| Esc_slash : Escape 47 47
| Esc_b : Escape 98 8
| Esc_f : Escape 102 12
| Esc_n : Escape 110 10
| Esc_r : Escape 114 13
| Esc_t : Escape 116 9.

(** A hexadecimal digit, of either case, and its value. *)
Inductive HexDigit : N -> N -> Prop :=
| Hex_decimal c : 48 <= c -> c <= 57 -> HexDigit c (c - 48)
| Hex_lower c : 97 <= c -> c <= 102 -> HexDigit c (c - 87)
| Hex_upper c : 65 <= c -> c <= 70 -> HexDigit c (c - 55).

Definition Hex4 (h1 h2 h3 h4 u : N) : Prop :=
  exists a b c d,
    HexDigit h1 a /\ HexDigit h2 b /\ HexDigit h3 c /\ HexDigit h4 d /\
    u = 4096 * a + 256 * b + 16 * c + d.

(** The surrogates: [D800..DBFF] and [DC00..DFFF]. *)
Definition high (u : N) : Prop := 55296 <= u /\ u <= 56319.
Definition low (u : N) : Prop := 56320 <= u /\ u <= 57343.

(** The code point that a pair of surrogates stands for. *)
Definition pair_value (hi lo : N) : N := 65536 + (hi - 55296) * 1024 + (lo - 56320).

(** The text starts with the escape [\uXXXX] of a low surrogate. *)
Definition LowEscape (src : Json.text) (lo : N) (rest : Json.text) : Prop :=
  exists k1 k2 k3 k4,
    src = 92 :: 117 :: k1 :: k2 :: k3 :: k4 :: rest /\
    Hex4 k1 k2 k3 k4 lo /\ low lo.

(** [StringBody src str]: the characters [src] between the quotes of a
    string literal denote the string [str]. *)
Inductive StringBody : Json.text -> Json.text -> Prop :=
| SB_end : StringBody [] []
| SB_char c src str :
    c <> 34 -> c <> 92 -> 32 <= c ->
    StringBody src str -> StringBody (c :: src) (c :: str)
| SB_escape esc ch src str :
    Escape esc ch ->
    StringBody src str -> StringBody (92 :: esc :: src) (ch :: str)
| SB_unicode h1 h2 h3 h4 uni src str :
    Hex4 h1 h2 h3 h4 uni ->
    ~ (high uni /\ exists lo rest, LowEscape src lo rest) ->
    StringBody src str ->
    StringBody (92 :: 117 :: h1 :: h2 :: h3 :: h4 :: src) (uni :: str)
| SB_pair h1 h2 h3 h4 hi lo pair src str :
    Hex4 h1 h2 h3 h4 hi -> high hi ->
    LowEscape pair lo src ->
    StringBody src str ->
    StringBody (92 :: 117 :: h1 :: h2 :: h3 :: h4 :: pair)
               (pair_value hi lo :: str).

(** *** The dictionary of an object *)

(** [FirstOccurrences seen ks out]: [out] lists the keys of [ks] that are
    not in [seen], each once, where it first occurs. *)
Inductive FirstOccurrences :
    list Json.text -> list Json.text -> list Json.text -> Prop :=
| FO_nil seen : FirstOccurrences seen [] []
| FO_new seen k ks out :
    ~ In k seen -> FirstOccurrences (k :: seen) ks out ->
    FirstOccurrences seen (k :: ks) (k :: out)
| FO_old seen k ks out :
    In k seen -> FirstOccurrences seen ks out ->
    FirstOccurrences seen (k :: ks) out.

(** [v] is the value of the last member with the key [k]. *)
Definition LastValue (pairs : list (Json.text * Json.value))
    (k : Json.text) (v : Json.value) : Prop :=
  exists before after,
    pairs = before ++ (k, v) :: after /\ ~ In k (map fst after).

(** The dictionary built from the members [pairs]: its keys are those of
    the members in the order in which they first occur, and each has the
    value of its last member. *)
Definition IsDict (pairs dct : list (Json.text * Json.value)) : Prop :=
  FirstOccurrences [] (map fst pairs) (map fst dct) /\
  forall k v, In (k, v) dct -> LastValue pairs k v.

(** *** Values *)

Definition lit_null : Json.text := [110; 117; 108; 108].
Definition lit_true : Json.text := [116; 114; 117; 101].
Definition lit_false : Json.text := [102; 97; 108; 115; 101].
Definition lit_nan : Json.text := [78; 97; 78].
Definition lit_inf : Json.text := [73; 110; 102; 105; 110; 105; 116; 121].
Definition lit_neg_inf : Json.text := 45 :: lit_inf.

(** [Value py d t v]: the text [t] denotes the value [v], its containers
    nesting at most [d] deep and its integers being of a length that the
    interpreter [py] converts. *)
Inductive Value (py : Json.interpreter) : nat -> Json.text -> Json.value -> Prop :=
| V_null d : Value py d lit_null Json.JNull
| V_true d : Value py d lit_true (Json.JBool true)
| V_false d : Value py d lit_false (Json.JBool false)
| V_nan d : Value py d lit_nan (Json.JFloat lit_nan)
| V_inf d : Value py d lit_inf (Json.JFloat lit_inf)
| V_neg_inf d : Value py d lit_neg_inf (Json.JFloat lit_neg_inf)
| V_number d t v : Number py t v -> Value py d t v
| V_string d src str :
    StringBody src str -> Value py d (34 :: src ++ [34]) (Json.JStr str)
| V_array_empty d w :
    Ws w -> Value py (S d) (91 :: w ++ [93]) (Json.JList [])
| V_array d w elems vs :
    Ws w -> Elements py d elems vs ->
    Value py (S d) (91 :: w ++ elems ++ [93]) (Json.JList vs)
| V_object_empty d w :
    Ws w -> Value py (S d) (123 :: w ++ [125]) (Json.JDict [])
| V_object d w members pairs dct :
    Ws w -> Members py d members pairs -> IsDict pairs dct ->
    Value py (S d) (123 :: w ++ members ++ [125]) (Json.JDict dct)

(** Values separated by commas, each followed by optional whitespace. *)
with Elements (py : Json.interpreter) : nat -> Json.text -> list Json.value -> Prop :=
| E_last d t v w :
    Value py d t v -> Ws w -> Elements py d (t ++ w) [v]
| E_more d t v w1 w2 more vs :
    Value py d t v -> Ws w1 -> Ws w2 -> Elements py d more vs ->
    Elements py d (t ++ w1 ++ 44 :: w2 ++ more) (v :: vs)

(** [key : value] members separated by commas, in the order of the text. *)
with Members (py : Json.interpreter)
    : nat -> Json.text -> list (Json.text * Json.value) -> Prop :=
| M_last d ksrc k w1 w2 t v w3 :
    StringBody ksrc k -> Ws w1 -> Ws w2 -> Value py d t v -> Ws w3 ->
    Members py d (34 :: ksrc ++ 34 :: w1 ++ 58 :: w2 ++ t ++ w3) [(k, v)]
| M_more d ksrc k w1 w2 t v w3 w4 more pairs :
    StringBody ksrc k -> Ws w1 -> Ws w2 -> Value py d t v -> Ws w3 -> Ws w4 ->
    Members py d more pairs ->
    Members py d (34 :: ksrc ++ 34 :: w1 ++ 58 :: w2 ++ t ++ w3
                  ++ 44 :: w4 ++ more)
            ((k, v) :: pairs).

Scheme Value_min := Minimality for Value Sort Prop
  with Elements_min := Minimality for Elements Sort Prop
  with Members_min := Minimality for Members Sort Prop.

Combined Scheme Value_Elements_Members_min from Value_min, Elements_min, Members_min.

(** A document the interpreter [py] takes: one value, whitespace allowed
    around it, within the nesting that [py] has left. *)
Definition Document (py : Json.interpreter) (s : Json.text) (v : Json.value) : Prop :=
  exists w1 t w2, s = w1 ++ t ++ w2 /\ Ws w1 /\ Ws w2 /\
    Value py (Json.nesting_limit py) t v.

(** A JSON text, whatever the limits: a document for some interpreter. *)
Definition Wellformed (s : Json.text) (v : Json.value) : Prop :=
  exists py, Document py s v.

(** A text that holds key/value data: a document whose value is an object
    with the members [pairs], in the order of the text. *)
Definition ObjectDocument (py : Json.interpreter) (s : Json.text)
    (pairs : list (Json.text * Json.value)) : Prop :=
  exists w1 t w2 d, s = w1 ++ t ++ w2 /\ Ws w1 /\ Ws w2 /\
    Json.nesting_limit py = S d /\
    ((pairs = [] /\ exists w, Ws w /\ t = 123 :: w ++ [125]) \/
     (exists w members, Ws w /\ Members py d members pairs /\
        t = 123 :: w ++ members ++ [125])).

(** Limits that no text of [n] characters can reach. *)
Definition roomy (py : Json.interpreter) (n : nat) : Prop :=
  (n <= Json.nesting_limit py)%nat /\
  (Json.max_str_digits py = O \/ (n <= Json.max_str_digits py)%nat).

End JsonRfc.

(** ** [load_json] *)

Module LoadJson.

Definition bytes : Type := string.

(** What a path names: nothing, something that may not be read, a
    directory, something on which [open] fails with another error number,
    or a file. *)
Inductive node : Type :=
| Absent
| Denied
| Directory
| Failing (errno : Z)
| File (content : bytes).

(** What the system holds under each name. *)
Record filesystem : Type := { entries : string -> node }.

(** A name with a NUL character in it is no path: [open] refuses it before
    the system is asked. *)
Definition has_nul (file_path : string) : bool :=
  existsb (fun c => Ascii.eqb c zero) (list_ascii_of_string file_path).

Inductive found : Type :=
| NoPath
| Node (n : node).

Definition at_path (fs : filesystem) (file_path : string) : found :=
  if has_nul file_path then NoPath else Node (entries fs file_path).

Coercion Node : node >-> found.
Coercion at_path : filesystem >-> Funclass.

(** What a [ValueError] that is not an error of decoding complains of: a
    NUL character in the name of the file, or an integer literal of more
    digits than the interpreter converts. *)
Inductive value_error : Type :=
| EmbeddedNul
| DigitLimit.

Inductive exn : Type :=
| FileNotFoundError
| PermissionError
| IsADirectoryError
| OSError (errno : Z)
| ValueError (why : value_error)
| LookupError
| UnicodeDecodeError
| JSONDecodeError (msg : string)
| RecursionError.

(** A decoder of bytes, under the name by which Python knows it. *)
Record codec : Type := { codec_name : string; codec_decode : bytes -> option Json.text }.

(** The [encoding] argument: the name of a text encoding that [codecs]
    knows, resolved to its decoder, or another name. *)
Inductive encoding : Type :=
| Known (c : codec)
| Unknown (name : string).

Coercion Known : codec >-> encoding.

Definition byte_values (b : bytes) : list N := map N_of_ascii (list_ascii_of_string b).

Local Open Scope N_scope.

Definition is_cont (b : N) : bool := (128 <=? b) && (b <=? 191).

Definition in_range (lo hi b : N) : bool := (lo <=? b) && (b <=? hi).

(** Strict UTF-8: shortest form only, no surrogates, nothing above
    [U+10FFFF]. *)
Fixpoint utf8_decode (bs : list N) : option Json.text :=
  match bs with
  | [] => Some []
  | b0 :: r0 =>
      if b0 <? 128 then option_map (cons b0) (utf8_decode r0)
      else if in_range 194 223 b0 then
        match r0 with
        | b1 :: r1 =>
            if is_cont b1
            then option_map (cons ((b0 - 192) * 64 + (b1 - 128))) (utf8_decode r1)
            else None
        | _ => None
        end
      else if in_range 224 239 b0 then
        match r0 with
        | b1 :: b2 :: r2 =>
            if in_range (if b0 =? 224 then 160 else 128)
                        (if b0 =? 237 then 159 else 191) b1
               && is_cont b2
            then option_map
                   (cons (((b0 - 224) * 64 + (b1 - 128)) * 64 + (b2 - 128)))
                   (utf8_decode r2)
            else None
        | _ => None
        end
      else if in_range 240 244 b0 then
        match r0 with
        | b1 :: b2 :: b3 :: r3 =>
            if in_range (if b0 =? 240 then 144 else 128)
                        (if b0 =? 244 then 143 else 191) b1
               && is_cont b2 && is_cont b3
            then option_map
                   (cons ((((b0 - 240) * 64 + (b1 - 128)) * 64 + (b2 - 128)) * 64
                          + (b3 - 128)))
                   (utf8_decode r3)
            else None
        | _ => None
        end
      else None
  end.

Definition utf_8 : codec :=
  {| codec_name := "utf-8"; codec_decode := fun b => utf8_decode (byte_values b) |}.

Definition latin_1 : codec :=
  {| codec_name := "latin-1"; codec_decode := fun b => Some (byte_values b) |}.

(** Text mode with the default [newline=None]: on reading, [\r\n] and a
    lone [\r] become [\n]. *)
Fixpoint universal_newlines (s : Json.text) : Json.text :=
  match s with
  | [] => []
  | c :: s1 =>
      if c =? 13 then
        10 :: match s1 with
              | d :: s2 => if d =? 10 then universal_newlines s2 else universal_newlines s1
              | [] => []
              end
      else c :: universal_newlines s1
  end.

(** [open(file_path, "r", encoding=encoding)]: the file is opened first,
    and the encoding looked up when the text layer is put on it. *)
Definition open_r (fs : filesystem) (file_path : string) (encoding : encoding)
    : exn + (codec * bytes) :=
  match fs file_path with
  | NoPath => inl (ValueError EmbeddedNul)
  | Node Absent => inl FileNotFoundError
  | Node Denied => inl PermissionError
  | Node Directory => inl IsADirectoryError
  | Node (Failing errno) => inl (OSError errno)
  | Node (File content) =>
      match encoding with
      | Known c => inr (c, content)
      | Unknown _ => inl LookupError
      end
  end.

(** [fp.read()] *)
Definition read (encoding : codec) (content : bytes) : exn + Json.text :=
  match codec_decode encoding content with
  | None => inl UnicodeDecodeError
  | Some s => inr (universal_newlines s)
  end.

(** [json.load(fp)] is [json.loads(fp.read())].  The decoder is never out
    of fuel, so that its last case does not occur. *)
Definition json_load (py : Json.interpreter) (encoding : codec) (content : bytes)
    : exn + Json.value :=
  match read encoding content with
  | inl e => inl e
  | inr s =>
      match Json.loads py s with
      | Json.Ok data => inr data
      | Json.Error msg => inl (JSONDecodeError msg)
      | Json.Recursion => inl RecursionError
      | Json.IntTooLong => inl (ValueError DigitLimit)
      | Json.OutOfFuel => inl RecursionError
      end
  end.

(** The function reads and changes nothing else: its result depends on the
    interpreter's settings and the file system alone. *)
Definition load_json (py : Json.interpreter) (file_path : string)
    (encoding : encoding) (fs : filesystem) : exn + Json.value :=
  match open_r fs file_path encoding with
  | inl e => inl e
  | inr (c, fp) =>
      match json_load py c fp with
      | inl e => inl e
      | inr data => inr data
      end
  end.

(** The error classes of the specification. *)
Inductive signal : Type :=
| NotFound
| ParseError
| Other.

(** [NotFound] stands for the operating-system errors of [open],
    [ParseError] for the errors of decoding the bytes and the text. *)
Definition signal_of (e : exn) : signal :=
  match e with
  | FileNotFoundError | PermissionError | IsADirectoryError | OSError _ => NotFound
  | UnicodeDecodeError | JSONDecodeError _ => ParseError
  | ValueError _ | LookupError | RecursionError => Other
  end.

End LoadJson.

(** ** [pandas.read_csv] on plain tables

    [gsheet_to_df] hands the response body to [pandas.read_csv] with the
    default options.  What the reader does is written out for plain tables
    only: bodies made of letters, digits, underscores, commas and line
    feeds, whose first non-blank line holds distinct non-empty column names
    and whose other non-blank lines have as many fields as that line.  For
    every other body [read_csv] answers [None]: quoting, padding of short
    rows, renaming of columns and the like are not described here. *)

Module PandasCsv.

Definition bytes : Type := string.

(** A cell of an integer column, or the source text of a cell of a column
    that is not one (its type is then decided by rules not described here). *)
Inductive cell : Type :=
| Int64 (z : Z)
| Text (source : string).

Record DataFrame : Type := {
  columns : list string;
  rows : list (list cell)
}.

Inductive exn : Type :=
| EmptyDataError
| ParserError
| UnicodeDecodeError.

Definition comma : ascii := ","%char.
Definition line_feed : ascii := ascii_of_nat 10.

Definition is_digit (c : ascii) : bool :=
  let n := nat_of_ascii c in (48 <=? n)%nat && (n <=? 57)%nat.

Definition name_char (c : ascii) : bool :=
  let n := nat_of_ascii c in
  is_digit c
  || ((65 <=? n)%nat && (n <=? 90)%nat)
  || ((97 <=? n)%nat && (n <=? 122)%nat)
  || (n =? 95)%nat.

Fixpoint all_chars (p : ascii -> bool) (s : string) : bool :=
  match s with
  | EmptyString => true
  | String c s' => p c && all_chars p s'
  end.

Definition plain (data : bytes) : bool :=
  all_chars (fun c => name_char c || Ascii.eqb c comma || Ascii.eqb c line_feed) data.

(** The pieces of [s] between the occurrences of [sep]. *)
Fixpoint split_on (sep : ascii) (s : string) : list string :=
  match s with
  | EmptyString => [EmptyString]
  | String c s' =>
      if Ascii.eqb c sep then EmptyString :: split_on sep s'
      else
        match split_on sep s' with
        | f :: fs => String c f :: fs
        | [] => [String c EmptyString]
        end
  end.

Definition is_blank (line : string) : bool :=
  match line with EmptyString => true | _ => false end.

(** The records of the body: its non-blank lines ([skip_blank_lines]), each
    cut at the commas. *)
Definition records (data : bytes) : list (list string) :=
  map (split_on comma) (filter (fun l => negb (is_blank l)) (split_on line_feed data)).

Fixpoint distinct (names : list string) : bool :=
  match names with
  | [] => true
  | n :: names' => negb (existsb (String.eqb n) names') && distinct names'
  end.

Definition digit_val (c : ascii) : Z := Z.of_nat (nat_of_ascii c) - 48.

Fixpoint int_of_digits (acc : Z) (s : string) : Z :=
  match s with
  | EmptyString => acc
  | String c s' => int_of_digits (10 * acc + digit_val c) s'
  end.

Definition int64_max : Z := 9223372036854775807.

Definition is_int64_literal (f : string) : bool :=
  negb (is_blank f) && all_chars is_digit f && (int_of_digits 0 f <=? int64_max)%Z.

(** A column is an integer column when every one of its cells is. *)
Definition column_is_int (data_rows : list (list string)) (j : nat) : bool :=
  forallb (fun r => is_int64_literal (nth j r EmptyString)) data_rows.

Definition type_row (int_column : list bool) (r : list string) : list cell :=
  map (fun bf : bool * string =>
         if fst bf then Int64 (int_of_digits 0 (snd bf)) else Text (snd bf))
      (combine int_column r).

Definition read_csv (data : bytes) : option (exn + DataFrame) :=
  if plain data then
    match records data with
    | [] => Some (inl EmptyDataError)
    | header :: data_rows =>
        if forallb (fun n => negb (is_blank n)) header
           && distinct header
           && forallb (fun r => (length r =? length header)%nat) data_rows
        then
          let int_column := map (column_is_int data_rows) (seq 0 (length header)) in
          Some (inr {| columns := header; rows := map (type_row int_column) data_rows |})
        else None
    end
  else None.

(** A row as the mapping from column name to cell. *)
Definition row_items (df : DataFrame) (r : list cell) : list (string * cell) :=
  combine (columns df) r.

(** A reader that does on plain tables what [read_csv] says. *)
Definition reads_plain_tables (pd_read_csv : bytes -> exn + DataFrame) : Prop :=
  forall data r, read_csv data = Some r -> pd_read_csv data = r.

(** One such reader, total, for running examples: it refuses what
    [read_csv] leaves open. *)
Definition demo_read_csv (data : bytes) : exn + DataFrame :=
  match read_csv data with
  | Some r => r
  | None => inl ParserError
  end.

(** The header line of the columns [names]. *)
Definition header_line (names : list string) : string := String.concat "," names.

Definition column_name (n : string) : bool := negb (is_blank n) && all_chars name_char n.

(** A body that is a header line and nothing else, with or without the line
    feed that ends the line. *)
Definition header_only (names : list string) (terminated : bool) : bytes :=
  (header_line names
   ++ if terminated then String line_feed EmptyString else EmptyString)%string.

End PandasCsv.

(** ** [gsheet_to_df] *)

Module Gsheet.

Record Response : Type := {
  status_code : Z;
  content : PandasCsv.bytes
}.

Inductive exn (ReqErr : Type) : Type :=
| RequestException (e : ReqErr)
| PandasError (e : PandasCsv.exn).
Arguments RequestException {ReqErr} e.
Arguments PandasError {ReqErr} e.

Section Http.
(** [Net] is the state of the network and of the servers behind it;
    [ReqErr] the transport failures [requests.get] raises. *)
Variables Net ReqErr : Type.

Variable requests_get : string -> Net -> (ReqErr + Response) * Net.

Variable pd_read_csv : PandasCsv.bytes -> PandasCsv.exn + PandasCsv.DataFrame.

Inductive event : Type :=
| EGet (url : string) (res : ReqErr + Response)
| EPrint (status : Z).

Record world : Type := { net : Net; trace : list event }.

Definition start (n : Net) : world := {| net := n; trace := [] |}.

Definition Py (A : Type) : Type := @Eff.M world (exn ReqErr) A.

Definition get (url : string) : Py Response :=
  fun w =>
    let (res, n') := requests_get url (net w) in
    let w' := {| net := n'; trace := trace w ++ [EGet url res] |} in
    match res with
    | inl e => (inl (RequestException e), w')
    | inr r => (inr r, w')
    end.

Definition print (status : Z) : Py unit :=
  fun w => (inr tt, {| net := net w; trace := trace w ++ [EPrint status] |}).

Definition read_csv (data : PandasCsv.bytes) : Py PandasCsv.DataFrame :=
  match pd_read_csv data with
  | inl e => Eff.raise (PandasError e)
  | inr df => Eff.ret df
  end.

Definition GDRIVE_BASE_URL : string := "https://docs.google.com/spreadsheet/ccc?key=".

Definition gsheet_to_df (sheet_id : string) : Py PandasCsv.DataFrame :=
  (let url := (GDRIVE_BASE_URL ++ sheet_id ++ "&output=csv")%string in
   r <- get url;;
   print (status_code r);;
   let data := content r in
   df <- read_csv data;;
   Eff.ret df)%eff.

Definition is_get (ev : event) : bool :=
  match ev with EGet _ _ => true | _ => false end.

(** What the caller gets for an answer of the reader. *)
Definition outcome (r : PandasCsv.exn + PandasCsv.DataFrame)
  : exn ReqErr + PandasCsv.DataFrame :=
  match r with
  | inl e => inl (PandasError e)
  | inr df => inr df
  end.
End Http.

(** The address the function asks, spelled out. *)
Definition sheet_url (sheet_id : string) : string :=
  ("https://docs.google.com/spreadsheet/ccc?key=" ++ sheet_id ++ "&output=csv")%string.

Arguments EGet {ReqErr}.
Arguments EPrint {ReqErr}.
Arguments net {Net ReqErr}.
Arguments trace {Net ReqErr}.
Arguments start {Net ReqErr}.
Arguments gsheet_to_df {Net ReqErr}.
Arguments is_get {ReqErr}.
Arguments outcome {ReqErr}.

End Gsheet.

(** ** A small ownCloud endpoint to run the upload against *)

Module DemoCloud.

Inductive err : Type :=
| AuthFailed
| HTTPResponseError (status : Z).

(** Collections that exist and the objects stored so far (remote name,
    local path it was read from), oldest first. *)
Record remote : Type := {
  collections : list string;
  objects : list (string * string)
}.

Definition password : string := "s3cret".

Definition login (user pw : string) (r : remote) : (err + unit) * remote :=
  if String.eqb pw password then (inr tt, r) else (inl AuthFailed, r).

Definition mkdir (name : string) (r : remote) : (err + bool) * remote :=
  if existsb (String.eqb name) (collections r)
  then (inl (HTTPResponseError 405), r)
  else (inr true, {| collections := collections r ++ [name]; objects := objects r |}).

(** A put of the local path [/data/locked.bin] is refused; every other put
    stores the object and answers with the number of objects now stored. *)
Definition put_file (name path : string) (r : remote) : (err + nat) * remote :=
  if String.eqb path "/data/locked.bin"
  then (inl (HTTPResponseError 423), r)
  else
    let objs := objects r ++ [(name, path)] in
    (inr (length objs), {| collections := collections r; objects := objs |}).

Definition client (url : string) : Upload.Client remote err nat :=
  {| Upload.login := login; Upload.mkdir := mkdir; Upload.put_file := put_file |}.

Definition empty : remote := {| collections := []; objects := [] |}.

Definition with_folder : remote := {| collections := ["pfp-data"]; objects := [] |}.

Definition three_files : list string :=
  ["/data/a.json"; "/data/locked.bin"; "/data/c.json"].

End DemoCloud.

(** ** A small web to fetch sheets from *)

Module DemoWeb.

Inductive err : Type := ConnectionError.

Definition line_feed : string := String PandasCsv.line_feed EmptyString.

Definition two_rows : string := "a,b" ++ line_feed ++ "1,2" ++ line_feed ++ "3,4" ++ line_feed.

Definition header_only : string := "a,b" ++ line_feed.

(** The state is the number of requests served.  Three sheets are known,
    the host [offline] cannot be reached, everything else is a 404 page. *)
Definition requests_get (url : string) (served : nat)
    : (err + Gsheet.Response) * nat :=
  if String.eqb url "https://docs.google.com/spreadsheet/ccc?key=two&output=csv"
  then (inr {| Gsheet.status_code := 200; Gsheet.content := two_rows |}, S served)
  else if String.eqb url "https://docs.google.com/spreadsheet/ccc?key=head&output=csv"
  then (inr {| Gsheet.status_code := 200; Gsheet.content := header_only |}, S served)
  else if String.eqb url "https://docs.google.com/spreadsheet/ccc?key=none&output=csv"
  then (inr {| Gsheet.status_code := 200; Gsheet.content := "" |}, S served)
  else if String.eqb url "https://docs.google.com/spreadsheet/ccc?key=offline&output=csv"
  then (inl ConnectionError, served)
  else (inr {| Gsheet.status_code := 404; Gsheet.content := "Not_Found" |}, S served).

Definition fetch :=
  Gsheet.gsheet_to_df requests_get PandasCsv.demo_read_csv.

End DemoWeb.

(** ** A small file system to load from *)

Module DemoFiles.

(** JSON texts are written with apostrophes where the file has double
    quotes. *)
Fixpoint requote (s : string) : string :=
  match s with
  | EmptyString => EmptyString
  | String c s' =>
      String (if Ascii.eqb c "'"%char then ascii_of_nat 34 else c) (requote s')
  end.

Definition settings : string := requote "{'b': 1, 'a': 2}".

Definition truncated : string := requote "{'b': 1, 'a'".

Definition trailing : string := requote "{'b': 1} x".

(** One byte, [E9]: an e with acute accent in Latin-1, not UTF-8. *)
Definition latin : string :=
  (requote "{'caf" ++ String (ascii_of_nat 233) (requote "': 1}"))%string.

(** The members of [settings], in the order of the text. *)
Definition pairs : list (Json.text * Json.value) :=
  [(Json.text_of_string "b", Json.JInt 1); (Json.text_of_string "a", Json.JInt 2)].

(** A key that comes twice, and a negative number. *)
Definition repeated : string := requote "{'b': 1, 'a': -27, 'b': 30}".

Definition repeated_pairs : list (Json.text * Json.value) :=
  [(Json.text_of_string "b", Json.JInt 1);
   (Json.text_of_string "a", Json.JInt (-27));
   (Json.text_of_string "b", Json.JInt 30)].

Fixpoint times (n : nat) (c : ascii) : string :=
  match n with
  | O => EmptyString
  | S n' => String c (times n' c)
  end.

(** Two thousand opening brackets and nothing else. *)
Definition deep : string := times (20 * 100) "["%char.

(** An object whose one member is an integer of five thousand digits. *)
Definition long_number : string :=
  (requote "{'n': " ++ times (50 * 100) "7"%char ++ "}")%string.

(** A name with a NUL character in the middle. *)
Definition nul_name : string := String "a"%char (String zero (String "b"%char EmptyString)).

Definition fs : LoadJson.filesystem :=
  {| LoadJson.entries := fun path =>
    if String.eqb path "conf/settings.json" then LoadJson.File settings
    else if String.eqb path "conf/truncated.json" then LoadJson.File truncated
    else if String.eqb path "conf/trailing.json" then LoadJson.File trailing
    else if String.eqb path "conf/latin.json" then LoadJson.File latin
    else if String.eqb path "conf/repeated.json" then LoadJson.File repeated
    else if String.eqb path "conf/deep.json" then LoadJson.File deep
    else if String.eqb path "conf/long_number.json" then LoadJson.File long_number
    else if String.eqb path "conf" then LoadJson.Directory
    else if String.eqb path "secret.json" then LoadJson.Denied
    else if String.eqb path "dev/tape" then LoadJson.Failing 5
    else LoadJson.Absent |}.

(** An interpreter without limits that a text of these files could reach. *)
Definition unlimited : Json.interpreter :=
  {| Json.nesting_limit := 60 * 100; Json.max_str_digits := 0 |}.

End DemoFiles.

(** ** Reading a log of the upload *)

Module UploadLog.
Import Upload.

Section Log.
Variables Err Out : Type.

(** The remote name and the local path of a put. *)
Definition put_target (ev : event Err Out) : option (string * string) :=
  match ev with
  | EPut _ remote_name local_path _ => Some (remote_name, local_path)
  | _ => None
  end.

(** The puts of a log, in the order in which they were attempted. *)
Fixpoint puts_of (log : list (event Err Out)) : list (string * string) :=
  match log with
  | [] => []
  | ev :: log' =>
      match put_target ev with
      | Some target => target :: puts_of log'
      | None => puts_of log'
      end
  end.

Definition is_login (ev : event Err Out) : bool :=
  match ev with ELogin _ _ _ _ => true | _ => false end.

Definition is_mkdir (ev : event Err Out) : bool :=
  match ev with EMkdir _ _ _ => true | _ => false end.
End Log.

Arguments put_target {Err Out}.
Arguments puts_of {Err Out}.
Arguments is_login {Err Out}.
Arguments is_mkdir {Err Out}.

(** Where the file [x] goes when the destination is [folder]. *)
Definition target (folder x : string) : string * string :=
  (owncloud_name folder (snd (OsPath.split x)), x).

End UploadLog.

(** ** Bodies and bytes for further properties *)

Module MoreInputs.

(** A body of [n] line feeds: blank lines and nothing else. *)
Fixpoint blank_lines (n : nat) : PandasCsv.bytes :=
  match n with
  | O => EmptyString
  | S n' => String PandasCsv.line_feed (blank_lines n')
  end.

(** The three bytes [EF BB BF], the UTF-8 form of the byte order mark. *)
Definition utf8_bom (rest : LoadJson.bytes) : LoadJson.bytes :=
  String (ascii_of_nat 239) (String (ascii_of_nat 187) (String (ascii_of_nat 191) rest)).

Definition ascii_only (b : LoadJson.bytes) : bool :=
  forallb (fun c => (c <? 128)%N) (LoadJson.byte_values b).

(** A Unicode scalar value: at most [10FFFF] and no surrogate. *)
Definition scalar_value (c : Json.codepoint) : bool :=
  ((c <=? 1114111) && negb ((55296 <=? c) && (c <=? 57343)))%N.

(** A character that may stand as it is inside a string literal. *)
Definition plain_char (c : Json.codepoint) : bool :=
  ((32 <=? c) && negb (c =? Json.c_quote) && negb (c =? Json.c_backslash))%N.

(** More files to load. *)
Definition blank : LoadJson.bytes :=
  String " "%char (String PandasCsv.line_feed (String " "%char EmptyString)).

Definition padded : LoadJson.bytes :=
  String " "%char (DemoFiles.settings ++ String PandasCsv.line_feed EmptyString)%string.

Definition listing : LoadJson.bytes := "[1, 2]".

(** A document, and what is not one after it. *)
Definition followed : LoadJson.bytes := (DemoFiles.settings ++ "]")%string.

(** The mark and a byte that no UTF-8 text holds. *)
Definition bom_broken : LoadJson.bytes := utf8_bom (String (ascii_of_nat 255) EmptyString).

Definition fs : LoadJson.filesystem :=
  {| LoadJson.entries := fun path =>
    if String.eqb path "blank.json" then LoadJson.File blank
    else if String.eqb path "bom.json" then LoadJson.File (utf8_bom DemoFiles.settings)
    else if String.eqb path "bom_broken.json" then LoadJson.File bom_broken
    else if String.eqb path "padded.json" then LoadJson.File padded
    else if String.eqb path "listing.json" then LoadJson.File listing
    else if String.eqb path "followed.json" then LoadJson.File followed
    else LoadJson.entries DemoFiles.fs path |}.

(** A web on which every sheet is three blank lines. *)
Definition blank_web (url : string) (served : nat)
    : (DemoWeb.err + Gsheet.Response) * nat :=
  (inr {| Gsheet.status_code := 200; Gsheet.content := blank_lines 3 |}, S served).

End MoreInputs.

(** * Properties *)

(** ** Path splitting *)

Module OsPathFacts.
Import OsPath.

Lemma cut_spec (p : string) :
  let (h, t) := cut p in
  p = (h ++ t)%string /\ has_sep t = false /\
  (h = EmptyString \/ exists h', h = (h' ++ "/")%string).
Proof.
  induction p as [|c p IH]; simpl.
  - repeat split; auto.
  - destruct (cut p) as [h t]. destruct IH as (Hp & Ht & Hh).
    destruct h as [|c' h'].
    + simpl in Hp. subst p. destruct (is_sep c) eqn:Hc.
      * repeat split; auto. right. exists EmptyString. simpl.
        unfold is_sep in Hc. apply Ascii.eqb_eq in Hc. subst c. reflexivity.
      * repeat split; auto. simpl. rewrite Hc, Ht. reflexivity.
    + subst p. repeat split; auto. right.
      destruct Hh as [Hh | [h'' Hh]]; [discriminate|].
      exists (String c h''). simpl. rewrite Hh. reflexivity.
Qed.

Lemma split_tail_is_basename (p : string) : is_basename p (snd (split p)).
Proof.
  unfold split. pose proof (cut_spec p) as H.
  destruct (cut p) as [h t]. simpl. destruct H as (Hp & Ht & Hh).
  split; [exact Ht|]. exists h. split; assumption.
Qed.

End OsPathFacts.

(** ** The upload loop *)

Module UploadFacts.
Import Upload.

Section Client.
Variables R Err Out : Type.
Variable owncloud_Client : string -> Client R Err Out.

Let oc := owncloud_Client endpoint.
Let world := world R Err Out.

Lemma loop_all_ok collection xs : forall r outs r' acc t,
  puts_ok oc collection xs r outs r' ->
  Eff.for_each xs (loop_body R Err Out oc collection) acc
    {| outside := r; trace := t |} =
  (inr (acc_after Out acc outs),
   {| outside := r'; trace := t ++ ok_events collection xs outs |}).
Proof.
  induction xs as [|x xs IH]; intros r outs r' acc t H; inversion H; subst.
  - simpl. unfold Eff.ret. rewrite app_nil_r. reflexivity.
  - simpl. unfold Eff.bind at 1. unfold loop_body at 1.
    unfold Eff.bind, print, call, Eff.ret. simpl.
    match goal with Hp : put_file _ _ _ _ = _ |- _ => rewrite Hp end.
    simpl. erewrite IH by eassumption.
    unfold put_events. rewrite <- !app_assoc. reflexivity.
Qed.

Lemma loop_put_raises collection pre x post : forall r outs r1 e r2 acc t,
  puts_ok oc collection pre r outs r1 ->
  put_file oc (owncloud_name collection (snd (OsPath.split x))) x r1 = (inl e, r2) ->
  Eff.for_each (pre ++ x :: post) (loop_body R Err Out oc collection) acc
    {| outside := r; trace := t |} =
  (inl (ClientError e),
   {| outside := r2;
      trace := t ++ ok_events collection pre outs ++ put_events collection x (inl e) |}).
Proof.
  induction pre as [|y pre IH]; intros r outs r1 e r2 acc t H Hx; inversion H; subst.
  - simpl. unfold Eff.bind at 1. unfold loop_body at 1.
    unfold Eff.bind, print, call, Eff.ret. simpl. rewrite Hx. simpl.
    unfold put_events. rewrite <- !app_assoc. reflexivity.
  - simpl. unfold Eff.bind at 1. unfold loop_body at 1.
    unfold Eff.bind, print, call, Eff.ret. simpl.
    match goal with Hp : put_file _ _ _ _ = (inr _, _) |- _ => rewrite Hp end.
    simpl. erewrite IH by eassumption.
    unfold put_events. rewrite <- !app_assoc. reflexivity.
Qed.

Lemma acc_after_last acc outs o : acc_after Out acc (outs ++ [o]) = Some o.
Proof. unfold acc_after. rewrite fold_left_app. reflexivity. Qed.

Lemma puts_ok_length collection xs : forall r outs r',
  puts_ok oc collection xs r outs r' -> length outs = length xs.
Proof.
  induction xs; intros r outs r' H; inversion H; subst; simpl; eauto.
Qed.

(** Everything before the loop, once the login went through: the answer of
    [mkdir] is logged and otherwise ignored. *)
Lemma upload_after_login files user pw folder r0 r1 mk r2 :
  login oc user pw r0 = (inr tt, r1) ->
  mkdir oc folder r1 = (mk, r2) ->
  upload_files_to_owncloud owncloud_Client files user pw folder (start r0) =
  Eff.bind (Eff.for_each files (loop_body R Err Out oc folder) None)
           (return_local R Err Out "result")
    {| outside := r2;
       trace := [ELogin endpoint user pw (inr tt); EMkdir endpoint folder mk] |}.
Proof.
  intros Hl Hm. unfold upload_files_to_owncloud.
  unfold Eff.bind at 1. unfold call at 1. fold oc. simpl. rewrite Hl. simpl.
  unfold Eff.bind at 1. unfold Eff.try_except, Eff.bind at 1, call. simpl.
  rewrite Hm. destruct mk; reflexivity.
Qed.

(** C1. When the put of the file at position [i] raises (the files before
    it, [pre], having been put successfully), the function raises that very
    exception; the log shows one successful put per earlier file, in order,
    then the failed attempt, and nothing after it: the later files [post]
    are never attempted and nothing is undone, the outside being left as
    the failed put left it. *)
Theorem upload_put_failure_aborts_batch
    pre x post user pw folder r0 r1 mk r2 outs r3 e r4 :
  login oc user pw r0 = (inr tt, r1) ->
  mkdir oc folder r1 = (mk, r2) ->
  puts_ok oc folder pre r2 outs r3 ->
  put_file oc (owncloud_name folder (snd (OsPath.split x))) x r3 = (inl e, r4) ->
  upload_files_to_owncloud owncloud_Client (pre ++ x :: post) user pw folder (start r0) =
  (inl (ClientError e),
   {| outside := r4;
      trace := [ELogin endpoint user pw (inr tt); EMkdir endpoint folder mk]
               ++ ok_events folder pre outs
               ++ put_events folder x (inl e) |}).
Proof.
  intros Hl Hm Hpre Hx.
  rewrite (upload_after_login _ _ _ _ _ _ _ _ Hl Hm).
  unfold Eff.bind. erewrite loop_put_raises by eassumption. reflexivity.
Qed.

(** C2. When creating the destination collection raises, whatever the
    exception, the function goes on exactly as the per-file loop does from
    the state the failed [mkdir] left: the exception is dropped (it only
    shows in the log), and with files whose puts succeed the function
    returns normally. *)
Theorem upload_mkdir_failure_suppressed
    files user pw folder r0 r1 e r2 :
  login oc user pw r0 = (inr tt, r1) ->
  mkdir oc folder r1 = (inl e, r2) ->
  upload_files_to_owncloud owncloud_Client files user pw folder (start r0) =
  Eff.bind (Eff.for_each files (loop_body R Err Out oc folder) None)
           (return_local R Err Out "result")
    {| outside := r2;
       trace := [ELogin endpoint user pw (inr tt); EMkdir endpoint folder (inl e)] |}
  /\
  (forall outs o r3,
     puts_ok oc folder files r2 (outs ++ [o]) r3 ->
     fst (upload_files_to_owncloud owncloud_Client files user pw folder (start r0))
     = inr o).
Proof.
  intros Hl Hm. split.
  - eapply upload_after_login; eassumption.
  - intros outs o r3 Hp.
    rewrite (upload_after_login _ _ _ _ _ _ _ _ Hl Hm).
    unfold Eff.bind. erewrite loop_all_ok by eassumption.
    rewrite acc_after_last. reflexivity.
Qed.

(** C3. For a non-empty list of files whose puts all succeed, the function
    returns the outcome of the last put and nothing of the earlier ones;
    the log holds one announcement and one put per file, in input order,
    each under the remote name [folder/tail] where [tail] is the last
    component of the local path. *)
Theorem upload_returns_last_outcome
    files user pw folder r0 r1 mk r2 outs r3 :
  files <> [] ->
  login oc user pw r0 = (inr tt, r1) ->
  mkdir oc folder r1 = (mk, r2) ->
  puts_ok oc folder files r2 outs r3 ->
  exists earlier o,
    outs = earlier ++ [o] /\
    upload_files_to_owncloud owncloud_Client files user pw folder (start r0) =
    (inr o,
     {| outside := r3;
        trace := [ELogin endpoint user pw (inr tt); EMkdir endpoint folder mk]
                 ++ ok_events folder files outs |}) /\
    forall x, In x files ->
      OsPath.is_basename x (snd (OsPath.split x)) /\
      forall res : Err + Out, put_events folder x res =
        [EPrint ("uploading " ++ snd (OsPath.split x) ++ " to "
                 ++ folder ++ "/" ++ snd (OsPath.split x));
         EPut endpoint (folder ++ "/" ++ snd (OsPath.split x)) x res].
Proof.
  intros Hne Hl Hm Hp.
  assert (Hlen := puts_ok_length _ _ _ _ _ Hp).
  destruct (exists_last (l := outs)) as (earlier & o & Houts).
  { destruct outs; [destruct files; [congruence | discriminate] | discriminate]. }
  exists earlier, o. split; [exact Houts|]. split.
  - rewrite (upload_after_login _ _ _ _ _ _ _ _ Hl Hm).
    unfold Eff.bind. erewrite loop_all_ok by eassumption.
    rewrite Houts at 1. rewrite acc_after_last. reflexivity.
  - intros x _. split; [apply OsPathFacts.split_tail_is_basename | reflexivity].
Qed.

(** C9. When the login raises, the function raises that exception and has
    done nothing else: the log holds the failed login alone, hence no
    [mkdir] and no put. *)
Theorem upload_login_failure_aborts
    files user pw folder r0 e r1 :
  login oc user pw r0 = (inl e, r1) ->
  upload_files_to_owncloud owncloud_Client files user pw folder (start r0) =
  (inl (ClientError e),
   {| outside := r1; trace := [ELogin endpoint user pw (inl e)] |}) /\
  existsb is_put
    (trace (snd (upload_files_to_owncloud owncloud_Client files user pw folder (start r0))))
  = false.
Proof.
  intros Hl.
  assert (H : upload_files_to_owncloud owncloud_Client files user pw folder (start r0) =
              (inl (ClientError e),
               {| outside := r1; trace := [ELogin endpoint user pw (inl e)] |})).
  { unfold upload_files_to_owncloud. unfold Eff.bind at 1. unfold call at 1.
    fold oc. simpl. rewrite Hl. reflexivity. }
  split; [exact H | rewrite H; reflexivity].
Qed.

(** C10. With an empty list of files (and a login that goes through), the
    function logs in, attempts the [mkdir] (whose answer, error or not, is
    ignored), puts nothing, and raises [UnboundLocalError] for the local
    variable [result] at its [return]: it does not return a value and the
    error is none of the client's. *)
Theorem upload_empty_list_unbound_result
    user pw folder r0 r1 mk r2 :
  login oc user pw r0 = (inr tt, r1) ->
  mkdir oc folder r1 = (mk, r2) ->
  upload_files_to_owncloud owncloud_Client [] user pw folder (start r0) =
  (inl (UnboundLocalError "result"),
   {| outside := r2;
      trace := [ELogin endpoint user pw (inr tt); EMkdir endpoint folder mk] |}).
Proof.
  intros Hl Hm.
  rewrite (upload_after_login _ _ _ _ _ _ _ _ Hl Hm). reflexivity.
Qed.

End Client.

(** *** The theorems at work on the demonstration endpoint *)

Lemma demo_puts_one r :
  puts_ok (DemoCloud.client endpoint) "pfp-data" ["/data/a.json"] r
    [S (length (DemoCloud.objects r))]
    {| DemoCloud.collections := DemoCloud.collections r;
       DemoCloud.objects := DemoCloud.objects r ++ [("pfp-data/a.json", "/data/a.json")] |}.
Proof.
  econstructor; [|constructor]. cbn. unfold DemoCloud.put_file. cbn.
  rewrite length_app, Nat.add_comm. reflexivity.
Qed.

Lemma upload_put_failure_aborts_batch_witness :
  Upload.upload_files_to_owncloud DemoCloud.client DemoCloud.three_files
    "alice" "s3cret" "pfp-data" (start DemoCloud.empty) =
  (inl (ClientError (DemoCloud.HTTPResponseError 423)),
   {| outside := {| DemoCloud.collections := ["pfp-data"];
                    DemoCloud.objects := [("pfp-data/a.json", "/data/a.json")] |};
      trace := [ELogin endpoint "alice" "s3cret" (inr tt);
                EMkdir endpoint "pfp-data" (inr true);
                EPrint "uploading a.json to pfp-data/a.json";
                EPut endpoint "pfp-data/a.json" "/data/a.json" (inr 1%nat);
                EPrint "uploading locked.bin to pfp-data/locked.bin";
                EPut endpoint "pfp-data/locked.bin" "/data/locked.bin"
                  (inl (DemoCloud.HTTPResponseError 423))] |}).
Proof.
  apply (upload_put_failure_aborts_batch _ _ _ DemoCloud.client
           ["/data/a.json"] "/data/locked.bin" ["/data/c.json"]
           "alice" "s3cret" "pfp-data"
           DemoCloud.empty DemoCloud.empty (inr true) DemoCloud.with_folder
           [1%nat]
           {| DemoCloud.collections := ["pfp-data"];
              DemoCloud.objects := [("pfp-data/a.json", "/data/a.json")] |}
           (DemoCloud.HTTPResponseError 423)
           {| DemoCloud.collections := ["pfp-data"];
              DemoCloud.objects := [("pfp-data/a.json", "/data/a.json")] |}).
  - reflexivity.
  - reflexivity.
  - apply (demo_puts_one DemoCloud.with_folder).
  - reflexivity.
Defined.

Lemma upload_mkdir_failure_suppressed_witness :
  DemoCloud.mkdir "pfp-data" DemoCloud.with_folder
    = (inl (DemoCloud.HTTPResponseError 405), DemoCloud.with_folder) /\
  fst (Upload.upload_files_to_owncloud DemoCloud.client ["/data/a.json"]
         "alice" "s3cret" "pfp-data" (start DemoCloud.with_folder)) = inr 1%nat.
Proof.
  split; [reflexivity|].
  apply (proj2 (upload_mkdir_failure_suppressed _ _ _ DemoCloud.client
           ["/data/a.json"] "alice" "s3cret" "pfp-data"
           DemoCloud.with_folder DemoCloud.with_folder
           (DemoCloud.HTTPResponseError 405) DemoCloud.with_folder
           eq_refl eq_refl) [] 1%nat
           {| DemoCloud.collections := ["pfp-data"];
              DemoCloud.objects := [("pfp-data/a.json", "/data/a.json")] |}).
  apply (demo_puts_one DemoCloud.with_folder).
Defined.

Lemma demo_puts_two :
  puts_ok (DemoCloud.client endpoint) "pfp-data" ["/data/a.json"; "/srv/x/c.json"]
    DemoCloud.with_folder [1%nat; 2%nat]
    {| DemoCloud.collections := ["pfp-data"];
       DemoCloud.objects := [("pfp-data/a.json", "/data/a.json");
                             ("pfp-data/c.json", "/srv/x/c.json")] |}.
Proof. econstructor; [reflexivity|]. econstructor; [reflexivity|]. constructor. Qed.

Lemma upload_returns_last_outcome_witness :
  exists earlier o,
    [1%nat; 2%nat] = earlier ++ [o] /\
    Upload.upload_files_to_owncloud DemoCloud.client ["/data/a.json"; "/srv/x/c.json"]
      "alice" "s3cret" "pfp-data" (start DemoCloud.empty) =
    (inr o,
     {| outside := {| DemoCloud.collections := ["pfp-data"];
                      DemoCloud.objects := [("pfp-data/a.json", "/data/a.json");
                                            ("pfp-data/c.json", "/srv/x/c.json")] |};
        trace := [ELogin endpoint "alice" "s3cret" (inr tt);
                  EMkdir endpoint "pfp-data" (inr true)]
                 ++ ok_events "pfp-data" ["/data/a.json"; "/srv/x/c.json"] [1%nat; 2%nat] |}).
Proof.
  destruct (upload_returns_last_outcome _ _ _ DemoCloud.client
              ["/data/a.json"; "/srv/x/c.json"] "alice" "s3cret" "pfp-data"
              DemoCloud.empty DemoCloud.empty (inr true) DemoCloud.with_folder
              [1%nat; 2%nat]
              {| DemoCloud.collections := ["pfp-data"];
                 DemoCloud.objects := [("pfp-data/a.json", "/data/a.json");
                                       ("pfp-data/c.json", "/srv/x/c.json")] |}
              ltac:(discriminate) eq_refl eq_refl demo_puts_two)
    as (earlier & o & H1 & H2 & _).
  exists earlier, o. split; assumption.
Defined.

Lemma upload_login_failure_aborts_witness :
  Upload.upload_files_to_owncloud DemoCloud.client DemoCloud.three_files
    "alice" "guess" "pfp-data" (start DemoCloud.empty) =
  (inl (ClientError DemoCloud.AuthFailed),
   {| outside := DemoCloud.empty;
      trace := [ELogin endpoint "alice" "guess" (inl DemoCloud.AuthFailed)] |}).
Proof.
  apply (proj1 (upload_login_failure_aborts _ _ _ DemoCloud.client DemoCloud.three_files
                  "alice" "guess" "pfp-data" DemoCloud.empty DemoCloud.AuthFailed
                  DemoCloud.empty eq_refl)).
Defined.

Lemma upload_empty_list_unbound_result_witness :
  Upload.upload_files_to_owncloud DemoCloud.client []
    "alice" "s3cret" "pfp-data" (start DemoCloud.with_folder) =
  (inl (UnboundLocalError "result"),
   {| outside := DemoCloud.with_folder;
      trace := [ELogin endpoint "alice" "s3cret" (inr tt);
                EMkdir endpoint "pfp-data" (inl (DemoCloud.HTTPResponseError 405))] |}).
Proof.
  apply (upload_empty_list_unbound_result _ _ _ DemoCloud.client
           "alice" "s3cret" "pfp-data"
           DemoCloud.with_folder DemoCloud.with_folder
           (inl (DemoCloud.HTTPResponseError 405)) DemoCloud.with_folder
           eq_refl eq_refl).
Defined.

End UploadFacts.

(** ** Reading plain tables *)

Module PandasCsvFacts.
Import PandasCsv.

Lemma name_char_not_comma c : name_char c = true -> Ascii.eqb c comma = false.
Proof. destruct c as [[] [] [] [] [] [] [] []]; vm_compute; congruence. Qed.

Lemma name_char_not_line_feed c : name_char c = true -> Ascii.eqb c line_feed = false.
Proof. destruct c as [[] [] [] [] [] [] [] []]; vm_compute; congruence. Qed.

Lemma all_chars_app p a b :
  all_chars p (a ++ b) = all_chars p a && all_chars p b.
Proof. induction a as [|c a IH]; simpl; [reflexivity|]. rewrite IH, andb_assoc. reflexivity. Qed.

Lemma all_chars_weaken (p q : ascii -> bool) s :
  (forall c, p c = true -> q c = true) -> all_chars p s = true -> all_chars q s = true.
Proof.
  intros Hpq. induction s as [|c s IH]; simpl; [reflexivity|].
  intros H. apply andb_true_iff in H as [Hc Hs]. rewrite (Hpq _ Hc), (IH Hs). reflexivity.
Qed.

Lemma split_on_free sep s :
  all_chars (fun c => negb (Ascii.eqb c sep)) s = true -> split_on sep s = [s].
Proof.
  induction s as [|c s IH]; simpl; [reflexivity|].
  intros H. apply andb_true_iff in H as [Hc Hs].
  apply negb_true_iff in Hc. rewrite Hc, (IH Hs). reflexivity.
Qed.

Lemma split_on_cons sep a b :
  all_chars (fun c => negb (Ascii.eqb c sep)) a = true ->
  split_on sep (a ++ String sep b) = a :: split_on sep b.
Proof.
  induction a as [|c a IH]; simpl.
  - intros _. rewrite Ascii.eqb_refl. reflexivity.
  - intros H. apply andb_true_iff in H as [Hc Ha].
    apply negb_true_iff in Hc. rewrite Hc, (IH Ha). reflexivity.
Qed.

Lemma column_name_no_comma n :
  column_name n = true -> all_chars (fun c => negb (Ascii.eqb c comma)) n = true.
Proof.
  unfold column_name. intros H. apply andb_true_iff in H as [_ H].
  revert H. apply all_chars_weaken. intros c Hc.
  rewrite (name_char_not_comma _ Hc). reflexivity.
Qed.

(** Cutting a header line at its commas gives the names back. *)
Lemma split_header_line names :
  names <> [] -> forallb column_name names = true ->
  split_on comma (header_line names) = names.
Proof.
  unfold header_line.
  induction names as [|n names IH]; [congruence|].
  intros _ H. simpl in H. apply andb_true_iff in H as [Hn Hs].
  destruct names as [|m names].
  - simpl. apply split_on_free, column_name_no_comma, Hn.
  - change (String.concat "," (n :: m :: names))
      with (n ++ String comma (String.concat "," (m :: names)))%string.
    rewrite split_on_cons by (apply column_name_no_comma, Hn).
    rewrite IH; [reflexivity | discriminate | exact Hs].
Qed.

Lemma header_line_plain names :
  forallb column_name names = true ->
  all_chars (fun c => name_char c || Ascii.eqb c comma) (header_line names) = true.
Proof.
  unfold header_line.
  induction names as [|n names IH]; [reflexivity|].
  intros H. simpl in H. apply andb_true_iff in H as [Hn Hs].
  assert (Hn' : all_chars (fun c => name_char c || Ascii.eqb c comma) n = true).
  { unfold column_name in Hn. apply andb_true_iff in Hn as [_ Hn].
    revert Hn. apply all_chars_weaken. intros c Hc. rewrite Hc. reflexivity. }
  destruct names as [|m names]; [exact Hn'|].
  change (String.concat "," (n :: m :: names))
    with (n ++ String comma (String.concat "," (m :: names)))%string.
  rewrite all_chars_app, Hn'.
  change (all_chars ?p (String comma ?x)) with (p comma && all_chars p x).
  rewrite (IH Hs). reflexivity.
Qed.

Lemma header_line_not_blank names :
  names <> [] -> forallb column_name names = true ->
  is_blank (header_line names) = false.
Proof.
  unfold header_line. destruct names as [|n names]; [congruence|].
  intros _ H. simpl in H. apply andb_true_iff in H as [Hn _].
  unfold column_name in Hn. apply andb_true_iff in Hn as [Hn _].
  destruct n; [discriminate|]. destruct names; reflexivity.
Qed.

Lemma forallb_column_name_not_blank names :
  forallb column_name names = true ->
  forallb (fun n => negb (is_blank n)) names = true.
Proof.
  induction names as [|n names IH]; simpl; [reflexivity|].
  intros H. apply andb_true_iff in H as [Hn Hs].
  unfold column_name in Hn. apply andb_true_iff in Hn as [Hn _].
  rewrite Hn, (IH Hs). reflexivity.
Qed.

(** The records of a body made of a header line and at most a line feed. *)
Lemma records_header_only names (terminated : bool) :
  names <> [] -> forallb column_name names = true ->
  let data := (header_line names
               ++ if terminated then String line_feed EmptyString else EmptyString)%string in
  plain data = true /\ records data = [names].
Proof.
  intros Hne Hnames data.
  assert (Hfree : all_chars (fun c => negb (Ascii.eqb c line_feed)) (header_line names) = true).
  { generalize (header_line_plain names Hnames). apply all_chars_weaken.
    intros c Hc. apply orb_true_iff in Hc as [Hc | Hc].
    - rewrite (name_char_not_line_feed _ Hc). reflexivity.
    - apply Ascii.eqb_eq in Hc. subst c. reflexivity. }
  assert (Hpl : plain (header_line names) = true).
  { generalize (header_line_plain names Hnames). apply all_chars_weaken.
    intros c Hc. rewrite Hc. reflexivity. }
  pose proof (header_line_not_blank names Hne Hnames) as Hnb.
  pose proof (split_header_line names Hne Hnames) as Hsplit.
  subst data. unfold records, plain in *. destruct terminated.
  - split.
    + rewrite all_chars_app, Hpl. reflexivity.
    + rewrite split_on_cons by exact Hfree. simpl. rewrite Hnb. simpl.
      rewrite Hsplit. reflexivity.
  - assert (E : (header_line names ++ "")%string = header_line names).
    { clear. induction (header_line names); simpl; congruence. }
    rewrite E. split; [exact Hpl|].
    rewrite split_on_free by exact Hfree. simpl. rewrite Hnb. simpl.
    rewrite Hsplit. reflexivity.
Qed.

Lemma read_csv_header_only names (terminated : bool) :
  names <> [] -> forallb column_name names = true -> distinct names = true ->
  read_csv (header_only names terminated)
  = Some (inr {| columns := names; rows := [] |}).
Proof.
  intros Hne Hnames Hd.
  destruct (records_header_only names terminated Hne Hnames) as [Hp Hr].
  unfold read_csv, header_only. rewrite Hp, Hr.
  rewrite (forallb_column_name_not_blank _ Hnames), Hd. reflexivity.
Qed.

Lemma demo_reads_plain_tables : reads_plain_tables demo_read_csv.
Proof. intros data r H. unfold demo_read_csv. rewrite H. reflexivity. Qed.

End PandasCsvFacts.

(** ** Fetching a sheet *)

Module GsheetFacts.
Import Gsheet.

Section Http.
Variables Net ReqErr : Type.
Variable requests_get : string -> Net -> (ReqErr + Response) * Net.
Variable pd_read_csv : PandasCsv.bytes -> PandasCsv.exn + PandasCsv.DataFrame.

Let fetch := gsheet_to_df requests_get pd_read_csv.

Lemma fetch_answered sheet_id n r n' :
  requests_get (sheet_url sheet_id) n = (inr r, n') ->
  fetch sheet_id (start n) =
  (outcome (pd_read_csv (content r)),
   {| net := n';
      trace := [EGet (sheet_url sheet_id) (inr r); EPrint (status_code r)] |}).
Proof.
  intros H. unfold fetch, gsheet_to_df, Eff.bind, get, print, read_csv.
  change (GDRIVE_BASE_URL ++ sheet_id ++ "&output=csv")%string with (sheet_url sheet_id).
  simpl. rewrite H. simpl.
  destruct (pd_read_csv (content r)); reflexivity.
Qed.

Lemma fetch_unanswered sheet_id n e n' :
  requests_get (sheet_url sheet_id) n = (inl e, n') ->
  fetch sheet_id (start n) =
  (inl (RequestException e),
   {| net := n'; trace := [EGet (sheet_url sheet_id) (inl e)] |}).
Proof.
  intros H. unfold fetch, gsheet_to_df, Eff.bind, get.
  change (GDRIVE_BASE_URL ++ sheet_id ++ "&output=csv")%string with (sheet_url sheet_id).
  simpl. rewrite H. reflexivity.
Qed.

(** C5. Whatever the sheet identifier and the state of the network, the
    function sends exactly one GET, to the fixed base followed by the
    identifier and [&output=csv]; and when the server answers, with whatever
    status, the result is what the CSV reader makes of the body: the status
    is printed and plays no other part. *)
Theorem gsheet_one_get_status_unchecked sheet_id n :
  filter is_get (trace (snd (fetch sheet_id (start n)))) =
    [EGet (sheet_url sheet_id) (fst (requests_get (sheet_url sheet_id) n))] /\
  forall r n',
    requests_get (sheet_url sheet_id) n = (inr r, n') ->
    fetch sheet_id (start n) =
    (outcome (pd_read_csv (content r)),
     {| net := n';
        trace := [EGet (sheet_url sheet_id) (inr r); EPrint (status_code r)] |}).
Proof.
  split.
  - destruct (requests_get (sheet_url sheet_id) n) as [[e | r] n'] eqn:H.
    + rewrite (fetch_unanswered _ _ _ _ H). reflexivity.
    + rewrite (fetch_answered _ _ _ _ H). reflexivity.
  - intros r n' H. apply fetch_answered, H.
Qed.

Hypothesis pandas : PandasCsv.reads_plain_tables pd_read_csv.

(** C6. For the body of a header line [a,b] and the two lines [1,2] and
    [3,4], the result has the columns [a] and [b], taken from the first
    line, and exactly two rows in the order of the body: [a] 1, [b] 2, then
    [a] 3, [b] 4. *)
Theorem gsheet_two_rows sheet_id n r n' :
  requests_get (sheet_url sheet_id) n = (inr r, n') ->
  content r = DemoWeb.two_rows ->
  let df := {| PandasCsv.columns := ["a"; "b"];
               PandasCsv.rows := [[PandasCsv.Int64 1; PandasCsv.Int64 2];
                                  [PandasCsv.Int64 3; PandasCsv.Int64 4]] |} in
  fst (fetch sheet_id (start n)) = inr df /\
  PandasCsv.columns df = hd [] (PandasCsv.records (content r)) /\
  map (PandasCsv.row_items df) (PandasCsv.rows df) =
    [[("a", PandasCsv.Int64 1); ("b", PandasCsv.Int64 2)];
     [("a", PandasCsv.Int64 3); ("b", PandasCsv.Int64 4)]].
Proof.
  intros H Hc df. rewrite (fetch_answered _ _ _ _ H), Hc. simpl.
  rewrite (pandas DemoWeb.two_rows (inr df)) by reflexivity.
  repeat split; reflexivity.
Qed.


End Http.

(** *** On the demonstration web *)

Lemma gsheet_one_get_status_unchecked_witness :
  DemoWeb.fetch "missing" (start 0%nat) =
  (inr {| PandasCsv.columns := ["Not_Found"]; PandasCsv.rows := [] |},
   {| net := 1%nat;
      trace := [EGet (sheet_url "missing")
                  (inr {| status_code := 404; content := "Not_Found" |});
                EPrint 404] |}).
Proof.
  apply (proj2 (gsheet_one_get_status_unchecked nat DemoWeb.err
                  DemoWeb.requests_get PandasCsv.demo_read_csv "missing" 0%nat)
               {| status_code := 404; content := "Not_Found" |} 1%nat).
  reflexivity.
Defined.

Lemma gsheet_two_rows_witness :
  fst (DemoWeb.fetch "two" (start 0%nat)) =
  inr {| PandasCsv.columns := ["a"; "b"];
         PandasCsv.rows := [[PandasCsv.Int64 1; PandasCsv.Int64 2];
                            [PandasCsv.Int64 3; PandasCsv.Int64 4]] |}.
Proof.
  apply (gsheet_two_rows nat DemoWeb.err DemoWeb.requests_get PandasCsv.demo_read_csv
           PandasCsvFacts.demo_reads_plain_tables "two" 0%nat
           {| status_code := 200; content := DemoWeb.two_rows |} 1%nat
           eq_refl eq_refl).
Defined.



End GsheetFacts.

(** ** The decoder against the grammar: tokens *)

Module JsonLexFacts.
Import Json JsonGrammar.

Local Open Scope N_scope.

Lemma WS_nil : WS [].
Proof. reflexivity. Qed.

Lemma WS_cons c w : WS (c :: w) <-> is_ws c = true /\ WS w.
Proof. unfold WS. simpl. apply andb_true_iff. Qed.

Lemma WS_app w1 w2 : WS w1 -> WS w2 -> WS (w1 ++ w2).
Proof. unfold WS. intros H1 H2. rewrite forallb_app, H1, H2. reflexivity. Qed.

Lemma skip_ws_app w s : WS w -> skip_ws (w ++ s) = skip_ws s.
Proof.
  induction w as [|c w IH]; simpl; [reflexivity|].
  intros H. apply WS_cons in H as [Hc Hw]. rewrite Hc. apply IH, Hw.
Qed.

Lemma skip_ws_stay c s : is_ws c = false -> skip_ws (c :: s) = c :: s.
Proof. intros H. simpl. rewrite H. reflexivity. Qed.

Lemma skip_ws_through w c s :
  WS w -> is_ws c = false -> skip_ws (w ++ c :: s) = c :: s.
Proof. intros Hw Hc. rewrite skip_ws_app by exact Hw. apply skip_ws_stay, Hc. Qed.

(** What [skip_ws] drops is whitespace, and it stops at a character that
    is none. *)
Lemma skip_ws_spec s :
  exists w, s = w ++ skip_ws s /\ WS w /\
    match skip_ws s with c :: _ => is_ws c = false | [] => True end.
Proof.
  induction s as [|c s (w & Hs & Hw & Hh)]; simpl.
  - exists []. repeat split.
  - destruct (is_ws c) eqn:Hc.
    + exists (c :: w). split; [simpl; f_equal; exact Hs|]. split; [|exact Hh].
      apply WS_cons. split; assumption.
    + exists []. repeat split. exact Hc.
Qed.

Lemma skip_ws_length s : (length (skip_ws s) <= length s)%nat.
Proof.
  induction s as [|c s IH]; simpl; [lia|]. destruct (is_ws c); simpl; lia.
Qed.

Lemma strip_prefix_app p s : strip_prefix p (p ++ s) = Some s.
Proof.
  induction p as [|a p IH]; simpl; [reflexivity|].
  rewrite N.eqb_refl. exact IH.
Qed.

Lemma strip_prefix_sound p : forall s r, strip_prefix p s = Some r -> s = p ++ r.
Proof.
  induction p as [|a p IH]; intros s r H.
  - simpl in *. congruence.
  - destruct s as [|b s]; simpl in H; [discriminate|].
    destruct (N.eqb_spec a b); [|discriminate]. subst b.
    simpl. f_equal. apply IH, H.
Qed.

(** *** Digits *)

Lemma span_digits_sound : forall s d r,
  span_digits s = (d, r) ->
  s = d ++ r /\ forallb is_digit d = true /\ no_digit_ahead r.
Proof.
  induction s as [|c s IH]; intros d r H; simpl in H.
  - inversion H; subst. repeat split.
  - destruct (is_digit c) eqn:Hc.
    + destruct (span_digits s) as [d' r'] eqn:Hs. inversion H; subst.
      destruct (IH _ _ eq_refl) as (E & Hd & Hr). subst s.
      split; [reflexivity|].
      split; [simpl; rewrite Hc, Hd; reflexivity | exact Hr].
    + inversion H; subst. repeat split. exact Hc.
Qed.

Lemma span_digits_complete d r :
  forallb is_digit d = true -> no_digit_ahead r -> span_digits (d ++ r) = (d, r).
Proof.
  intros Hd Hr. induction d as [|c d IH]; simpl.
  - destruct r as [|c r]; [reflexivity|]. simpl in *. rewrite Hr. reflexivity.
  - simpl in Hd. apply andb_true_iff in Hd as [Hc Hd].
    rewrite Hc, (IH Hd). reflexivity.
Qed.

Lemma span_digits_length s d r :
  span_digits s = (d, r) -> (length r <= length s)%nat.
Proof.
  intros H. apply span_digits_sound in H as (E & _). subst s.
  rewrite length_app. lia.
Qed.

End JsonLexFacts.

(** ** The decoder against the grammar: numbers *)

Module JsonNumberFacts.
Import Json JsonGrammar JsonLexFacts.

Local Open Scope N_scope.

(** Facts about single characters are arithmetic on their codes. *)
Ltac chars :=
  unfold number_ends, no_digit_ahead, is_digit, is_e, is_sign, is_ws,
    c_quote, c_backslash, c_slash, c_comma, c_colon, c_lbracket, c_rbracket,
    c_lbrace, c_rbrace, c_minus, c_plus, c_dot, c_zero, c_u, c_bom in *;
  repeat rewrite ?andb_true_iff, ?orb_true_iff, ?andb_false_iff, ?orb_false_iff,
    ?N.eqb_eq, ?N.eqb_neq, ?N.leb_le, ?N.leb_gt, ?N.ltb_lt, ?N.ltb_ge in *;
  try lia.

Lemma match_unsigned_sound sign s1 i r :
  match_unsigned sign s1 = Some (i, r) ->
  exists u, i = sign ++ u /\ s1 = u ++ r /\ Unsigned u.
Proof.
  unfold match_unsigned. intros H. destruct s1 as [|c s2]; [discriminate|].
  destruct (N.eqb_spec c c_zero).
  - inversion H; subst. exists [c_zero]. repeat split. constructor.
  - destruct (is_digit c) eqn:Hc; [|discriminate].
    destruct (span_digits s2) as [d r'] eqn:Hs. inversion H; subst.
    apply span_digits_sound in Hs as (E & Hd & _). subst s2.
    exists (c :: d). repeat split. constructor; assumption.
Qed.

Lemma match_unsigned_complete sign u r :
  Unsigned u -> no_digit_ahead r -> match_unsigned sign (u ++ r) = Some (sign ++ u, r).
Proof.
  intros Hu Hr. unfold match_unsigned. destruct Hu as [|c d Hc Hz Hd]; simpl.
  - reflexivity.
  - destruct (N.eqb_spec c c_zero); [contradiction|]. rewrite Hc.
    rewrite span_digits_complete by assumption. reflexivity.
Qed.

Lemma match_integer_sound s i r :
  match_integer s = Some (i, r) -> s = i ++ r /\ IntLit i.
Proof.
  unfold match_integer. intros H. destruct s as [|c s']; [discriminate|].
  destruct (N.eqb_spec c c_minus).
  - subst c. apply match_unsigned_sound in H as (u & Ei & Es & Hu). subst.
    split; [reflexivity|]. apply IL_minus, Hu.
  - apply match_unsigned_sound in H as (u & Ei & Es & Hu). simpl in Ei. subst i.
    split; [exact Es|]. apply IL_plain, Hu.
Qed.

Lemma match_integer_complete i r :
  IntLit i -> no_digit_ahead r -> match_integer (i ++ r) = Some (i, r).
Proof.
  intros Hi Hr. unfold match_integer. destruct Hi as [u Hu | u Hu].
  - destruct u as [|c u']; [inversion Hu|]. simpl.
    assert (Hm : (c =? c_minus) = false) by (inversion Hu; subst; chars).
    rewrite Hm. apply (match_unsigned_complete [] (c :: u') r Hu Hr).
  - simpl. apply (match_unsigned_complete [c_minus] u r Hu Hr).
Qed.

Lemma match_frac_sound s f r : match_frac s = (f, r) -> s = f ++ r /\ Frac f.
Proof.
  unfold match_frac. intros H. destruct s as [|c s1].
  - inversion H; subst. split; [reflexivity | constructor].
  - destruct (N.eqb_spec c c_dot).
    + subst c. destruct (span_digits s1) as [d r'] eqn:Hs.
      destruct d as [|d0 d]; inversion H; subst.
      * split; [reflexivity | constructor].
      * apply span_digits_sound in Hs as (E & Hd & _). subst s1.
        split; [reflexivity|]. constructor. split; [discriminate | exact Hd].
    + inversion H; subst. split; [reflexivity | constructor].
Qed.

Lemma match_frac_none r :
  match r with c :: _ => c <> c_dot | [] => True end -> match_frac r = ([], r).
Proof.
  intros H. destruct r as [|c r]; [reflexivity|]. simpl.
  destruct (N.eqb_spec c c_dot); [contradiction | reflexivity].
Qed.

Lemma match_frac_complete f r :
  Frac f -> f <> [] -> no_digit_ahead r -> match_frac (f ++ r) = (f, r).
Proof.
  intros Hf Hne Hr. destruct Hf as [|d [Hd1 Hd2]]; [congruence|].
  simpl. rewrite span_digits_complete by assumption.
  destruct d; [congruence | reflexivity].
Qed.

Lemma match_exp_sound s e r : match_exp s = (e, r) -> s = e ++ r /\ Exp e.
Proof.
  unfold match_exp. intros H. destruct s as [|c s1].
  - inversion H; subst. split; [reflexivity | constructor].
  - destruct (is_e c) eqn:Hc.
    + destruct s1 as [|c2 s2].
      * simpl in H. inversion H; subst. split; [reflexivity | constructor].
      * destruct (is_sign c2) eqn:Hs.
        -- destruct (span_digits s2) as [d r'] eqn:Hd.
           destruct d as [|d0 d]; inversion H; subst.
           ++ split; [reflexivity | constructor].
           ++ apply span_digits_sound in Hd as (E & Hd & _). subst s2.
              split; [reflexivity|].
              apply Exp_signed; [assumption | assumption | split; [discriminate | exact Hd]].
        -- destruct (span_digits (c2 :: s2)) as [d r'] eqn:Hd.
           destruct d as [|d0 d]; inversion H; subst.
           ++ split; [reflexivity | constructor].
           ++ apply span_digits_sound in Hd as (E & Hd & _).
              split; [simpl; f_equal; exact E|].
              apply Exp_unsigned; [assumption | split; [discriminate | exact Hd]].
    + inversion H; subst. split; [reflexivity | constructor].
Qed.

Lemma match_exp_none r :
  match r with c :: _ => is_e c = false | [] => True end -> match_exp r = ([], r).
Proof.
  intros H. destruct r as [|c r]; [reflexivity|]. simpl. rewrite H. reflexivity.
Qed.

Lemma match_exp_complete e r :
  Exp e -> e <> [] -> no_digit_ahead r -> match_exp (e ++ r) = (e, r).
Proof.
  intros He Hne Hr. destruct He as [|e d He [Hd1 Hd2]|e sg d He Hsg [Hd1 Hd2]];
    [congruence| |]; simpl; rewrite He.
  - destruct d as [|d0 d]; [congruence|]. simpl.
    assert (Hs : is_sign d0 = false).
    { simpl in Hd2. apply andb_true_iff in Hd2 as [Hd0 _]. chars. }
    rewrite Hs. change (d0 :: d ++ r) with ((d0 :: d) ++ r).
    rewrite span_digits_complete by assumption. reflexivity.
  - rewrite Hsg. rewrite span_digits_complete by assumption.
    destruct d; [congruence | reflexivity].
Qed.

Lemma IntLit_head i :
  IntLit i -> exists c i', i = c :: i' /\ (is_digit c = true \/ c = c_minus).
Proof.
  intros [u Hu | u Hu].
  - destruct Hu as [|c d Hc _ _].
    + exists c_zero, []. split; [reflexivity | left; reflexivity].
    + exists c, d. split; [reflexivity | left; exact Hc].
  - exists c_minus, u. split; [reflexivity | right; reflexivity].
Qed.

Lemma scan_number_sound py s v rest :
  scan_number py s = Some (Ok (v, rest)) ->
  exists t, s = t ++ rest /\ Number py t v.
Proof.
  unfold scan_number. intros H.
  destruct (match_integer s) as [[i s1]|] eqn:Hi; [|discriminate].
  destruct (match_frac s1) as [f s2] eqn:Hf.
  destruct (match_exp s2) as [e s3] eqn:He.
  apply match_integer_sound in Hi as (E1 & Hi).
  apply match_frac_sound in Hf as (E2 & Hf).
  apply match_exp_sound in He as (E3 & He). subst s s1 s2.
  destruct f as [|f0 f].
  - destruct e as [|e0 e].
    + destruct (int_refused py i) eqn:Hr; inversion H; subst.
      exists i. split; [reflexivity | constructor; assumption].
    + inversion H; subst. exists (i ++ [] ++ e0 :: e). split; [rewrite <- !app_assoc; reflexivity|].
      constructor; auto. right. discriminate.
  - inversion H; subst.
    exists (i ++ (f0 :: f) ++ e). split; [rewrite <- !app_assoc; reflexivity|].
    constructor; auto. left. discriminate.
Qed.

Lemma Exp_head e :
  Exp e -> e = [] \/ exists c e', e = c :: e' /\ is_e c = true.
Proof. intros [| |]; [left; reflexivity | right; eauto | right; eauto]. Qed.

Lemma scan_number_complete py t v rest :
  Number py t v -> number_ends rest ->
  scan_number py (t ++ rest) = Some (Ok (v, rest)).
Proof.
  intros Hn Hr. unfold scan_number.
  destruct Hn as [i Hi Hlim | i f e Hi Hf He Hfe].
  - rewrite match_integer_complete; [|exact Hi | destruct rest; [exact I | apply Hr]].
    rewrite match_frac_none by (destruct rest; [exact I | apply Hr]).
    rewrite match_exp_none by (destruct rest; [exact I | apply Hr]).
    rewrite Hlim. reflexivity.
  - rewrite <- !app_assoc.
    assert (Hrd : no_digit_ahead rest) by (destruct rest; [exact I | apply Hr]).
    assert (Hed : no_digit_ahead (e ++ rest)).
    { destruct (Exp_head e He) as [-> | (c & e' & -> & Hc)]; [exact Hrd|]. simpl. chars. }
    assert (Hfd : no_digit_ahead (f ++ e ++ rest)).
    { destruct Hf as [|d _]; [exact Hed|]. simpl. chars. }
    rewrite match_integer_complete by assumption.
    assert (Hfrac : match_frac (f ++ e ++ rest) = (f, e ++ rest)).
    { destruct f as [|f0 f].
      - apply match_frac_none.
        destruct (Exp_head e He) as [-> | (c & e' & -> & Hc)].
        + destruct rest; [exact I | apply Hr].
        + simpl. chars.
      - apply match_frac_complete; [assumption | discriminate | assumption]. }
    rewrite Hfrac.
    assert (Hexp : match_exp (e ++ rest) = (e, rest)).
    { destruct e as [|e0 e].
      - apply match_exp_none. destruct rest; [exact I | apply Hr].
      - apply match_exp_complete; [assumption | discriminate | assumption]. }
    rewrite Hexp.
    destruct f; [destruct e; [destruct Hfe; congruence | reflexivity] | reflexivity].
Qed.

Lemma Number_head py t v :
  Number py t v -> exists c t', t = c :: t' /\ (is_digit c = true \/ c = c_minus).
Proof.
  intros [i Hi _ | i f e Hi _ _ _].
  - apply IntLit_head, Hi.
  - destruct (IntLit_head i Hi) as (c & i' & -> & Hc). exists c, (i' ++ f ++ e).
    split; [reflexivity | exact Hc].
Qed.

(** *** Scalars *)

Lemma scan_scalar_sound py d s v rest :
  scan_scalar py s = Ok (v, rest) -> exists t, s = t ++ rest /\ Value py d t v.
Proof.
  unfold scan_scalar. intros H.
  destruct (strip_prefix lit_null s) eqn:H1.
  { inversion H; subst. exists lit_null. split; [apply strip_prefix_sound, H1 | constructor]. }
  destruct (strip_prefix lit_true s) eqn:H2.
  { inversion H; subst. exists lit_true. split; [apply strip_prefix_sound, H2 | constructor]. }
  destruct (strip_prefix lit_false s) eqn:H3.
  { inversion H; subst. exists lit_false. split; [apply strip_prefix_sound, H3 | constructor]. }
  destruct (scan_number py s) as [r|] eqn:H4.
  { subst r. apply scan_number_sound in H4 as (t & E & Hn).
    exists t. split; [exact E | apply V_number, Hn]. }
  destruct (strip_prefix lit_nan s) eqn:H5.
  { inversion H; subst. exists lit_nan. split; [apply strip_prefix_sound, H5 | constructor]. }
  destruct (strip_prefix lit_inf s) eqn:H6.
  { inversion H; subst. exists lit_inf. split; [apply strip_prefix_sound, H6 | constructor]. }
  destruct (strip_prefix lit_neg_inf s) eqn:H7; [|discriminate].
  inversion H; subst. exists lit_neg_inf. split; [apply strip_prefix_sound, H7 | constructor].
Qed.

Lemma strip_prefix_mismatch p c s :
  match p with a :: _ => a <> c | [] => False end -> strip_prefix p (c :: s) = None.
Proof.
  destruct p as [|a p]; [contradiction|]. intros H. simpl.
  destruct (N.eqb_spec a c); [contradiction | reflexivity].
Qed.

Lemma scan_scalar_number py t v rest :
  Number py t v -> number_ends rest -> scan_scalar py (t ++ rest) = Ok (v, rest).
Proof.
  intros Hn Hr. unfold scan_scalar.
  destruct (Number_head py t v Hn) as (c & t' & E & Hc).
  assert (H1 : strip_prefix lit_null (t ++ rest) = None).
  { subst t. apply (strip_prefix_mismatch lit_null c). cbv. intros <-. destruct Hc; chars. }
  assert (H2 : strip_prefix lit_true (t ++ rest) = None).
  { subst t. apply (strip_prefix_mismatch lit_true c). cbv. intros <-. destruct Hc; chars. }
  assert (H3 : strip_prefix lit_false (t ++ rest) = None).
  { subst t. apply (strip_prefix_mismatch lit_false c). cbv. intros <-. destruct Hc; chars. }
  rewrite H1, H2, H3, (scan_number_complete py t v rest Hn Hr). reflexivity.
Qed.

End JsonNumberFacts.

(** ** The decoder against the grammar: strings *)

Module JsonStringFacts.
Import Json JsonGrammar JsonLexFacts JsonNumberFacts.

Local Open Scope N_scope.

Lemma backslash_not_u esc ch : backslash esc = Some ch -> (esc =? c_u) = false.
Proof.
  intros H. destruct (N.eqb_spec esc c_u); [|reflexivity]. subst esc. discriminate.
Qed.

(** After a backslash and [u] the body of a string goes on with four
    hexadecimal digits. *)
Lemma StringBody_unicode_inv x str :
  StringBody (c_backslash :: c_u :: x) str ->
  exists k1 k2 k3 k4 x' uni,
    x = k1 :: k2 :: k3 :: k4 :: x' /\ hex4 k1 k2 k3 k4 = Some uni.
Proof.
  intros H. inversion H; subst.
  - congruence.
  - match goal with Hb : backslash c_u = Some _ |- _ => discriminate Hb end.
  - eauto 10.
  - eauto 10.
Qed.

Ltac after_backslash :=
  cbn [app scanstring];
  change (c_backslash =? c_quote) with false;
  change (c_backslash =? c_backslash) with true;
  cbv iota.

Lemma scanstring_complete src str :
  StringBody src str -> forall rest, scanstring (src ++ c_quote :: rest) = Ok (str, rest).
Proof.
  induction 1 as [ | c src str Hq Hb Hc _ IH | esc ch src str He _ IH
                 | h1 h2 h3 h4 uni src str Hh Hnp Hs IH
                 | h1 h2 h3 h4 hi lo pair src str Hh Hhi Hlo _ IH ]; intros rest.
  - reflexivity.
  - cbn [app scanstring].
    destruct (N.eqb_spec c c_quote); [contradiction|].
    destruct (N.eqb_spec c c_backslash); [contradiction|].
    destruct (N.ltb_spec c 32); [lia|].
    rewrite IH. reflexivity.
  - after_backslash. rewrite (backslash_not_u _ _ He), He, IH. reflexivity.
  - after_backslash. rewrite N.eqb_refl, Hh, IH. cbn [res_bind].
    destruct (is_high_surrogate uni) eqn:Hhigh; [|reflexivity].
    destruct src as [|b [|u src2]].
    { cbn [app]. destruct rest as [|u r]; [reflexivity|].
      change (c_quote =? c_backslash) with false. reflexivity. }
    { cbn [app]. change (c_quote =? c_u) with false.
      rewrite andb_false_r. reflexivity. }
    cbn [app].
    destruct (N.eqb_spec b c_backslash); [|reflexivity].
    destruct (N.eqb_spec u c_u); [|reflexivity]. subst b u. cbn [andb].
    destruct (StringBody_unicode_inv _ _ Hs) as (k1 & k2 & k3 & k4 & x' & uni2 & E & Hk).
    subst src2. cbn [app]. rewrite Hk.
    destruct (is_low_surrogate uni2) eqn:Hlow; [|reflexivity].
    exfalso. apply Hnp. split; [reflexivity|].
    exists uni2, x', k1, k2, k3, k4. repeat split; assumption.
  - destruct Hlo as (k1 & k2 & k3 & k4 & E & Hk & Hlow). subst pair.
    after_backslash. rewrite N.eqb_refl, Hh, Hhi.
    rewrite ?N.eqb_refl. cbn [andb]. rewrite Hk, Hlow, IH. reflexivity.
Qed.

Lemma scanstring_sound_aux n : forall s str rest,
  (length s <= n)%nat ->
  scanstring s = Ok (str, rest) ->
  exists src, s = src ++ c_quote :: rest /\ StringBody src str.
Proof.
  induction n as [|n IH]; intros s str rest Hlen H.
  - destruct s; [discriminate | simpl in Hlen; lia].
  - destruct s as [|c s1]; [discriminate|]. simpl in Hlen.
    cbn [scanstring] in H.
    destruct (N.eqb_spec c c_quote).
    { inversion H; subst. exists []. split; [reflexivity | constructor]. }
    destruct (N.eqb_spec c c_backslash).
    2:{ destruct (N.ltb_spec c 32); [discriminate|].
        destruct (scanstring s1) as [[str' rest']| | | |] eqn:Hs; try discriminate.
        inversion H; subst.
        destruct (IH s1 str' rest ltac:(lia) Hs) as (src & E & Hb). subst s1.
        exists (c :: src). split; [reflexivity | constructor; assumption]. }
    subst c. destruct s1 as [|esc s2]; [discriminate|].
    destruct (N.eqb_spec esc c_u).
    2:{ destruct (backslash esc) as [ch|] eqn:He; [|discriminate].
        destruct (scanstring s2) as [[str' rest']| | | |] eqn:Hs; try discriminate.
        inversion H; subst. simpl in Hlen.
        destruct (IH s2 str' rest ltac:(lia) Hs) as (src & E & Hb). subst s2.
        exists (c_backslash :: esc :: src). split; [reflexivity|].
        apply SB_escape; assumption. }
    subst esc. destruct s2 as [|h1 [|h2 [|h3 [|h4 s3]]]]; try discriminate.
    destruct (hex4 h1 h2 h3 h4) as [uni|] eqn:Hh; [|discriminate].
    simpl in Hlen.
    (* the escape taken on its own *)
    assert (Single : forall str' ,
      res_bind (scanstring s3) (fun '(str0, rest0) => Ok (uni :: str0, rest0)) = Ok (str', rest) ->
      ~ (is_high_surrogate uni = true /\ exists lo r, low_escape s3 lo r) ->
      exists src, c_backslash :: c_u :: h1 :: h2 :: h3 :: h4 :: s3 = src ++ c_quote :: rest
                  /\ StringBody src str').
    { intros str' Hr Hnp.
      destruct (scanstring s3) as [[str0 rest0]| | | |] eqn:Hs; try discriminate.
      inversion Hr; subst.
      destruct (IH s3 str0 rest ltac:(lia) Hs) as (src & E & Hb). subst s3.
      exists (c_backslash :: c_u :: h1 :: h2 :: h3 :: h4 :: src).
      split; [reflexivity|]. apply SB_unicode; [assumption | | assumption].
      intros (Hhi & lo & r & Hlow). apply Hnp. split; [exact Hhi|].
      destruct Hlow as (k1 & k2 & k3 & k4 & E & Hk & Hl). subst src.
      exists lo, (r ++ c_quote :: rest), k1, k2, k3, k4. repeat split; assumption. }
    destruct (is_high_surrogate uni) eqn:Hhi.
    2:{ apply Single; [exact H|]. intros [? _]. discriminate. }
    destruct s3 as [|b [|u s4]].
    { apply Single; [exact H|]. intros (_ & lo & r & k1 & k2 & k3 & k4 & E & _). discriminate. }
    { apply Single; [exact H|]. intros (_ & lo & r & k1 & k2 & k3 & k4 & E & _). discriminate. }
    destruct (N.eqb_spec b c_backslash); cbn [andb] in H.
    2:{ apply Single; [exact H|].
        intros (_ & lo & r & k1 & k2 & k3 & k4 & E & _). congruence. }
    destruct (N.eqb_spec u c_u).
    2:{ apply Single; [exact H|].
        intros (_ & lo & r & k1 & k2 & k3 & k4 & E & _). congruence. }
    subst b u. destruct s4 as [|k1 [|k2 [|k3 [|k4 s5]]]]; try discriminate.
    destruct (hex4 k1 k2 k3 k4) as [uni2|] eqn:Hk; [|discriminate].
    destruct (is_low_surrogate uni2) eqn:Hlow.
    2:{ apply Single; [exact H|].
        intros (_ & lo & r & j1 & j2 & j3 & j4 & E & Hj & Hl).
        inversion E; subst. congruence. }
    destruct (scanstring s5) as [[str' rest']| | | |] eqn:Hs; try discriminate.
    inversion H; subst. simpl in Hlen.
    destruct (IH s5 str' rest ltac:(lia) Hs) as (src & E & Hb). subst s5.
    exists (c_backslash :: c_u :: h1 :: h2 :: h3 :: h4
            :: c_backslash :: c_u :: k1 :: k2 :: k3 :: k4 :: src).
    split; [reflexivity|].
    apply SB_pair with (lo := uni2) (src := src)
                       (pair := c_backslash :: c_u :: k1 :: k2 :: k3 :: k4 :: src);
      try assumption.
    exists k1, k2, k3, k4. repeat split; assumption.
Qed.

Lemma scanstring_sound s str rest :
  scanstring s = Ok (str, rest) ->
  exists src, s = src ++ c_quote :: rest /\ StringBody src str.
Proof. apply (scanstring_sound_aux (length s)). apply le_n. Qed.

End JsonStringFacts.

(** ** The decoder against the grammar: values *)

Module JsonValueFacts.
Import Json JsonGrammar JsonSpecs JsonLexFacts JsonNumberFacts JsonStringFacts.

Local Open Scope N_scope.

Ltac assoc :=
  repeat (rewrite <- app_assoc || rewrite <- app_comm_cons); reflexivity.

Lemma skip_ws_cons s c r :
  skip_ws s = c :: r -> exists w, s = w ++ c :: r /\ WS w /\ is_ws c = false.
Proof.
  intros H. destruct (skip_ws_spec s) as (w & E & Hw & Hc). rewrite H in E, Hc.
  exists w. auto.
Qed.

Lemma skip_ws_nil s : skip_ws s = [] -> WS s.
Proof.
  intros H. destruct (skip_ws_spec s) as (w & E & Hw & _). rewrite H in E.
  rewrite app_nil_r in E. subst w. exact Hw.
Qed.

(** Soundness: what the scanner accepts is a value of the grammar, and the
    text it consumed is the text of that value. *)
Lemma scan_sound py fuel :
  (forall d s v rest,
     scan_once py fuel d s = Ok (v, rest) ->
     exists t, s = t ++ rest /\ Value py d t v) /\
  (forall d s pairs ps rest,
     object_loop py fuel d s pairs = Ok (ps, rest) ->
     exists members new,
       ps = pairs ++ new /\ c_quote :: s = members ++ c_rbrace :: rest /\
       Members py d members new) /\
  (forall d s vals vs rest,
     array_loop py fuel d s vals = Ok (vs, rest) ->
     exists elems new,
       vs = vals ++ new /\ s = elems ++ c_rbracket :: rest /\
       Elements py d elems new).
Proof.
  induction fuel as [|fuel (IHv & IHo & IHa)];
    [repeat split; intros; discriminate|].
  split; [|split].
  - intros dp s v rest H. cbn [scan_once] in H.
    destruct s as [|c s1]; [discriminate|].
    destruct (N.eqb_spec c c_quote).
    { subst c. destruct (scanstring s1) as [[str r]| | | |] eqn:Hs; try discriminate.
      inversion H; subst. apply scanstring_sound in Hs as (src & E & Hb). subst s1.
      exists (c_quote :: src ++ [c_quote]). split; [assoc | constructor; exact Hb]. }
    destruct (N.eqb_spec c c_lbrace).
    { subst c. destruct dp as [|dp]; [discriminate|].
      destruct (skip_ws s1) as [|c2 s2] eqn:Hw; [discriminate|].
      apply skip_ws_cons in Hw as (w & E & Hw & _). subst s1.
      destruct (N.eqb_spec c2 c_rbrace).
      { subst c2. inversion H; subst. exists (c_lbrace :: w ++ [c_rbrace]).
        split; [assoc | constructor; exact Hw]. }
      destruct (N.eqb_spec c2 c_quote); [|discriminate]. subst c2.
      destruct (object_loop py fuel dp s2 []) as [[pairs r]| | | |] eqn:Ho; try discriminate.
      inversion H; subst.
      apply IHo in Ho as (members & new & E1 & E2 & Hm). simpl in E1. subst new.
      exists (c_lbrace :: w ++ members ++ [c_rbrace]). split.
      - rewrite E2. assoc.
      - constructor; assumption. }
    destruct (N.eqb_spec c c_lbracket).
    { subst c. destruct dp as [|dp]; [discriminate|].
      destruct (skip_ws s1) as [|c2 s2] eqn:Hw; [discriminate|].
      apply skip_ws_cons in Hw as (w & E & Hw & _). subst s1.
      destruct (N.eqb_spec c2 c_rbracket).
      { subst c2. inversion H; subst. exists (c_lbracket :: w ++ [c_rbracket]).
        split; [assoc | constructor; exact Hw]. }
      destruct (array_loop py fuel dp (c2 :: s2) []) as [[values r]| | | |] eqn:Ha; try discriminate.
      inversion H; subst.
      apply IHa in Ha as (elems & new & E1 & E2 & He). simpl in E1. subst new.
      exists (c_lbracket :: w ++ elems ++ [c_rbracket]). split.
      - rewrite E2. assoc.
      - constructor; assumption. }
    apply scan_scalar_sound, H.
  - intros dp s pairs ps rest H. cbn [object_loop] in H.
    destruct (scanstring s) as [[key s1]| | | |] eqn:Hs; try discriminate.
    apply scanstring_sound in Hs as (ksrc & E & Hk). subst s. cbn [res_bind] in H.
    destruct (skip_ws s1) as [|c s2] eqn:Hw1; [discriminate|].
    apply skip_ws_cons in Hw1 as (w1 & E & Hw1 & _). subst s1.
    destruct (N.eqb_spec c c_colon); [|discriminate]. subst c.
    destruct (scan_once py fuel dp (skip_ws s2)) as [[v s3]| | | |] eqn:Hv; try discriminate.
    apply IHv in Hv as (t & Et & Hv). cbn [res_bind] in H.
    destruct (skip_ws_spec s2) as (w2 & E2 & Hw2 & _). rewrite Et in E2.
    destruct (skip_ws s3) as [|d s4] eqn:Hw3; [discriminate|].
    apply skip_ws_cons in Hw3 as (w3 & E3 & Hw3 & _).
    destruct (N.eqb_spec d c_rbrace).
    { subst d. inversion H; subst.
      exists (c_quote :: ksrc ++ c_quote :: w1 ++ c_colon :: w2 ++ t ++ w3), [(key, v)].
      split; [reflexivity|]. split; [assoc|].
      constructor; assumption. }
    destruct (N.eqb_spec d c_comma); [|discriminate]. subst d.
    destruct (skip_ws s4) as [|q s5] eqn:Hw4; [discriminate|].
    apply skip_ws_cons in Hw4 as (w4 & E4 & Hw4 & _).
    destruct (N.eqb_spec q c_quote); [|discriminate]. subst q.
    apply IHo in H as (more & new & E5 & E6 & Hm).
    exists (c_quote :: ksrc ++ c_quote :: w1 ++ c_colon :: w2 ++ t ++ w3
            ++ c_comma :: w4 ++ more), ((key, v) :: new).
    subst s2 s3 s4 ps.
    split; [assoc|]. split.
    + repeat (rewrite <- app_assoc || rewrite <- app_comm_cons).
      rewrite E6. assoc.
    + constructor; assumption.
  - intros dp s vals vs rest H. cbn [array_loop] in H.
    destruct (scan_once py fuel dp s) as [[v s1]| | | |] eqn:Hv; try discriminate.
    apply IHv in Hv as (t & Et & Hv). cbn [res_bind] in H.
    destruct (skip_ws s1) as [|d s2] eqn:Hw1; [discriminate|].
    apply skip_ws_cons in Hw1 as (w1 & E1 & Hw1 & _).
    destruct (N.eqb_spec d c_rbracket).
    { subst d. inversion H; subst.
      exists (t ++ w1), [v]. split; [reflexivity|]. split; [assoc|].
      constructor; assumption. }
    destruct (N.eqb_spec d c_comma); [|discriminate]. subst d.
    apply IHa in H as (more & new & E5 & E6 & Hm).
    destruct (skip_ws_spec s2) as (w2 & E2 & Hw2 & _). rewrite E6 in E2.
    exists (t ++ w1 ++ c_comma :: w2 ++ more), (v :: new).
    subst s s1 s2 vs.
    split; [assoc|]. split; [assoc | constructor; assumption].
Qed.

(** *** Completeness *)

Lemma Value_head py d t v :
  Value py d t v -> exists c t', t = c :: t' /\ is_ws c = false /\ c <> c_rbracket.
Proof.
  intros H. destruct H;
    try (eexists _, _; split; [reflexivity | split; [reflexivity | discriminate]]).
  destruct (Number_head _ _ _ H) as (c & t' & E & Hc). exists c, t'.
  split; [exact E|]. destruct Hc; split; chars.
Qed.

Lemma Value_not_bom py d t v :
  Value py d t v -> match t with c :: _ => c <> c_bom | [] => False end.
Proof.
  intros H. destruct H; try discriminate.
  destruct (Number_head _ _ _ H) as (c & t' & -> & Hc). destruct Hc; chars.
Qed.

Lemma Elements_head py d elems vs :
  Elements py d elems vs ->
  exists c e', elems = c :: e' /\ is_ws c = false /\ c <> c_rbracket.
Proof.
  intros [d' t v w Hv _ | d' t v w1 w2 more vs' Hv _ _ _];
    destruct (Value_head _ _ _ _ Hv) as (c & t' & -> & Hc); eexists _, _;
    (split; [reflexivity | exact Hc]).
Qed.

Lemma Members_head py d members pairs :
  Members py d members pairs -> exists ms, members = c_quote :: ms.
Proof. intros []; eexists; reflexivity. Qed.

Lemma number_ends_after w c r :
  WS w -> c = c_comma \/ c = c_rbracket \/ c = c_rbrace ->
  number_ends (w ++ c :: r).
Proof.
  intros Hw Hc. destruct w as [|a w]; simpl.
  - chars.
  - apply WS_cons in Hw as [Ha _]. chars.
Qed.

Lemma scan_once_scalar py fuel d c s :
  c <> c_quote -> c <> c_lbrace -> c <> c_lbracket ->
  scan_once py (S fuel) d (c :: s) = scan_scalar py (c :: s).
Proof.
  intros H1 H2 H3. cbn [scan_once].
  destruct (N.eqb_spec c c_quote); [contradiction|].
  destruct (N.eqb_spec c c_lbrace); [contradiction|].
  destruct (N.eqb_spec c c_lbracket); [contradiction|]. reflexivity.
Qed.

Ltac spend fuel :=
  destruct fuel as [|fuel]; [simpl in *; lia|].

Lemma scan_complete py :
  (forall d t v, Value py d t v -> scan_complete_value py d t v) /\
  (forall d elems vs, Elements py d elems vs -> scan_complete_elements py d elems vs) /\
  (forall d members pairs,
     Members py d members pairs -> scan_complete_members py d members pairs).
Proof.
  apply Value_Elements_Members_ind;
    unfold scan_complete_value, scan_complete_elements, scan_complete_members.
  - intros d rest fuel _ Hf. spend fuel. reflexivity.
  - intros d rest fuel _ Hf. spend fuel. reflexivity.
  - intros d rest fuel _ Hf. spend fuel. reflexivity.
  - intros d rest fuel _ Hf. spend fuel. reflexivity.
  - intros d rest fuel _ Hf. spend fuel. reflexivity.
  - intros d rest fuel _ Hf. spend fuel. reflexivity.
  - intros d t v Hn rest fuel Hr Hf. spend fuel.
    destruct (Number_head _ _ _ Hn) as (c & t' & E & Hc).
    rewrite E. cbn [app]. rewrite scan_once_scalar by (destruct Hc; chars).
    change (c :: t' ++ rest) with ((c :: t') ++ rest). rewrite <- E.
    apply scan_scalar_number; assumption.
  - intros d src str Hb rest fuel _ Hf. spend fuel.
    cbn [app scan_once]. rewrite N.eqb_refl. rewrite <- app_assoc.
    cbn [app]. rewrite (scanstring_complete _ _ Hb). reflexivity.
  - intros d w Hw rest fuel _ Hf. spend fuel.
    cbn [app scan_once]. rewrite <- app_assoc. cbn [app].
    change (c_lbracket =? c_quote) with false.
    change (c_lbracket =? c_lbrace) with false.
    rewrite N.eqb_refl. cbv iota.
    rewrite skip_ws_through by (assumption || reflexivity).
    rewrite N.eqb_refl. reflexivity.
  - intros d w elems vs Hw He IH rest fuel _ Hf. spend fuel.
    cbn [app scan_once]. rewrite <- !app_assoc. cbn [app].
    change (c_lbracket =? c_quote) with false.
    change (c_lbracket =? c_lbrace) with false.
    rewrite N.eqb_refl. cbv iota.
    destruct (Elements_head _ _ _ _ He) as (c & e' & E & Hc1 & Hc2).
    rewrite E. cbn [app]. rewrite skip_ws_through by assumption.
    destruct (N.eqb_spec c c_rbracket); [contradiction|].
    change (c :: e' ++ c_rbracket :: rest) with ((c :: e') ++ c_rbracket :: rest).
    rewrite <- E. rewrite IH; [reflexivity|].
    simpl in Hf. rewrite !length_app in Hf. simpl in Hf. lia.
  - intros d w Hw rest fuel _ Hf. spend fuel.
    cbn [app scan_once]. rewrite <- app_assoc. cbn [app].
    change (c_lbrace =? c_quote) with false.
    rewrite N.eqb_refl. cbv iota.
    rewrite skip_ws_through by (assumption || reflexivity).
    rewrite N.eqb_refl. reflexivity.
  - intros d w members pairs Hw Hm IH rest fuel _ Hf. spend fuel.
    cbn [app scan_once]. rewrite <- !app_assoc. cbn [app].
    change (c_lbrace =? c_quote) with false.
    rewrite N.eqb_refl. cbv iota.
    destruct (Members_head _ _ _ _ Hm) as (ms & E).
    rewrite E. cbn [app]. rewrite skip_ws_through by (assumption || reflexivity).
    change (c_quote =? c_rbrace) with false. rewrite N.eqb_refl. cbv iota.
    rewrite (IH ms rest fuel [] E); [reflexivity|].
    simpl in Hf. rewrite !length_app in Hf. simpl in Hf. lia.
  - intros d t v w Hv IHv Hw rest fuel vals Hf. spend fuel.
    cbn [array_loop]. rewrite <- app_assoc.
    rewrite IHv;
      [| apply number_ends_after; [exact Hw | tauto]
       | rewrite length_app in Hf; lia].
    cbn [res_bind]. rewrite skip_ws_through by (assumption || reflexivity).
    rewrite N.eqb_refl. reflexivity.
  - intros d t v w1 w2 more vs Hv IHv Hw1 Hw2 He IH rest fuel vals Hf. spend fuel.
    cbn [array_loop]. rewrite <- !app_assoc. cbn [app]. rewrite <- !app_assoc.
    rewrite !length_app in Hf. cbn [length] in Hf. rewrite !length_app in Hf.
    rewrite IHv;
      [| apply number_ends_after; [exact Hw1 | tauto] | lia].
    cbn [res_bind]. rewrite skip_ws_through by (assumption || reflexivity).
    change (c_comma =? c_rbracket) with false. rewrite N.eqb_refl. cbv iota.
    destruct (Elements_head _ _ _ _ He) as (c & e' & E & Hc1 & Hc2).
    rewrite E. cbn [app]. rewrite skip_ws_through by assumption.
    change (c :: e' ++ c_rbracket :: rest) with ((c :: e') ++ c_rbracket :: rest).
    rewrite <- E. rewrite IH by lia. rewrite <- app_assoc. reflexivity.
  - intros d ksrc k w1 w2 t v w3 Hk Hw1 Hw2 Hv IHv Hw3 ms rest fuel acc E Hf.
    spend fuel. inversion E; subst ms. clear E.
    cbn [length] in Hf. rewrite !length_app in Hf. cbn [length] in Hf.
    rewrite !length_app in Hf. cbn [length] in Hf. rewrite !length_app in Hf.
    cbn [object_loop]. rewrite <- !app_assoc. cbn [app]. rewrite <- !app_assoc.
    cbn [app]. rewrite <- !app_assoc.
    rewrite (scanstring_complete _ _ Hk). cbn [res_bind].
    rewrite skip_ws_through by (assumption || reflexivity).
    rewrite N.eqb_refl.
    destruct (Value_head _ _ _ _ Hv) as (c & t' & Et & Hc1 & _).
    rewrite Et at 1. cbn [app]. rewrite skip_ws_through by assumption.
    change (c :: t' ++ w3 ++ c_rbrace :: rest) with ((c :: t') ++ w3 ++ c_rbrace :: rest).
    rewrite <- Et.
    rewrite IHv; [| apply number_ends_after; [exact Hw3 | tauto] | lia].
    cbn [res_bind]. rewrite skip_ws_through by (assumption || reflexivity).
    rewrite N.eqb_refl. reflexivity.
  - intros d ksrc k w1 w2 t v w3 w4 more pairs Hk Hw1 Hw2 Hv IHv Hw3 Hw4 Hm IH
           ms rest fuel acc E Hf.
    spend fuel. inversion E; subst ms. clear E.
    cbn [length] in Hf. repeat (rewrite !length_app in Hf; cbn [length] in Hf).
    cbn [object_loop]. repeat (rewrite <- !app_assoc; cbn [app]).
    rewrite (scanstring_complete _ _ Hk). cbn [res_bind].
    rewrite skip_ws_through by (assumption || reflexivity).
    rewrite N.eqb_refl.
    destruct (Value_head _ _ _ _ Hv) as (c & t' & Et & Hc1 & _).
    rewrite Et at 1. cbn [app]. rewrite skip_ws_through by assumption.
    change (c :: t' ++ ?x) with ((c :: t') ++ x).
    rewrite <- Et.
    rewrite IHv; [| apply number_ends_after; [exact Hw3 | tauto] | lia].
    cbn [res_bind]. rewrite skip_ws_through by (assumption || reflexivity).
    change (c_comma =? c_rbrace) with false. rewrite N.eqb_refl. cbv iota.
    destruct (Members_head _ _ _ _ Hm) as (ms' & E').
    rewrite E' at 1. cbn [app]. rewrite skip_ws_through by (assumption || reflexivity).
    rewrite N.eqb_refl.
    rewrite (IH ms' rest fuel _ E') by lia. rewrite <- app_assoc. reflexivity.
Qed.

(** *** The fuel never runs out *)

Lemma res_bind_fuel {A B} (r : res A) (k : A -> res B) :
  r <> OutOfFuel -> (forall a, r = Ok a -> k a <> OutOfFuel) ->
  res_bind r k <> OutOfFuel.
Proof.
  intros Hr Hk. destruct r; simpl;
    [apply Hk; reflexivity | discriminate | discriminate | discriminate | congruence].
Qed.

Lemma scanstring_fuel_aux n : forall s, (length s <= n)%nat -> scanstring s <> OutOfFuel.
Proof.
  induction n as [|n IH]; intros s Hlen.
  - destruct s; [discriminate | simpl in Hlen; lia].
  - assert (Hk : forall s' (c : codepoint), (length s' <= n)%nat ->
              res_bind (scanstring s') (fun '(str, rest) => Ok (c :: str, rest)) <> OutOfFuel).
    { intros s' c Hs'. apply res_bind_fuel; [apply IH, Hs'|]. intros [? ?] _. discriminate. }
    destruct s as [|c s1]; [discriminate|]. simpl in Hlen. cbn [scanstring].
    destruct (c =? c_quote); [discriminate|].
    destruct (c =? c_backslash).
    2:{ destruct (c <? 32); [discriminate|]. apply Hk. lia. }
    destruct s1 as [|esc s2]; [discriminate|]. simpl in Hlen.
    destruct (esc =? c_u).
    2:{ destruct (backslash esc); [|discriminate]. apply Hk. lia. }
    destruct s2 as [|h1 [|h2 [|h3 [|h4 s3]]]]; try discriminate. simpl in Hlen.
    destruct (hex4 h1 h2 h3 h4) as [uni|]; [|discriminate].
    assert (Hsingle := Hk s3 uni ltac:(lia)).
    destruct (is_high_surrogate uni); [|exact Hsingle].
    destruct s3 as [|b [|u s4]]; try exact Hsingle.
    destruct ((b =? c_backslash) && (u =? c_u)); [|exact Hsingle].
    destruct s4 as [|k1 [|k2 [|k3 [|k4 s5]]]]; try discriminate. simpl in Hlen.
    destruct (hex4 k1 k2 k3 k4) as [uni2|]; [|discriminate].
    destruct (is_low_surrogate uni2); [|exact Hsingle].
    apply Hk. lia.
Qed.

Lemma scanstring_fuel s : scanstring s <> OutOfFuel.
Proof. apply (scanstring_fuel_aux (length s)), le_n. Qed.

Lemma scan_number_fuel py s : scan_number py s <> Some OutOfFuel.
Proof.
  unfold scan_number.
  repeat match goal with
         | |- context [match ?x with _ => _ end] => destruct x
         | |- context [if ?x then _ else _] => destruct x
         end; discriminate.
Qed.

Lemma scan_scalar_fuel py s : scan_scalar py s <> OutOfFuel.
Proof.
  unfold scan_scalar. pose proof (scan_number_fuel py s) as Hn.
  destruct (scan_number py s) as [r|]; [|clear Hn].
  - repeat match goal with
           | |- context [match ?x with _ => _ end] => destruct x
           end; try discriminate; congruence.
  - repeat match goal with
           | |- context [match ?x with _ => _ end] => destruct x
           end; discriminate.
Qed.

Lemma scanstring_shrinks s str r :
  scanstring s = Ok (str, r) -> (length r < length s)%nat.
Proof.
  intros H. apply scanstring_sound in H as (src & -> & _).
  rewrite length_app. simpl. lia.
Qed.

Lemma skip_ws_cons_shrinks s c r :
  skip_ws s = c :: r -> (length r < length s)%nat.
Proof.
  intros H. apply skip_ws_cons in H as (w & -> & _). rewrite length_app. simpl. lia.
Qed.

Lemma scan_once_shrinks py fuel d s v r :
  scan_once py fuel d s = Ok (v, r) -> (length r < length s)%nat.
Proof.
  intros H. apply (proj1 (scan_sound py fuel)) in H as (t & -> & Hv).
  destruct (Value_head _ _ _ _ Hv) as (c & t' & -> & _). simpl. rewrite length_app. lia.
Qed.

Lemma scan_fuel py fuel :
  (forall d s, (2 * length s + 1 <= fuel)%nat -> scan_once py fuel d s <> OutOfFuel) /\
  (forall d s acc,
     (2 * length s + 2 <= fuel)%nat -> object_loop py fuel d s acc <> OutOfFuel) /\
  (forall d s acc,
     (2 * length s + 2 <= fuel)%nat -> array_loop py fuel d s acc <> OutOfFuel).
Proof.
  induction fuel as [|fuel (IHv & IHo & IHa)]; [repeat split; intros; lia|].
  split; [|split].
  - intros dp s Hf. cbn [scan_once]. destruct s as [|c s1]; [discriminate|].
    simpl in Hf.
    destruct (c =? c_quote).
    { apply res_bind_fuel; [apply scanstring_fuel|]. intros [? ?] _. discriminate. }
    destruct (c =? c_lbrace).
    { destruct dp as [|dp]; [discriminate|].
      destruct (skip_ws s1) as [|c2 s2] eqn:Hw; [discriminate|].
      apply skip_ws_cons_shrinks in Hw.
      destruct (c2 =? c_rbrace); [discriminate|].
      destruct (c2 =? c_quote); [|discriminate].
      apply res_bind_fuel; [apply IHo; lia|]. intros [? ?] _. discriminate. }
    destruct (c =? c_lbracket); [|apply scan_scalar_fuel].
    destruct dp as [|dp]; [discriminate|].
    destruct (skip_ws s1) as [|c2 s2] eqn:Hw; [discriminate|].
    apply skip_ws_cons_shrinks in Hw.
    destruct (c2 =? c_rbracket); [discriminate|].
    apply res_bind_fuel; [apply IHa; simpl; lia|]. intros [? ?] _. discriminate.
  - intros dp s acc Hf. cbn [object_loop].
    apply res_bind_fuel; [apply scanstring_fuel|]. intros [key s1] Hs.
    apply scanstring_shrinks in Hs.
    destruct (skip_ws s1) as [|c s2] eqn:Hw1; [discriminate|].
    apply skip_ws_cons_shrinks in Hw1.
    destruct (c =? c_colon); [|discriminate].
    pose proof (skip_ws_length s2) as Hw2.
    apply res_bind_fuel; [apply IHv; lia|]. intros [v s3] Hv.
    apply scan_once_shrinks in Hv.
    destruct (skip_ws s3) as [|d s4] eqn:Hw3; [discriminate|].
    apply skip_ws_cons_shrinks in Hw3.
    destruct (d =? c_rbrace); [discriminate|].
    destruct (d =? c_comma); [|discriminate].
    destruct (skip_ws s4) as [|q s5] eqn:Hw4; [discriminate|].
    apply skip_ws_cons_shrinks in Hw4.
    destruct (q =? c_quote); [|discriminate].
    apply IHo. lia.
  - intros dp s acc Hf. cbn [array_loop].
    apply res_bind_fuel; [apply IHv; lia|]. intros [v s1] Hv.
    apply scan_once_shrinks in Hv.
    destruct (skip_ws s1) as [|d s2] eqn:Hw1; [discriminate|].
    apply skip_ws_cons_shrinks in Hw1.
    destruct (d =? c_rbracket); [discriminate|].
    destruct (d =? c_comma); [|discriminate].
    pose proof (skip_ws_length s2) as Hw2.
    apply IHa. lia.
Qed.

(** *** Whole texts *)

Lemma decode_sound py s v : decode py s = Ok v -> Document py s v.
Proof.
  unfold decode. intros H.
  destruct (scan_once py _ _ (skip_ws s)) as [[obj rest]| | | |] eqn:Hv;
    try discriminate.
  cbn [res_bind] in H.
  destruct (skip_ws rest) eqn:Hw; [|discriminate]. inversion H; subst obj.
  apply (proj1 (scan_sound _ _)) in Hv as (t & Et & Hv).
  destruct (skip_ws_spec s) as (w1 & E1 & Hw1 & _).
  exists w1, t, rest. rewrite Et in E1.
  split; [exact E1|]. split; [exact Hw1|]. split; [apply skip_ws_nil, Hw | exact Hv].
Qed.

Lemma decode_complete py s v : Document py s v -> decode py s = Ok v.
Proof.
  intros (w1 & t & w2 & -> & Hw1 & Hw2 & Hv). unfold decode.
  destruct (Value_head _ _ _ _ Hv) as (c & t' & Et & Hc & _).
  rewrite Et at 2. cbn [app]. rewrite skip_ws_through by assumption.
  change (c :: t' ++ w2) with ((c :: t') ++ w2). rewrite <- Et.
  rewrite (proj1 (scan_complete py) _ t v Hv).
  - cbn [res_bind].
    rewrite <- (app_nil_r w2), skip_ws_app by exact Hw2. reflexivity.
  - destruct w2 as [|a w2]; [exact I|]. apply WS_cons in Hw2 as [Ha _]. simpl. chars.
  - rewrite !length_app. lia.
Qed.

Lemma decode_fuel py s : decode py s <> OutOfFuel.
Proof.
  unfold decode. apply res_bind_fuel.
  - apply (proj1 (scan_fuel _ _)). pose proof (skip_ws_length s). lia.
  - intros [obj rest] _. destruct (skip_ws rest); discriminate.
Qed.

Lemma Document_not_bom py s v :
  Document py s v -> match s with c :: _ => c <> c_bom | [] => False end.
Proof.
  intros (w1 & t & w2 & -> & Hw1 & _ & Hv).
  destruct w1 as [|a w1]; simpl.
  - pose proof (Value_not_bom _ _ _ _ Hv) as H. destruct t; [contradiction | exact H].
  - apply WS_cons in Hw1 as [Ha _]. chars.
Qed.

(** [json.loads] accepts exactly the texts of the grammar, with the value
    the grammar gives them, and never runs out of fuel. *)
Lemma loads_iff py s v : loads py s = Ok v <-> Document py s v.
Proof.
  unfold loads. split.
  - intros H. destruct s as [|c s']; [apply decode_sound, H|].
    destruct (c =? c_bom); [discriminate | apply decode_sound, H].
  - intros H. pose proof (Document_not_bom _ _ _ H) as Hb.
    destruct s as [|c s']; [contradiction|].
    destruct (N.eqb_spec c c_bom); [contradiction|]. apply decode_complete, H.
Qed.

Lemma loads_fuel py s : loads py s <> OutOfFuel.
Proof.
  unfold loads. destruct s as [|c s']; [apply decode_fuel|].
  destruct (c =? c_bom); [discriminate | apply decode_fuel].
Qed.

End JsonValueFacts.
(** ** The decoder and the limits of the interpreter *)

Module JsonLimitFacts.
Import Json JsonGrammar JsonSpecs JsonLexFacts JsonNumberFacts JsonStringFacts JsonValueFacts.

Local Open Scope N_scope.

Lemma res_bind_stopped {A B} (r : res A) (k : A -> res B) :
  ~ stopped r -> (forall a, r = Ok a -> ~ stopped (k a)) -> ~ stopped (res_bind r k).
Proof.
  unfold stopped. intros Hr Hk. destruct r; simpl;
    [apply Hk; reflexivity | intros [|]; discriminate | tauto | tauto
     | intros [|]; discriminate].
Qed.

Lemma scanstring_result_aux n :
  forall s, (length s <= n)%nat ->
    (exists a, scanstring s = Ok a) \/ (exists msg, scanstring s = Error msg).
Proof.
  induction n as [|n IH]; intros s Hlen.
  - destruct s; [right; eexists; reflexivity | simpl in Hlen; lia].
  - assert (Hk : forall s' (c : codepoint), (length s' <= n)%nat ->
              (exists a, res_bind (scanstring s') (fun '(str, rest) => Ok (c :: str, rest)) = Ok a)
              \/ (exists msg, res_bind (scanstring s') (fun '(str, rest) => Ok (c :: str, rest)) = Error msg)).
    { intros s' c Hs'. destruct (IH s' Hs') as [[[str r] ->] | [msg ->]];
        [left | right]; eexists; reflexivity. }
    destruct s as [|c s1]; [right; eexists; reflexivity|]. simpl in Hlen. cbn [scanstring].
    destruct (c =? c_quote); [left; eexists; reflexivity|].
    destruct (c =? c_backslash).
    2:{ destruct (c <? 32); [right; eexists; reflexivity|]. apply Hk. lia. }
    destruct s1 as [|esc s2]; [right; eexists; reflexivity|]. simpl in Hlen.
    destruct (esc =? c_u).
    2:{ destruct (backslash esc); [|right; eexists; reflexivity]. apply Hk. lia. }
    destruct s2 as [|h1 [|h2 [|h3 [|h4 s3]]]]; try (right; eexists; reflexivity).
    simpl in Hlen.
    destruct (hex4 h1 h2 h3 h4) as [uni|]; [|right; eexists; reflexivity].
    assert (Hsingle := Hk s3 uni ltac:(lia)).
    destruct (is_high_surrogate uni); [|exact Hsingle].
    destruct s3 as [|b [|u s4]]; try exact Hsingle.
    destruct ((b =? c_backslash) && (u =? c_u)); [|exact Hsingle].
    destruct s4 as [|k1 [|k2 [|k3 [|k4 s5]]]]; try (right; eexists; reflexivity).
    simpl in Hlen.
    destruct (hex4 k1 k2 k3 k4) as [uni2|]; [|right; eexists; reflexivity].
    destruct (is_low_surrogate uni2); [|exact Hsingle].
    apply Hk. lia.
Qed.

Lemma scanstring_result s :
  (exists a, scanstring s = Ok a) \/ (exists msg, scanstring s = Error msg).
Proof. apply (scanstring_result_aux (length s)), le_n. Qed.

Lemma scanstring_not_stopped s : ~ stopped (scanstring s).
Proof.
  destruct (scanstring_result s) as [[a E] | [msg E]]; rewrite E; intros [|]; discriminate.
Qed.

Lemma int_digits_le i : (int_digits i <= length i)%nat.
Proof.
  unfold int_digits. destruct i as [|c i]; [lia|].
  destruct (c =? c_minus); simpl; lia.
Qed.

Lemma int_refused_fit py i :
  digits_fit py (length i) -> int_refused py i = false.
Proof.
  unfold digits_fit, int_refused. intros H. pose proof (int_digits_le i).
  destruct (Nat.ltb_spec 640 (int_digits i)); [|reflexivity].
  destruct (Nat.ltb_spec 0 (max_str_digits py)); [|reflexivity].
  destruct (Nat.ltb_spec (max_str_digits py) (int_digits i)); [|reflexivity].
  lia.
Qed.

Lemma scan_number_not_stopped py s :
  digits_fit py (length s) ->
  match scan_number py s with Some r => ~ stopped r | None => True end.
Proof.
  intros Hfit. unfold scan_number.
  destruct (match_integer s) as [[i s1]|] eqn:Hi; [|exact I].
  apply match_integer_sound in Hi as (E & _).
  destruct (match_frac s1) as [f s2]. destruct (match_exp s2) as [e s3].
  assert (Hr : int_refused py i = false).
  { apply int_refused_fit. destruct Hfit as [H|H]; [left; exact H | right].
    subst s. rewrite length_app in H. lia. }
  rewrite Hr. destruct f; [destruct e|]; intros [|]; discriminate.
Qed.

Lemma scan_scalar_not_stopped py s :
  digits_fit py (length s) -> ~ stopped (scan_scalar py s).
Proof.
  intros Hfit. unfold scan_scalar. pose proof (scan_number_not_stopped py s Hfit) as Hn.
  destruct (strip_prefix lit_null s); [intros [|]; discriminate|].
  destruct (strip_prefix lit_true s); [intros [|]; discriminate|].
  destruct (strip_prefix lit_false s); [intros [|]; discriminate|].
  destruct (scan_number py s) as [r|]; [exact Hn|].
  destruct (strip_prefix lit_nan s); [intros [|]; discriminate|].
  destruct (strip_prefix lit_inf s); [intros [|]; discriminate|].
  destruct (strip_prefix lit_neg_inf s); intros [|]; discriminate.
Qed.

Lemma digits_fit_le py n m : (m <= n)%nat -> digits_fit py n -> digits_fit py m.
Proof. unfold digits_fit. intros Hm [H|H]; [left; exact H | right; lia]. Qed.

(** With limits that the length of the text does not reach, the decoder is
    stopped by neither. *)
Lemma scan_not_stopped py fuel :
  (forall d s, (length s <= d)%nat -> digits_fit py (length s) ->
     ~ stopped (scan_once py fuel d s)) /\
  (forall d s acc, (length s <= d)%nat -> digits_fit py (length s) ->
     ~ stopped (object_loop py fuel d s acc)) /\
  (forall d s acc, (length s <= d)%nat -> digits_fit py (length s) ->
     ~ stopped (array_loop py fuel d s acc)).
Proof.
  induction fuel as [|fuel (IHv & IHo & IHa)];
    [repeat split; intros; intros [|]; discriminate|].
  assert (Hok : forall A (a : A), ~ stopped (Ok a)) by (intros A a [|]; discriminate).
  assert (Herr : forall A msg, ~ stopped (@Error A msg)) by (intros A a [|]; discriminate).
  split; [|split].
  - intros dp s Hd Hfit. cbn [scan_once]. destruct s as [|c s1]; [apply Herr|].
    simpl in Hd.
    destruct (c =? c_quote).
    { apply res_bind_stopped; [apply scanstring_not_stopped|]. intros [? ?] _. apply Hok. }
    destruct (c =? c_lbrace).
    { destruct dp as [|dp]; [lia|].
      destruct (skip_ws s1) as [|c2 s2] eqn:Hw; [apply Herr|].
      apply skip_ws_cons_shrinks in Hw.
      destruct (c2 =? c_rbrace); [apply Hok|].
      destruct (c2 =? c_quote); [|apply Herr].
      apply res_bind_stopped.
      - apply IHo; [lia|]. eapply digits_fit_le; [|exact Hfit]. simpl. lia.
      - intros [? ?] _. apply Hok. }
    destruct (c =? c_lbracket); [|apply scan_scalar_not_stopped, Hfit].
    destruct dp as [|dp]; [lia|].
    destruct (skip_ws s1) as [|c2 s2] eqn:Hw; [apply Herr|].
    apply skip_ws_cons_shrinks in Hw.
    destruct (c2 =? c_rbracket); [apply Hok|].
    apply res_bind_stopped.
    + apply IHa; [simpl; lia|]. eapply digits_fit_le; [|exact Hfit]. simpl. lia.
    + intros [? ?] _. apply Hok.
  - intros dp s acc Hd Hfit. cbn [object_loop].
    apply res_bind_stopped; [apply scanstring_not_stopped|]. intros [key s1] Hs.
    apply scanstring_shrinks in Hs.
    destruct (skip_ws s1) as [|c s2] eqn:Hw1; [apply Herr|].
    apply skip_ws_cons_shrinks in Hw1.
    destruct (c =? c_colon); [|apply Herr].
    pose proof (skip_ws_length s2) as Hw2.
    apply res_bind_stopped.
    { apply IHv; [lia|]. eapply digits_fit_le; [|exact Hfit]. lia. }
    intros [v s3] Hv.
    apply scan_once_shrinks in Hv.
    destruct (skip_ws s3) as [|d s4] eqn:Hw3; [apply Herr|].
    apply skip_ws_cons_shrinks in Hw3.
    destruct (d =? c_rbrace); [apply Hok|].
    destruct (d =? c_comma); [|apply Herr].
    destruct (skip_ws s4) as [|q s5] eqn:Hw4; [apply Herr|].
    apply skip_ws_cons_shrinks in Hw4.
    destruct (q =? c_quote); [|apply Herr].
    apply IHo; [lia|]. eapply digits_fit_le; [|exact Hfit]. lia.
  - intros dp s acc Hd Hfit. cbn [array_loop].
    apply res_bind_stopped.
    { apply IHv; assumption. }
    intros [v s1] Hv.
    apply scan_once_shrinks in Hv.
    destruct (skip_ws s1) as [|d s2] eqn:Hw1; [apply Herr|].
    apply skip_ws_cons_shrinks in Hw1.
    destruct (d =? c_rbracket); [apply Hok|].
    destruct (d =? c_comma); [|apply Herr].
    pose proof (skip_ws_length s2) as Hw2.
    apply IHa; [lia|]. eapply digits_fit_le; [|exact Hfit]. lia.
Qed.

Lemma decode_not_stopped py s :
  (length s <= nesting_limit py)%nat -> digits_fit py (length s) ->
  ~ stopped (decode py s).
Proof.
  intros Hd Hfit. unfold decode. pose proof (skip_ws_length s) as Hw.
  apply res_bind_stopped.
  - apply (proj1 (scan_not_stopped _ _)); [lia|].
    eapply digits_fit_le; [|exact Hfit]. lia.
  - intros [obj rest] _. destruct (skip_ws rest); intros [|]; discriminate.
Qed.

Lemma loads_not_stopped py s :
  (length s <= nesting_limit py)%nat -> digits_fit py (length s) ->
  ~ stopped (loads py s).
Proof.
  intros Hd Hfit. unfold loads. destruct s as [|c s'].
  - apply decode_not_stopped; assumption.
  - destruct (c =? c_bom); [intros [|]; discriminate|].
    apply decode_not_stopped; assumption.
Qed.

(** A value of the grammar stays one when the limits are widened to what
    its text cannot reach. *)
Lemma Number_roomy py py' t v :
  Number py t v -> digits_fit py' (length t) -> Number py' t v.
Proof.
  intros [i Hi Hr | i f e Hi Hf He Hfe] Hfit.
  - constructor; [exact Hi | apply int_refused_fit, Hfit].
  - constructor; assumption.
Qed.

Lemma Value_roomy py py' :
  (forall d t v, Value py d t v ->
     forall d', (length t <= d')%nat -> digits_fit py' (length t) -> Value py' d' t v) /\
  (forall d elems vs, Elements py d elems vs ->
     forall d', (length elems <= d')%nat -> digits_fit py' (length elems) ->
       Elements py' d' elems vs) /\
  (forall d members pairs, Members py d members pairs ->
     forall d', (length members <= d')%nat -> digits_fit py' (length members) ->
       Members py' d' members pairs).
Proof.
  apply Value_Elements_Members_ind.
  - intros; constructor.
  - intros; constructor.
  - intros; constructor.
  - intros; constructor.
  - intros; constructor.
  - intros; constructor.
  - intros d t v Hn d' _ Hfit. apply V_number. eapply Number_roomy; eassumption.
  - intros d src str Hb d' _ _. apply V_string. exact Hb.
  - intros d w Hw d' Hd _. destruct d' as [|d']; [simpl in Hd; lia|].
    apply V_array_empty. exact Hw.
  - intros d w elems vs Hw _ IH d' Hd Hfit.
    simpl in Hd. rewrite !length_app in Hd.
    destruct d' as [|d']; [lia|]. apply V_array; [exact Hw|].
    apply IH; [lia|]. eapply digits_fit_le; [|exact Hfit].
    simpl. rewrite !length_app. lia.
  - intros d w Hw d' Hd _. destruct d' as [|d']; [simpl in Hd; lia|].
    apply V_object_empty. exact Hw.
  - intros d w members pairs Hw _ IH d' Hd Hfit.
    simpl in Hd. rewrite !length_app in Hd.
    destruct d' as [|d']; [lia|]. apply V_object; [exact Hw|].
    apply IH; [lia|]. eapply digits_fit_le; [|exact Hfit].
    simpl. rewrite !length_app. lia.
  - intros d t v w _ IHv Hw d' Hd Hfit. rewrite length_app in Hd.
    constructor; [|exact Hw].
    apply IHv; [lia|]. eapply digits_fit_le; [|exact Hfit]. rewrite length_app. lia.
  - intros d t v w1 w2 more vs _ IHv Hw1 Hw2 _ IH d' Hd Hfit.
    assert (Hlen : (length t <= length (t ++ w1 ++ c_comma :: w2 ++ more))%nat /\
                   (length more <= length (t ++ w1 ++ c_comma :: w2 ++ more))%nat).
    { repeat first [rewrite length_app | progress cbn [length]]. lia. }
    constructor; try assumption.
    + apply IHv; [lia|]. eapply digits_fit_le; [|exact Hfit]. lia.
    + apply IH; [lia|]. eapply digits_fit_le; [|exact Hfit]. lia.
  - intros d ksrc k w1 w2 t v w3 Hk Hw1 Hw2 _ IHv Hw3 d' Hd Hfit.
    assert (Hlen : (length t <=
              length (c_quote :: ksrc ++ c_quote :: w1 ++ c_colon :: w2 ++ t ++ w3))%nat).
    { repeat first [rewrite length_app | progress cbn [length]]. lia. }
    constructor; try assumption.
    apply IHv; [lia|]. eapply digits_fit_le; [|exact Hfit]. lia.
  - intros d ksrc k w1 w2 t v w3 w4 more pairs Hk Hw1 Hw2 _ IHv Hw3 Hw4 _ IH d' Hd Hfit.
    assert (Hlen : (length t <=
              length (c_quote :: ksrc ++ c_quote :: w1 ++ c_colon :: w2 ++ t ++ w3
                      ++ c_comma :: w4 ++ more))%nat /\
            (length more <=
              length (c_quote :: ksrc ++ c_quote :: w1 ++ c_colon :: w2 ++ t ++ w3
                      ++ c_comma :: w4 ++ more))%nat).
    { repeat first [rewrite length_app | progress cbn [length]]. lia. }
    constructor; try assumption.
    + apply IHv; [lia|]. eapply digits_fit_le; [|exact Hfit]. lia.
    + apply IH; [lia|]. eapply digits_fit_le; [|exact Hfit]. lia.
Qed.

Lemma Document_roomy py py' s v :
  Document py s v ->
  (length s <= nesting_limit py')%nat -> digits_fit py' (length s) ->
  Document py' s v.
Proof.
  intros (w1 & t & w2 & -> & Hw1 & Hw2 & Hv) Hd Hfit.
  rewrite !length_app in Hd.
  exists w1, t, w2. repeat split; try assumption.
  apply (proj1 (Value_roomy py py') _ _ _ Hv); [lia|].
  eapply digits_fit_le; [|exact Hfit]. rewrite !length_app. lia.
Qed.

End JsonLimitFacts.
(** ** Dictionaries *)

Module DictFacts.
Import Json JsonSpecs.

Lemma text_eqb_spec a b : reflect (a = b) (text_eqb a b).
Proof. unfold text_eqb. destruct (list_eq_dec N.eq_dec a b); constructor; assumption. Qed.

Lemma text_eqb_refl a : text_eqb a a = true.
Proof. destruct (text_eqb_spec a a); congruence. Qed.

Lemma dict_get_set k k' v d :
  dict_get k (dict_set k' v d) = if text_eqb k k' then Some v else dict_get k d.
Proof.
  induction d as [|[k0 v0] d IH]; simpl.
  - reflexivity.
  - destruct (text_eqb_spec k' k0).
    + subst k0. simpl. destruct (text_eqb k k'); reflexivity.
    + simpl. rewrite IH. destruct (text_eqb_spec k k0); [|reflexivity].
      subst k0. destruct (text_eqb_spec k k'); [congruence | reflexivity].
Qed.

Lemma dict_get_fold k pairs : forall d,
  dict_get k (fold_left (fun d kv => dict_set (fst kv) (snd kv) d) pairs d) =
  fold_left (fun acc kv => if text_eqb k (fst kv) then Some (snd kv) else acc)
            pairs (dict_get k d).
Proof.
  induction pairs as [|[k' v] pairs IH]; intros d; simpl; [reflexivity|].
  rewrite IH, dict_get_set. reflexivity.
Qed.

(** Every key has the value of its last member. *)
Lemma dict_get_last k pairs : dict_get k (dict pairs) = last_value k pairs.
Proof. unfold dict, last_value. rewrite dict_get_fold. reflexivity. Qed.

Lemma dict_keys_set k v d :
  dict_keys (dict_set k v d) = if mem k (dict_keys d) then dict_keys d else dict_keys d ++ [k].
Proof.
  unfold dict_keys, mem. induction d as [|[k0 v0] d IH]; simpl; [reflexivity|].
  destruct (text_eqb_spec k k0); simpl; [reflexivity|].
  rewrite IH. destruct (existsb (text_eqb k) (map fst d)); reflexivity.
Qed.

Lemma filter_ext_in' {A} (f g : A -> bool) l :
  (forall a, f a = g a) -> filter f l = filter g l.
Proof. intros H. apply filter_ext_in. intros a _. apply H. Qed.

Lemma filter_filter {A} (f g : A -> bool) l :
  filter f (filter g l) = filter (fun a => g a && f a) l.
Proof.
  induction l as [|a l IH]; simpl; [reflexivity|].
  destruct (g a); simpl; [destruct (f a)|]; rewrite IH; reflexivity.
Qed.

Lemma mem_app k a b : mem k (a ++ b) = mem k a || mem k b.
Proof. unfold mem. apply existsb_app. Qed.

Lemma dict_keys_fold pairs : forall d,
  dict_keys (fold_left (fun d kv => dict_set (fst kv) (snd kv) d) pairs d) =
  dict_keys d ++
  filter (fun k => negb (mem k (dict_keys d))) (first_occurrences (map fst pairs)).
Proof.
  induction pairs as [|[k v] pairs IH]; intros d; simpl.
  - rewrite app_nil_r. reflexivity.
  - rewrite IH, dict_keys_set. rewrite filter_filter.
    destruct (mem k (dict_keys d)) eqn:Hk; simpl.
    + f_equal. apply filter_ext_in'. intros a.
      destruct (text_eqb_spec k a); [|reflexivity]. subst a. rewrite Hk. reflexivity.
    + rewrite <- app_assoc. simpl. f_equal. f_equal. apply filter_ext_in'. intros a.
      rewrite mem_app. simpl. rewrite orb_false_r.
      destruct (text_eqb_spec a k) as [->|Hne].
      * rewrite text_eqb_refl, orb_true_r. reflexivity.
      * destruct (text_eqb_spec k a); [congruence|].
        rewrite orb_false_r. reflexivity.
Qed.

Lemma filter_true {A} (l : list A) : filter (fun _ => true) l = l.
Proof. induction l; simpl; congruence. Qed.

(** The keys come in the order of their first occurrence among the members. *)
Lemma dict_keys_order pairs :
  dict_keys (dict pairs) = first_occurrences (map fst pairs).
Proof. unfold dict. rewrite dict_keys_fold. simpl. apply filter_true. Qed.

Lemma first_occurrences_In k ks : In k (first_occurrences ks) <-> In k ks.
Proof.
  induction ks as [|k0 ks IH]; simpl; [tauto|].
  rewrite filter_In, IH. split.
  - intros [H | [H _]]; auto.
  - intros [H | H]; [auto|].
    destruct (text_eqb_spec k0 k); [left; assumption | right; split; [assumption | reflexivity]].
Qed.


Lemma mem_In k ks : mem k ks = true <-> In k ks.
Proof.
  unfold mem. rewrite existsb_exists. split.
  - intros (x & Hx & E). destruct (text_eqb_spec k x); [subst; exact Hx | discriminate].
  - intros H. exists k. split; [exact H | apply text_eqb_refl].
Qed.

Lemma text_eqb_sym a b : text_eqb a b = text_eqb b a.
Proof. destruct (text_eqb_spec a b), (text_eqb_spec b a); congruence. Qed.

(** *** The dictionary of the decoder is the dictionary of the members *)

Lemma first_occurrences_spec ks : forall seen,
  JsonRfc.FirstOccurrences seen ks
    (filter (fun k => negb (mem k seen)) (first_occurrences ks)).
Proof.
  induction ks as [|k ks IH]; intros seen; simpl; [constructor|].
  rewrite filter_filter. destruct (mem k seen) eqn:Hk; simpl.
  - apply JsonRfc.FO_old; [apply mem_In, Hk|].
    rewrite (filter_ext_in' _ (fun a => negb (mem a seen))); [apply IH|].
    intros a. destruct (text_eqb_spec k a); [|reflexivity]. subst a. rewrite Hk. reflexivity.
  - apply JsonRfc.FO_new.
    + intros H. apply mem_In in H. congruence.
    + rewrite (filter_ext_in' _ (fun a => negb (mem a (k :: seen)))); [apply IH|].
      intros a. unfold mem. simpl. rewrite (text_eqb_sym a k).
      destruct (text_eqb k a); reflexivity.
Qed.

Lemma FirstOccurrences_unique seen ks out1 :
  JsonRfc.FirstOccurrences seen ks out1 ->
  forall out2, JsonRfc.FirstOccurrences seen ks out2 -> out1 = out2.
Proof.
  induction 1 as [seen | seen k ks out Hk _ IH | seen k ks out Hk _ IH];
    intros out2 H2; inversion H2; subst; try contradiction.
  - reflexivity.
  - f_equal. apply IH. assumption.
  - apply IH. assumption.
Qed.

Lemma FirstOccurrences_keys seen ks out :
  JsonRfc.FirstOccurrences seen ks out ->
  NoDup out /\ forall k, In k out <-> In k ks /\ ~ In k seen.
Proof.
  induction 1 as [seen | seen k ks out Hk _ [IH1 IH2] | seen k ks out Hk _ [IH1 IH2]].
  - split; [constructor | simpl; tauto].
  - split.
    + constructor; [|exact IH1]. intros H. apply IH2 in H as [_ H]. apply H. left. reflexivity.
    + intros k'. simpl. rewrite IH2. simpl.
      destruct (list_eq_dec N.eq_dec k k') as [->|Hne]; [tauto|]. tauto.
  - split; [exact IH1|]. intros k'. rewrite IH2. simpl.
    split; [tauto|]. intros [[->|H] Hn]; [contradiction | tauto].
Qed.

Lemma last_value_snoc k pairs k' v' :
  last_value k (pairs ++ [(k', v')]) =
  if text_eqb k k' then Some v' else last_value k pairs.
Proof. unfold last_value. rewrite fold_left_app. reflexivity. Qed.

Lemma last_value_after k (after : list (text * value)) : forall acc : option value,
  ~ In k (map fst after) ->
  fold_left (fun acc kv => if text_eqb k (fst kv) then Some (snd kv) else acc) after acc
  = acc.
Proof.
  induction after as [|[k' v'] after IH]; intros acc Hn; simpl; [reflexivity|].
  simpl in Hn. destruct (text_eqb_spec k k'); [subst; tauto|]. apply IH. tauto.
Qed.

Lemma last_value_LastValue pairs k v :
  last_value k pairs = Some v <-> JsonRfc.LastValue pairs k v.
Proof.
  split.
  - revert v. induction pairs as [|[k' v'] pairs IH] using rev_ind; intros v H;
      [discriminate|].
    rewrite last_value_snoc in H. destruct (text_eqb_spec k k').
    + subst k'. inversion H; subst v'. exists pairs, []. split; [reflexivity|].
      simpl. tauto.
    + apply IH in H as (before & after & -> & Hn).
      exists before, (after ++ [(k', v')]). split.
      * rewrite <- app_assoc. reflexivity.
      * rewrite map_app, in_app_iff. simpl. intros [H | [H | []]]; [tauto | congruence].
  - intros (before & after & -> & Hn). unfold last_value.
    rewrite fold_left_app. simpl. rewrite text_eqb_refl. apply last_value_after, Hn.
Qed.

Lemma In_dict_get d k v :
  NoDup (map fst d) -> In (k, v) d -> dict_get k d = Some v.
Proof.
  induction d as [|[k' v'] d IH]; simpl; intros Hnd H; [contradiction|].
  inversion Hnd as [|? ? Hk Hnd']; subst. destruct H as [H | H].
  - inversion H; subst. rewrite text_eqb_refl. reflexivity.
  - destruct (text_eqb_spec k k').
    + subst k'. exfalso. apply Hk. apply (in_map fst) in H. exact H.
    + apply IH; assumption.
Qed.

(** The decoder's dictionary holds the keys of the members in the order of
    their first occurrence, each with the value of its last member. *)
Lemma IsDict_dict pairs : JsonRfc.IsDict pairs (dict pairs).
Proof.
  assert (Hk : JsonRfc.FirstOccurrences [] (map fst pairs) (map fst (dict pairs))).
  { pose proof (first_occurrences_spec (map fst pairs) []) as H.
    rewrite (filter_ext_in' _ (fun _ => true)) in H by reflexivity.
    rewrite filter_true in H. rewrite <- dict_keys_order in H. exact H. }
  split; [exact Hk|]. intros k v H.
  apply last_value_LastValue. rewrite <- dict_get_last.
  apply In_dict_get; [|exact H]. apply (FirstOccurrences_keys _ _ _ Hk).
Qed.

Lemma same_keys_same_values (f : text -> option value) d1 :
  forall d2, map fst d1 = map fst d2 ->
    (forall k v, In (k, v) d1 -> f k = Some v) ->
    (forall k v, In (k, v) d2 -> f k = Some v) -> d1 = d2.
Proof.
  induction d1 as [|[k1 v1] d1 IH]; intros [|[k2 v2] d2] E H1 H2;
    try discriminate; [reflexivity|].
  simpl in E. inversion E; subst k2.
  assert (v1 = v2).
  { specialize (H1 k1 v1 (or_introl eq_refl)). specialize (H2 k1 v2 (or_introl eq_refl)).
    congruence. }
  subst v2. f_equal. apply IH; [assumption | |]; intros k v H; [apply H1 | apply H2];
    right; exact H.
Qed.

(** And it is the only one that does. *)
Lemma IsDict_unique pairs dct : JsonRfc.IsDict pairs dct -> dct = dict pairs.
Proof.
  intros [Hk Hv]. destruct (IsDict_dict pairs) as [Hk' Hv'].
  apply (same_keys_same_values (fun k => last_value k pairs)).
  - apply (FirstOccurrences_unique _ _ _ Hk _ Hk').
  - intros k v H. apply last_value_LastValue, Hv, H.
  - intros k v H. apply last_value_LastValue, Hv', H.
Qed.

End DictFacts.
(** ** The decoder's shapes are the grammar *)

Module RfcFacts.
Import Json JsonGrammar JsonSpecs JsonLexFacts JsonNumberFacts JsonValueFacts
  JsonLimitFacts DictFacts.

Local Open Scope N_scope.

(** *** Characters *)

Lemma is_ws_iff c : is_ws c = true <-> JsonRfc.ws c.
Proof. unfold JsonRfc.ws. chars; tauto. Qed.

Lemma WS_iff w : WS w <-> JsonRfc.Ws w.
Proof.
  unfold WS, JsonRfc.Ws. rewrite forallb_forall, Forall_forall.
  split; intros H x Hx; apply is_ws_iff, H, Hx.
Qed.

Lemma is_digit_iff c : is_digit c = true <-> JsonRfc.digit c.
Proof. unfold JsonRfc.digit. chars; tauto. Qed.

Lemma all_digits_iff d : forallb is_digit d = true <-> Forall JsonRfc.digit d.
Proof.
  rewrite forallb_forall, Forall_forall.
  split; intros H x Hx; apply is_digit_iff, H, Hx.
Qed.

Lemma Digits_iff d : Digits d <-> JsonRfc.Digits d.
Proof. unfold Digits, JsonRfc.Digits. rewrite all_digits_iff. tauto. Qed.

(** *** Integers *)

Lemma int_of_digits_snoc d c :
  int_of_digits (d ++ [c]) = (10 * int_of_digits d + digit_val c)%Z.
Proof. unfold int_of_digits. rewrite fold_left_app. reflexivity. Qed.

Lemma DigitsValue_iff d z :
  JsonRfc.DigitsValue d z <->
  d <> [] /\ forallb is_digit d = true /\ z = int_of_digits d.
Proof.
  split.
  - induction 1 as [c Hc | d z c _ (IH1 & IH2 & IH3) Hc].
    + split; [discriminate|]. split.
      * simpl. rewrite (proj2 (is_digit_iff c) Hc). reflexivity.
      * unfold int_of_digits, digit_val. simpl. lia.
    + split; [destruct d; discriminate|]. split.
      * rewrite forallb_app, IH2. simpl. rewrite (proj2 (is_digit_iff c) Hc). reflexivity.
      * rewrite int_of_digits_snoc, <- IH3. reflexivity.
  - revert z. induction d as [|c d IH] using rev_ind; intros z (Hne & Hd & ->);
      [congruence|].
    rewrite forallb_app in Hd. apply andb_true_iff in Hd as [Hd Hc].
    simpl in Hc. rewrite andb_true_r in Hc. apply is_digit_iff in Hc.
    rewrite int_of_digits_snoc. destruct d as [|c0 d].
    + simpl. replace (10 * int_of_digits [] + digit_val c)%Z with (Z.of_N c - 48)%Z
        by (unfold int_of_digits, digit_val; simpl; lia).
      constructor. exact Hc.
    + unfold digit_val. apply JsonRfc.DV_more; [|exact Hc].
      apply IH. split; [discriminate|]. split; [exact Hd | reflexivity].
Qed.

Lemma Natural_iff u z :
  JsonRfc.Natural u z <-> Unsigned u /\ z = int_of_digits u.
Proof.
  split.
  - intros [|c d z' Hc Hd].
    + split; [constructor | reflexivity].
    + apply DigitsValue_iff in Hd as (_ & Hd & ->). split; [|reflexivity].
      simpl in Hd. apply andb_true_iff in Hd as [Hc' Hd].
      constructor; assumption.
  - intros [[|c d Hc Hz Hd] ->].
    + apply JsonRfc.Nat_zero.
    + apply JsonRfc.Nat_pos; [exact Hz|]. apply DigitsValue_iff.
      split; [discriminate|]. split; [|reflexivity]. simpl. rewrite Hc, Hd. reflexivity.
Qed.

Lemma Unsigned_head u :
  Unsigned u -> exists c u', u = c :: u' /\ (c =? c_minus) = false.
Proof.
  intros [|c d Hc _ _].
  - exists c_zero, []. split; reflexivity.
  - exists c, d. split; [reflexivity|]. chars.
Qed.

Lemma Integer_iff i n z :
  JsonRfc.Integer i n z <-> IntLit i /\ n = int_digits i /\ z = parse_int i.
Proof.
  split.
  - intros [u z' Hu | u z' Hu]; apply Natural_iff in Hu as [Hu ->].
    + split; [apply IL_plain, Hu|].
      destruct (Unsigned_head u Hu) as (c & u' & -> & Hc).
      unfold int_digits, parse_int. rewrite Hc. split; reflexivity.
    + split; [apply IL_minus, Hu|].
      unfold int_digits, parse_int. change (45 =? c_minus) with true.
      split; reflexivity.
  - intros ([u Hu | u Hu] & -> & ->).
    + destruct (Unsigned_head u Hu) as (c & u' & E & Hc).
      assert (E1 : int_digits u = length u) by (subst u; unfold int_digits; rewrite Hc; reflexivity).
      assert (E2 : parse_int u = int_of_digits u) by (subst u; unfold parse_int; rewrite Hc; reflexivity).
      rewrite E1, E2. apply JsonRfc.Int_plain. apply Natural_iff. split; [exact Hu | reflexivity].
    + change (int_digits (c_minus :: u)) with (length u).
      change (parse_int (c_minus :: u)) with (- int_of_digits u)%Z.
      apply (JsonRfc.Int_minus u). apply Natural_iff. split; [exact Hu | reflexivity].
Qed.

Lemma IntLit_Integer i : IntLit i -> JsonRfc.Integer i (int_digits i) (parse_int i).
Proof. intros H. apply Integer_iff. auto. Qed.

Lemma convertible_iff py i :
  int_refused py i = false <-> JsonRfc.convertible py (int_digits i).
Proof.
  unfold int_refused, JsonRfc.convertible.
  destruct (Nat.ltb_spec 640 (int_digits i));
    destruct (Nat.ltb_spec 0 (max_str_digits py));
    destruct (Nat.ltb_spec (max_str_digits py) (int_digits i)); simpl;
    split; intros; try reflexivity; try discriminate; lia.
Qed.

(** *** Fractions and exponents *)

Lemma Frac_iff f : Frac f <-> JsonRfc.Fraction f.
Proof.
  split.
  - intros [|d Hd]; [constructor|]. apply JsonRfc.Fr_some, Digits_iff, Hd.
  - intros [|d Hd]; [constructor|]. apply Frac_some, Digits_iff, Hd.
Qed.

Lemma is_e_iff c : is_e c = true <-> c = 101 \/ c = 69.
Proof. chars; tauto. Qed.

Lemma is_sign_iff c : is_sign c = true <-> c = 43 \/ c = 45.
Proof. chars; tauto. Qed.

Lemma Exp_iff e : Exp e <-> JsonRfc.Exponent e.
Proof.
  split.
  - intros [|c d Hc Hd|c sg d Hc Hs Hd].
    + constructor.
    + apply JsonRfc.Ex_unsigned; [apply is_e_iff, Hc | apply Digits_iff, Hd].
    + apply JsonRfc.Ex_signed;
        [apply is_e_iff, Hc | apply is_sign_iff, Hs | apply Digits_iff, Hd].
  - intros [|c d Hc Hd|c sg d Hc Hs Hd].
    + constructor.
    + apply Exp_unsigned; [apply is_e_iff, Hc | apply Digits_iff, Hd].
    + apply Exp_signed;
        [apply is_e_iff, Hc | apply is_sign_iff, Hs | apply Digits_iff, Hd].
Qed.

Lemma Number_iff py t v : Number py t v <-> JsonRfc.Number py t v.
Proof.
  split.
  - intros [i Hi Hr | i f e Hi Hf He Hfe].
    + apply (JsonRfc.Num_int py i (int_digits i)).
      * apply IntLit_Integer, Hi.
      * apply convertible_iff, Hr.
    + apply (JsonRfc.Num_float py i (int_digits i) (parse_int i)).
      * apply IntLit_Integer, Hi.
      * apply Frac_iff, Hf.
      * apply Exp_iff, He.
      * exact Hfe.
  - intros [i n z Hi Hc | i n z f e Hi Hf He Hfe];
      apply Integer_iff in Hi as (Hi & -> & ->).
    + apply Num_int; [exact Hi | apply convertible_iff, Hc].
    + apply Num_float; [exact Hi | apply Frac_iff, Hf | apply Exp_iff, He | exact Hfe].
Qed.

(** *** Strings *)

Lemma Escape_iff esc ch : backslash esc = Some ch <-> JsonRfc.Escape esc ch.
Proof.
  split.
  - unfold backslash. intros H.
    repeat match type of H with
           | (if ?a =? ?b then _ else _) = _ =>
               destruct (N.eqb_spec a b);
               [subst; inversion H; subst; constructor|]
           end.
    discriminate.
  - intros []; reflexivity.
Qed.

Lemma hex_val_iff c a : hex_val c = Some a <-> JsonRfc.HexDigit c a.
Proof.
  unfold hex_val. split.
  - intros H. destruct (is_digit c) eqn:H1.
    { inversion H; subst. apply is_digit_iff in H1 as [? ?]. apply JsonRfc.Hex_decimal; assumption. }
    destruct ((97 <=? c) && (c <=? 102)) eqn:H2.
    { inversion H; subst. apply andb_true_iff in H2 as [? ?].
      apply JsonRfc.Hex_lower; apply N.leb_le; assumption. }
    destruct ((65 <=? c) && (c <=? 70)) eqn:H3; [|discriminate].
    inversion H; subst. apply andb_true_iff in H3 as [? ?].
    apply JsonRfc.Hex_upper; apply N.leb_le; assumption.
  - intros [c' H1 H2 | c' H1 H2 | c' H1 H2].
    + rewrite (proj2 (is_digit_iff c')) by (split; assumption). reflexivity.
    + assert (E : is_digit c' = false) by chars. rewrite E.
      rewrite (proj2 (N.leb_le _ _) H1), (proj2 (N.leb_le _ _) H2). reflexivity.
    + assert (E : is_digit c' = false) by chars. rewrite E.
      assert (E2 : (97 <=? c') = false) by (apply N.leb_gt; lia). rewrite E2.
      rewrite (proj2 (N.leb_le _ _) H1), (proj2 (N.leb_le _ _) H2). reflexivity.
Qed.

Lemma hex4_iff h1 h2 h3 h4 u :
  hex4 h1 h2 h3 h4 = Some u <-> JsonRfc.Hex4 h1 h2 h3 h4 u.
Proof.
  unfold hex4, JsonRfc.Hex4. split.
  - intros H.
    destruct (hex_val h1) as [a|] eqn:E1; [|discriminate].
    destruct (hex_val h2) as [b|] eqn:E2; [|discriminate].
    destruct (hex_val h3) as [c|] eqn:E3; [|discriminate].
    destruct (hex_val h4) as [d|] eqn:E4; [|discriminate].
    inversion H; subst u. exists a, b, c, d.
    repeat (split; [apply hex_val_iff; assumption|]). lia.
  - intros (a & b & c & d & H1 & H2 & H3 & H4 & ->).
    apply hex_val_iff in H1, H2, H3, H4. rewrite H1, H2, H3, H4. f_equal. lia.
Qed.

Lemma high_iff u : is_high_surrogate u = true <-> JsonRfc.high u.
Proof. unfold is_high_surrogate, JsonRfc.high. chars; tauto. Qed.

Lemma low_iff u : is_low_surrogate u = true <-> JsonRfc.low u.
Proof. unfold is_low_surrogate, JsonRfc.low. chars; tauto. Qed.

Lemma lor_shiftl_10 a b : b < 1024 -> N.lor (N.shiftl a 10) b = a * 1024 + b.
Proof.
  intros Hb.
  assert (Hland : N.land (N.shiftl a 10) b = 0).
  { apply N.bits_inj. intros n. rewrite N.land_spec, N.bits_0.
    destruct (N.lt_ge_cases n 10) as [Hn | Hn].
    - rewrite N.shiftl_spec_low by exact Hn. reflexivity.
    - apply andb_false_iff. right.
      destruct (N.eq_dec b 0) as [-> | Hb0]; [apply N.bits_0|].
      apply N.bits_above_log2. apply N.log2_lt_pow2; [lia|].
      apply N.lt_le_trans with (2 ^ 10); [exact Hb|].
      apply N.pow_le_mono_r; [discriminate | exact Hn]. }
  rewrite <- N.lxor_lor by exact Hland.
  rewrite <- N.add_nocarry_lxor by exact Hland.
  rewrite N.shiftl_mul_pow2. reflexivity.
Qed.

Lemma join_surrogates_pair hi lo :
  JsonRfc.low lo -> join_surrogates hi lo = JsonRfc.pair_value hi lo.
Proof.
  unfold join_surrogates, JsonRfc.pair_value, JsonRfc.low. intros [H1 H2].
  rewrite lor_shiftl_10 by lia. lia.
Qed.

Lemma low_escape_iff src lo rest :
  low_escape src lo rest <-> JsonRfc.LowEscape src lo rest.
Proof.
  unfold low_escape, JsonRfc.LowEscape. split;
    intros (k1 & k2 & k3 & k4 & E & H1 & H2); exists k1, k2, k3, k4;
    (split; [exact E|]); (split; [apply hex4_iff, H1 | apply low_iff, H2]).
Qed.

Lemma StringBody_iff src str : StringBody src str <-> JsonRfc.StringBody src str.
Proof.
  split.
  - induction 1 as [ | c src str Hq Hb Hc _ IH | esc ch src str He _ IH
                     | h1 h2 h3 h4 uni src str Hh Hn _ IH
                     | h1 h2 h3 h4 hi lo pair src str Hh Hhi Hlo _ IH ].
    + constructor.
    + apply JsonRfc.SB_char; assumption.
    + apply JsonRfc.SB_escape; [apply Escape_iff, He | exact IH].
    + apply JsonRfc.SB_unicode; [apply hex4_iff, Hh | | exact IH].
      intros (H1 & lo & rest & H2). apply Hn. split; [apply high_iff, H1|].
      exists lo, rest. apply low_escape_iff, H2.
    + rewrite join_surrogates_pair
        by (destruct Hlo as (? & ? & ? & ? & _ & _ & H); apply low_iff, H).
      apply (JsonRfc.SB_pair h1 h2 h3 h4 hi lo pair src str);
        [apply hex4_iff, Hh | apply high_iff, Hhi | apply low_escape_iff, Hlo | exact IH].
  - induction 1 as [ | c src str Hq Hb Hc _ IH | esc ch src str He _ IH
                     | h1 h2 h3 h4 uni src str Hh Hn _ IH
                     | h1 h2 h3 h4 hi lo pair src str Hh Hhi Hlo _ IH ].
    + constructor.
    + apply SB_char; assumption.
    + apply SB_escape; [apply Escape_iff, He | exact IH].
    + apply SB_unicode; [apply hex4_iff, Hh | | exact IH].
      intros (H1 & lo & rest & H2). apply Hn. split; [apply high_iff, H1|].
      exists lo, rest. apply low_escape_iff, H2.
    + rewrite <- join_surrogates_pair by (destruct Hlo as (? & ? & ? & ? & _ & _ & H); exact H).
      apply (SB_pair h1 h2 h3 h4 hi lo pair src str);
        [apply hex4_iff, Hh | apply high_iff, Hhi | apply low_escape_iff, Hlo | exact IH].
Qed.

(** *** Values *)

Lemma Value_to_rfc py :
  (forall d t v, Value py d t v -> JsonRfc.Value py d t v) /\
  (forall d elems vs, Elements py d elems vs -> JsonRfc.Elements py d elems vs) /\
  (forall d members pairs,
     Members py d members pairs -> JsonRfc.Members py d members pairs).
Proof.
  apply Value_Elements_Members_ind.
  - intros. apply JsonRfc.V_null.
  - intros. apply JsonRfc.V_true.
  - intros. apply JsonRfc.V_false.
  - intros. apply JsonRfc.V_nan.
  - intros. apply JsonRfc.V_inf.
  - intros. apply JsonRfc.V_neg_inf.
  - intros d t v Hn. apply JsonRfc.V_number, Number_iff, Hn.
  - intros d src str Hb. apply JsonRfc.V_string, StringBody_iff, Hb.
  - intros d w Hw. apply JsonRfc.V_array_empty, WS_iff, Hw.
  - intros d w elems vs Hw _ IH. apply JsonRfc.V_array; [apply WS_iff, Hw | exact IH].
  - intros d w Hw. apply JsonRfc.V_object_empty, WS_iff, Hw.
  - intros d w members pairs Hw _ IH.
    apply (JsonRfc.V_object py d w members pairs);
      [apply WS_iff, Hw | exact IH | apply IsDict_dict].
  - intros d t v w _ IH Hw. apply JsonRfc.E_last; [exact IH | apply WS_iff, Hw].
  - intros d t v w1 w2 more vs _ IHv Hw1 Hw2 _ IH.
    apply JsonRfc.E_more; [exact IHv | apply WS_iff, Hw1 | apply WS_iff, Hw2 | exact IH].
  - intros d ksrc k w1 w2 t v w3 Hk Hw1 Hw2 _ IHv Hw3.
    apply JsonRfc.M_last;
      [apply StringBody_iff, Hk | apply WS_iff, Hw1 | apply WS_iff, Hw2 | exact IHv
       | apply WS_iff, Hw3].
  - intros d ksrc k w1 w2 t v w3 w4 more pairs Hk Hw1 Hw2 _ IHv Hw3 Hw4 _ IH.
    apply JsonRfc.M_more;
      [apply StringBody_iff, Hk | apply WS_iff, Hw1 | apply WS_iff, Hw2 | exact IHv
       | apply WS_iff, Hw3 | apply WS_iff, Hw4 | exact IH].
Qed.

Lemma Value_of_rfc py :
  (forall d t v, JsonRfc.Value py d t v -> Value py d t v) /\
  (forall d elems vs, JsonRfc.Elements py d elems vs -> Elements py d elems vs) /\
  (forall d members pairs,
     JsonRfc.Members py d members pairs -> Members py d members pairs).
Proof.
  apply JsonRfc.Value_Elements_Members_min.
  - intros. apply V_null.
  - intros. apply V_true.
  - intros. apply V_false.
  - intros. apply V_nan.
  - intros. apply V_inf.
  - intros. apply V_neg_inf.
  - intros d t v Hn. apply V_number, Number_iff, Hn.
  - intros d src str Hb. apply V_string, StringBody_iff, Hb.
  - intros d w Hw. apply V_array_empty, WS_iff, Hw.
  - intros d w elems vs Hw _ IH. apply V_array; [apply WS_iff, Hw | exact IH].
  - intros d w Hw. apply V_object_empty, WS_iff, Hw.
  - intros d w members pairs dct Hw _ IH Hd.
    rewrite (IsDict_unique _ _ Hd). apply V_object; [apply WS_iff, Hw | exact IH].
  - intros d t v w _ IH Hw. apply E_last; [exact IH | apply WS_iff, Hw].
  - intros d t v w1 w2 more vs _ IHv Hw1 Hw2 _ IH.
    apply E_more; [exact IHv | apply WS_iff, Hw1 | apply WS_iff, Hw2 | exact IH].
  - intros d ksrc k w1 w2 t v w3 Hk Hw1 Hw2 _ IHv Hw3.
    apply M_last;
      [apply StringBody_iff, Hk | apply WS_iff, Hw1 | apply WS_iff, Hw2 | exact IHv
       | apply WS_iff, Hw3].
  - intros d ksrc k w1 w2 t v w3 w4 more pairs Hk Hw1 Hw2 _ IHv Hw3 Hw4 _ IH.
    apply M_more;
      [apply StringBody_iff, Hk | apply WS_iff, Hw1 | apply WS_iff, Hw2 | exact IHv
       | apply WS_iff, Hw3 | apply WS_iff, Hw4 | exact IH].
Qed.

Lemma Document_iff py s v : Document py s v <-> JsonRfc.Document py s v.
Proof.
  split; intros (w1 & t & w2 & E & Hw1 & Hw2 & Hv); exists w1, t, w2;
    (split; [exact E|]); (split; [apply WS_iff, Hw1|]); (split; [apply WS_iff, Hw2|]).
  - apply (proj1 (Value_to_rfc py)), Hv.
  - apply (proj1 (Value_of_rfc py)), Hv.
Qed.

(** [json.loads] returns a value for the documents of the grammar that are
    within the limits of the interpreter, the value that the grammar gives
    them, and for no other text. *)
Lemma loads_document py s v : loads py s = Ok v <-> JsonRfc.Document py s v.
Proof. rewrite loads_iff. apply Document_iff. Qed.

Lemma roomy_fit py n :
  JsonRfc.roomy py n <-> (n <= nesting_limit py)%nat /\ digits_fit py n.
Proof. unfold JsonRfc.roomy, digits_fit. tauto. Qed.

(** A JSON text is a document for every interpreter whose limits its length
    does not reach. *)
Lemma Wellformed_roomy py s v :
  JsonRfc.Wellformed s v -> JsonRfc.roomy py (length s) -> JsonRfc.Document py s v.
Proof.
  intros [py' H] Hr. apply roomy_fit in Hr as [Hd Hfit].
  apply Document_iff. apply Document_iff in H.
  apply (Document_roomy py' py); assumption.
Qed.

(** An object document is a document, and its value is the dictionary of
    its members. *)
Lemma ObjectDocument_Document py s pairs :
  JsonRfc.ObjectDocument py s pairs -> JsonRfc.Document py s (JDict (dict pairs)).
Proof.
  intros (w1 & t & w2 & d & E & Hw1 & Hw2 & Hd & H). exists w1, t, w2.
  split; [exact E|]. split; [exact Hw1|]. split; [exact Hw2|]. rewrite Hd.
  destruct H as [(-> & w & Hw & ->) | (w & members & Hw & Hm & ->)].
  - apply JsonRfc.V_object_empty, Hw.
  - apply (JsonRfc.V_object py d w members pairs); [exact Hw | exact Hm | apply IsDict_dict].
Qed.

End RfcFacts.

(** ** More on path splitting *)

Module OsPathMore.
Import OsPath.

Lemma cut_without_separator p : has_sep p = false -> cut p = (EmptyString, p).
Proof.
  induction p as [|c p IH]; simpl; [reflexivity|].
  intros H. apply orb_false_iff in H as [Hc Hp].
  rewrite (IH Hp), Hc. reflexivity.
Qed.

Lemma cut_after_directory d b :
  has_sep b = false -> cut (d ++ "/" ++ b) = ((d ++ "/")%string, b).
Proof.
  intros Hb. induction d as [|c d IH]; simpl.
  - rewrite (cut_without_separator b Hb). reflexivity.
  - simpl in IH. rewrite IH. destruct d; reflexivity.
Qed.

Lemma split_tail_is_cut_tail p : snd (split p) = snd (cut p).
Proof. unfold split. destruct (cut p). reflexivity. Qed.

(** X1. A path with no separator is all tail: its head is empty. *)
Theorem split_without_separator p :
  has_sep p = false -> split p = (EmptyString, p).
Proof.
  intros H. unfold split. rewrite (cut_without_separator p H). reflexivity.
Qed.

(** X2. The tail is what follows the last separator, whatever stands before
    it; after a trailing separator it is empty. *)
Theorem split_tail_after_last_separator d b :
  has_sep b = false -> snd (split (d ++ "/" ++ b)) = b.
Proof.
  intros H. rewrite split_tail_is_cut_tail, (cut_after_directory d b H). reflexivity.
Qed.

Lemma split_without_separator_witness : split "notes.txt" = (EmptyString, "notes.txt").
Proof. apply (split_without_separator "notes.txt"). reflexivity. Defined.

Lemma split_tail_after_last_separator_witness :
  snd (split "/srv/data/") = EmptyString /\ snd (split "/srv/data/a.json") = "a.json".
Proof.
  split.
  - apply (split_tail_after_last_separator "/srv/data" EmptyString). reflexivity.
  - apply (split_tail_after_last_separator "/srv/data" "a.json"). reflexivity.
Defined.

End OsPathMore.

(** ** Every run of the upload *)

Module UploadRuns.
Import Upload UploadLog.

Section Client.
Variables R Err Out : Type.
Variable owncloud_Client : string -> Client R Err Out.

Let oc := owncloud_Client endpoint.

(** The loop either gets through the whole list or stops at the first put
    that raises. *)
Lemma loop_cases collection xs : forall r acc t,
  (exists outs r',
     puts_ok oc collection xs r outs r' /\
     Eff.for_each xs (loop_body R Err Out oc collection) acc
       {| outside := r; trace := t |} =
     (inr (acc_after Out acc outs),
      {| outside := r'; trace := t ++ ok_events collection xs outs |})) \/
  (exists pre x post outs r1 e r2,
     xs = pre ++ x :: post /\
     puts_ok oc collection pre r outs r1 /\
     put_file oc (owncloud_name collection (snd (OsPath.split x))) x r1 = (inl e, r2) /\
     Eff.for_each xs (loop_body R Err Out oc collection) acc
       {| outside := r; trace := t |} =
     (inl (ClientError e),
      {| outside := r2;
         trace := t ++ ok_events collection pre outs
                    ++ put_events collection x (inl e) |})).
Proof.
  induction xs as [|x xs IH]; intros r acc t.
  - left. exists [], r. split; [constructor|].
    apply UploadFacts.loop_all_ok. constructor.
  - destruct (put_file oc (owncloud_name collection (snd (OsPath.split x))) x r)
      as [[e | o] r1] eqn:Hx.
    + right. exists [], x, xs, [], r, e, r1.
      split; [reflexivity|]. split; [constructor|]. split; [exact Hx|].
      apply (UploadFacts.loop_put_raises R Err Out owncloud_Client collection [] x xs
               r [] r e r1 acc t); [constructor | exact Hx].
    + destruct (IH r1 (Some o) t) as [(outs & r' & Hp & _) | (pre & y & post & outs & r2 & e & r3 & E & Hp & Hy & _)].
      * left. exists (o :: outs), r'.
        assert (Hall : puts_ok oc collection (x :: xs) r (o :: outs) r')
          by (econstructor; eassumption).
        split; [exact Hall|]. apply UploadFacts.loop_all_ok, Hall.
      * right. exists (x :: pre), y, post, (o :: outs), r2, e, r3.
        assert (Hpre : puts_ok oc collection (x :: pre) r (o :: outs) r2)
          by (econstructor; eassumption).
        split; [rewrite E; reflexivity|]. split; [exact Hpre|]. split; [exact Hy|].
        rewrite E. change (x :: pre ++ y :: post) with ((x :: pre) ++ y :: post).
        apply (UploadFacts.loop_put_raises R Err Out owncloud_Client
                 collection (x :: pre) y post r (o :: outs) r2 e r3 acc t);
          assumption.
Qed.

Lemma acc_after_nonempty acc (outs : list Out) :
  outs <> [] -> exists earlier o, outs = earlier ++ [o] /\ acc_after Out acc outs = Some o.
Proof.
  intros H. destruct (exists_last H) as (earlier & o & ->).
  exists earlier, o. split; [reflexivity | apply UploadFacts.acc_after_last].
Qed.

(** The ways a run can go: the login raises; or it goes through, the
    [mkdir] is answered one way or the other, and the loop gets through the
    list or stops at a put that raises. *)
Lemma upload_cases files user pw folder r0 :
  let run := upload_files_to_owncloud owncloud_Client files user pw folder (start r0) in
  (exists e r1,
     login oc user pw r0 = (inl e, r1) /\
     run = (inl (ClientError e),
            {| outside := r1; trace := [ELogin endpoint user pw (inl e)] |})) \/
  (exists r1 mk r2 outs r3,
     login oc user pw r0 = (inr tt, r1) /\
     mkdir oc folder r1 = (mk, r2) /\
     puts_ok oc folder files r2 outs r3 /\
     run = (match acc_after Out None outs with
            | Some o => inr o
            | None => inl (UnboundLocalError "result")
            end,
            {| outside := r3;
               trace := [ELogin endpoint user pw (inr tt); EMkdir endpoint folder mk]
                        ++ ok_events folder files outs |})) \/
  (exists r1 mk r2 pre x post outs r3 e r4,
     login oc user pw r0 = (inr tt, r1) /\
     mkdir oc folder r1 = (mk, r2) /\
     files = pre ++ x :: post /\
     puts_ok oc folder pre r2 outs r3 /\
     put_file oc (owncloud_name folder (snd (OsPath.split x))) x r3 = (inl e, r4) /\
     run = (inl (ClientError e),
            {| outside := r4;
               trace := [ELogin endpoint user pw (inr tt); EMkdir endpoint folder mk]
                        ++ ok_events folder pre outs
                        ++ put_events folder x (inl e) |})).
Proof.
  intros run. subst run.
  destruct (login oc user pw r0) as [[e | []] r1] eqn:Hl.
  - left. exists e, r1. split; [reflexivity|].
    unfold upload_files_to_owncloud. unfold Eff.bind at 1. unfold call at 1.
    fold oc. simpl. rewrite Hl. reflexivity.
  - right. destruct (mkdir oc folder r1) as [mk r2] eqn:Hm.
    rewrite (UploadFacts.upload_after_login R Err Out owncloud_Client
               files user pw folder r0 r1 mk r2 Hl Hm).
    fold oc.
    destruct (loop_cases folder files r2 None
                [ELogin endpoint user pw (inr tt); EMkdir endpoint folder mk])
      as [(outs & r3 & Hp & Hrun) | (pre & x & post & outs & r3 & e & r4 & E & Hp & Hx & Hrun)].
    + left. exists r1, mk, r2, outs, r3. repeat split; try assumption.
      unfold Eff.bind. rewrite Hrun.
      destruct (acc_after Out None outs); reflexivity.
    + right. exists r1, mk, r2, pre, x, post, outs, r3, e, r4.
      repeat split; try assumption.
      unfold Eff.bind. rewrite Hrun. reflexivity.
Qed.

Lemma acc_after_none (outs : list Out) : acc_after Out None outs = None -> outs = [].
Proof.
  intros H. destruct outs as [|o outs]; [reflexivity|].
  destruct (acc_after_nonempty None (o :: outs)) as (? & ? & _ & E); [discriminate|].
  congruence.
Qed.

(** X3. The function returns a value only after a login that went through
    and a successful put of every file of a non-empty list, and the value is
    then the outcome of the last of these puts. *)
Theorem upload_returns_only_after_all_puts files user pw folder r0 o :
  fst (upload_files_to_owncloud owncloud_Client files user pw folder (start r0)) = inr o ->
  files <> [] /\
  exists r1 mk r2 earlier r3,
    login oc user pw r0 = (inr tt, r1) /\
    mkdir oc folder r1 = (mk, r2) /\
    puts_ok oc folder files r2 (earlier ++ [o]) r3.
Proof.
  intros H.
  destruct (upload_cases files user pw folder r0)
    as [(e & r1 & _ & Hrun)
       | [(r1 & mk & r2 & outs & r3 & Hl & Hm & Hp & Hrun)
         | (r1 & mk & r2 & pre & x & post & outs & r3 & e & r4 & _ & _ & _ & _ & _ & Hrun)]];
    rewrite Hrun in H; simpl in H; try discriminate.
  destruct outs as [|o1 outs].
  - discriminate.
  - destruct (acc_after_nonempty None (o1 :: outs)) as (earlier & o' & E & Ha);
      [discriminate|].
    rewrite Ha in H. inversion H; subst o'. split.
    + intros ->. inversion Hp.
    + exists r1, mk, r2, earlier, r3. rewrite <- E. auto.
Qed.

(** X4. The error for the unbound local [result] arises for the empty list
    and for no other: with at least one file the function returns or raises
    an error of the client. *)
Theorem upload_unbound_only_for_empty_list files user pw folder r0 name :
  fst (upload_files_to_owncloud owncloud_Client files user pw folder (start r0))
    = inl (UnboundLocalError name) ->
  files = [] /\ name = "result".
Proof.
  intros H.
  destruct (upload_cases files user pw folder r0)
    as [(e & r1 & _ & Hrun)
       | [(r1 & mk & r2 & outs & r3 & Hl & Hm & Hp & Hrun)
         | (r1 & mk & r2 & pre & x & post & outs & r3 & e & r4 & _ & _ & _ & _ & _ & Hrun)]];
    rewrite Hrun in H; simpl in H; try discriminate.
  destruct (acc_after Out None outs) eqn:Ha; [discriminate|].
  apply acc_after_none in Ha. subst outs. inversion Hp; subst. inversion H. auto.
Qed.

Lemma puts_of_app (a b : list (event Err Out)) : puts_of (a ++ b) = puts_of a ++ puts_of b.
Proof.
  induction a as [|ev a IH]; simpl; [reflexivity|].
  destruct (put_target ev); simpl; rewrite IH; reflexivity.
Qed.

Lemma puts_of_ok_events folder xs : forall outs : list Out,
  length outs = length xs ->
  puts_of (@ok_events Err Out folder xs outs) = map (target folder) xs.
Proof.
  induction xs as [|x xs IH]; intros [|o outs] H; simpl in *; try discriminate.
  - reflexivity.
  - rewrite IH by congruence. reflexivity.
Qed.

(** X5. Whatever happens, the puts the function attempts are the files of
    the list from its start on, in the order of the list, each once and under
    its own remote name: no file is put twice, out of turn, or without being
    listed. *)
Theorem upload_puts_follow_the_list files user pw folder r0 :
  exists rest,
    puts_of (trace (snd (upload_files_to_owncloud owncloud_Client files user pw folder
                           (start r0)))) ++ rest
    = map (target folder) files.
Proof.
  destruct (upload_cases files user pw folder r0)
    as [(e & r1 & _ & Hrun)
       | [(r1 & mk & r2 & outs & r3 & _ & _ & Hp & Hrun)
         | (r1 & mk & r2 & pre & x & post & outs & r3 & e & r4 & _ & _ & E & Hp & _ & Hrun)]];
    rewrite Hrun; simpl.
  - exists (map (target folder) files). reflexivity.
  - exists []. rewrite app_nil_r. apply puts_of_ok_events.
    apply (UploadFacts.puts_ok_length R Err Out owncloud_Client folder files r2 outs r3 Hp).
  - exists (map (target folder) post). rewrite puts_of_app, puts_of_ok_events.
    + subst files. rewrite map_app. simpl. rewrite <- app_assoc. reflexivity.
    + apply (UploadFacts.puts_ok_length R Err Out owncloud_Client folder pre r2 outs r3 Hp).
Qed.

Lemma ok_events_quiet folder xs : forall outs : list Out,
  existsb is_login (@ok_events Err Out folder xs outs) = false /\
  existsb is_mkdir (@ok_events Err Out folder xs outs) = false.
Proof.
  induction xs as [|x xs IH]; intros [|o outs]; simpl; auto.
Qed.

(** X6. Every run starts with one login, with the credentials given, and
    logs in no second time; after a login that raised nothing follows; after
    one that went through comes one [mkdir] of the folder, and no other. *)
Theorem upload_log_shape files user pw folder r0 :
  exists res rest,
    trace (snd (upload_files_to_owncloud owncloud_Client files user pw folder (start r0)))
      = ELogin endpoint user pw res :: rest /\
    existsb is_login rest = false /\
    match res with
    | inl _ => rest = []
    | inr _ => exists mk rest',
        rest = EMkdir endpoint folder mk :: rest' /\ existsb is_mkdir rest' = false
    end.
Proof.
  destruct (upload_cases files user pw folder r0)
    as [(e & r1 & _ & Hrun)
       | [(r1 & mk & r2 & outs & r3 & _ & _ & Hp & Hrun)
         | (r1 & mk & r2 & pre & x & post & outs & r3 & e & r4 & _ & _ & E & Hp & _ & Hrun)]];
    rewrite Hrun; simpl.
  - exists (inl e), []. auto.
  - destruct (ok_events_quiet folder files outs) as [H1 H2].
    exists (inr tt), (EMkdir endpoint folder mk :: ok_events folder files outs).
    split; [reflexivity|]. split; [exact H1|].
    exists mk, (ok_events folder files outs). auto.
  - destruct (ok_events_quiet folder pre outs) as [H1 H2].
    exists (inr tt),
      (EMkdir endpoint folder mk
       :: ok_events folder pre outs ++ put_events folder x (inl e)).
    split; [reflexivity|]. split.
    + simpl. rewrite existsb_app, H1. reflexivity.
    + exists mk, (ok_events folder pre outs ++ put_events folder x (inl e)).
      split; [reflexivity|]. rewrite existsb_app, H2. reflexivity.
Qed.

(** X7. The directory of a local path plays no part in the remote name: one
    pass of the loop for the path [d/b] announces [b] and puts the file under
    [folder/b], so that files of the same name from different directories go
    to the same remote object. *)
Theorem upload_name_ignores_directory folder d b (acc : option Out) w :
  OsPath.has_sep b = false ->
  loop_body R Err Out oc folder (d ++ "/" ++ b) acc w =
  Eff.bind (print R Err Out ("uploading " ++ b ++ " to " ++ folder ++ "/" ++ b))
    (fun _ =>
       Eff.bind (call R Err Out (put_file oc (folder ++ "/" ++ b) (d ++ "/" ++ b))
                   (EPut endpoint (folder ++ "/" ++ b) (d ++ "/" ++ b)))
         (fun r => Eff.ret (Some r))) w.
Proof.
  intros H. unfold loop_body.
  rewrite OsPathMore.split_tail_is_cut_tail, (OsPathMore.cut_after_directory d b H).
  reflexivity.
Qed.

End Client.

(** *** On the demonstration endpoint *)

Lemma upload_returns_only_after_all_puts_witness :
  ["/data/a.json"; "/srv/x/c.json"] <> [] /\
  exists r1 mk r2 earlier r3,
    DemoCloud.login "alice" "s3cret" DemoCloud.empty = (inr tt, r1) /\
    DemoCloud.mkdir "pfp-data" r1 = (mk, r2) /\
    puts_ok (DemoCloud.client endpoint) "pfp-data" ["/data/a.json"; "/srv/x/c.json"]
      r2 (earlier ++ [2%nat]) r3.
Proof.
  apply (upload_returns_only_after_all_puts _ _ _ DemoCloud.client
           ["/data/a.json"; "/srv/x/c.json"] "alice" "s3cret" "pfp-data"
           DemoCloud.empty 2%nat).
  reflexivity.
Defined.

Lemma upload_unbound_only_for_empty_list_witness :
  @nil string = [] /\ "result" = "result".
Proof.
  apply (upload_unbound_only_for_empty_list _ _ _ DemoCloud.client
           [] "alice" "s3cret" "pfp-data" DemoCloud.empty "result").
  reflexivity.
Defined.

Lemma upload_name_ignores_directory_witness :
  DemoCloud.objects
    (outside (snd (loop_body _ _ _ (DemoCloud.client endpoint) "pfp-data"
                     "/srv/x/a.json" None (start DemoCloud.with_folder))))
  = [("pfp-data/a.json", "/srv/x/a.json")].
Proof.
  change "/srv/x/a.json" with ("/srv/x" ++ "/" ++ "a.json")%string at 1.
  rewrite (upload_name_ignores_directory _ _ _ DemoCloud.client
             "pfp-data" "/srv/x" "a.json" None (start DemoCloud.with_folder) eq_refl).
  reflexivity.
Defined.

End UploadRuns.
(** ** [load_json] *)

Module LoadJsonFacts.
Import Json JsonGrammar JsonSpecs JsonValueFacts JsonLimitFacts DictFacts RfcFacts
  LoadJson.

(** What [json_load] makes of each result of the decoder: a value for the
    documents that are within the limits of the interpreter, and otherwise
    an error, which is an error of decoding unless a limit was reached,
    something that takes a text as long as the limit. *)
Lemma json_load_cases py encoding content :
  match json_load py encoding content with
  | inr v => exists s, read encoding content = inr s /\ JsonRfc.Document py s v
  | inl e =>
      ~ (exists s v, read encoding content = inr s /\ JsonRfc.Document py s v) /\
      (signal_of e = ParseError \/
       (e = RecursionError \/ e = ValueError DigitLimit) /\
       exists s, read encoding content = inr s /\ ~ JsonRfc.roomy py (length s))
  end.
Proof.
  unfold json_load. destruct (read encoding content) as [e | s] eqn:Hr.
  - unfold read in Hr. destruct (codec_decode encoding content); inversion Hr; subst.
    split; [|left; reflexivity]. intros (s & v & H & _). discriminate.
  - assert (Hlim : stopped (loads py s) -> ~ JsonRfc.roomy py (length s)).
    { intros Hs Hroom. apply roomy_fit in Hroom as [Hd Hfit].
      exact (loads_not_stopped py s Hd Hfit Hs). }
    destruct (loads py s) as [v | msg | | |] eqn:Hl;
      try (split;
           [intros (s' & v' & H & Hd); inversion H; subst s';
            apply loads_document in Hd; congruence|]).
    + exists s. split; [reflexivity | apply loads_document, Hl].
    + left. reflexivity.
    + right. split; [left; reflexivity|]. exists s. split; [reflexivity|].
      apply Hlim. left. reflexivity.
    + right. split; [right; reflexivity|]. exists s. split; [reflexivity|].
      apply Hlim. right. reflexivity.
    + exfalso. exact (loads_fuel py s Hl).
Qed.

Lemma Document_Wellformed py s v : JsonRfc.Document py s v -> JsonRfc.Wellformed s v.
Proof. intros H. exists py. exact H. Qed.

(** A text that a roomy interpreter does not load is no JSON text. *)
Lemma not_Wellformed_by_run py s :
  JsonRfc.roomy py (length s) -> (forall v, loads py s <> Ok v) ->
  forall v, ~ JsonRfc.Wellformed s v.
Proof.
  intros Hr Hl v Hw. apply (Hl v). apply loads_document.
  apply Wellformed_roomy; assumption.
Qed.

(** A text read as an object by the decoder is an object document. *)
Lemma ObjectDocument_by_run py d fuel s0 pairs :
  nesting_limit py = S d ->
  object_loop py fuel d s0 [] = Ok (pairs, []) ->
  JsonRfc.ObjectDocument py (c_lbrace :: c_quote :: s0) pairs.
Proof.
  intros Hd H. apply (proj1 (proj2 (scan_sound py fuel))) in H
    as (members & new & E1 & E2 & Hm).
  simpl in E1. subst new. apply (proj2 (proj2 (Value_to_rfc py))) in Hm.
  exists [], (c_lbrace :: c_quote :: s0), [], d.
  split; [rewrite app_nil_r; reflexivity|]. split; [constructor|].
  split; [constructor|]. split; [exact Hd|]. right.
  exists [], members. split; [constructor|]. split; [exact Hm|].
  rewrite E2. reflexivity.
Qed.



(** *** On the demonstration files *)

Lemma demo_roomy (s : text) :
  (length s <=? 60 * 100)%nat = true -> JsonRfc.roomy DemoFiles.unlimited (length s).
Proof.
  intros H. apply Nat.leb_le in H. split; [exact H | left; reflexivity].
Qed.

Lemma demo_truncated_invalid :
  ~ (exists s v, read utf_8 DemoFiles.truncated = inr s /\ JsonRfc.Wellformed s v).
Proof.
  intros (s & v & Hr & Hd). vm_compute in Hr. inversion Hr; subst s. revert Hd.
  apply (not_Wellformed_by_run DemoFiles.unlimited); [apply demo_roomy; reflexivity|].
  intros v'. vm_compute. discriminate.
Qed.

Lemma demo_trailing_invalid :
  ~ (exists s v, read utf_8 DemoFiles.trailing = inr s /\ JsonRfc.Wellformed s v).
Proof.
  intros (s & v & Hr & Hd). vm_compute in Hr. inversion Hr; subst s. revert Hd.
  apply (not_Wellformed_by_run DemoFiles.unlimited); [apply demo_roomy; reflexivity|].
  intros v'. vm_compute. discriminate.
Qed.

Lemma demo_latin_invalid :
  ~ (exists s v, read utf_8 DemoFiles.latin = inr s /\ JsonRfc.Wellformed s v).
Proof. intros (s & v & Hr & _). vm_compute in Hr. discriminate. Qed.

Lemma demo_deep_invalid :
  ~ (exists s v, read utf_8 DemoFiles.deep = inr s /\ JsonRfc.Wellformed s v).
Proof.
  intros (s & v & Hr & Hd).
  assert (E : read utf_8 DemoFiles.deep = inr (text_of_string DemoFiles.deep))
    by (vm_compute; reflexivity).
  rewrite E in Hr. inversion Hr; subst s. revert Hd.
  apply (not_Wellformed_by_run DemoFiles.unlimited);
    [apply demo_roomy; vm_compute; reflexivity|].
  intros v'. vm_compute. discriminate.
Qed.



Lemma demo_repeated_object :
  JsonRfc.ObjectDocument default_interpreter
    (text_of_string DemoFiles.repeated) DemoFiles.repeated_pairs.
Proof.
  apply (ObjectDocument_by_run default_interpreter 999 100
           (text_of_string (DemoFiles.requote "b': 1, 'a': -27, 'b': 30}"))).
  - reflexivity.
  - vm_compute. reflexivity.
Qed.



End LoadJsonFacts.

(** ** More on fetching a sheet *)

Module GsheetMore.
Import Gsheet.

Lemma length_append a b : String.length (a ++ b) = String.length a + String.length b.
Proof. induction a as [|c a IH]; simpl; [reflexivity | rewrite IH; reflexivity]. Qed.

Lemma append_cancel_l p a b : (p ++ a = p ++ b)%string -> a = b.
Proof. induction p as [|c p IH]; simpl; intros H; [exact H | inversion H; auto]. Qed.

Lemma append_cancel_r s : forall a b, (a ++ s = b ++ s)%string -> a = b.
Proof.
  induction a as [|c a IH]; intros [|d b] H; simpl in H.
  - reflexivity.
  - apply (f_equal String.length) in H. simpl in H. rewrite length_append in H. lia.
  - apply (f_equal String.length) in H. simpl in H. rewrite length_append in H. lia.
  - inversion H; subst. f_equal. apply IH. assumption.
Qed.

(** X8. The address depends on the identifier alone and tells identifiers
    apart: two sheets are never asked for at the same address. *)
Theorem sheet_url_injective a b : sheet_url a = sheet_url b -> a = b.
Proof.
  unfold sheet_url. intros H. apply append_cancel_l in H.
  apply (append_cancel_r "&output=csv"), H.
Qed.

Lemma sheet_url_injective_witness : "two" = "two".
Proof. apply (sheet_url_injective "two" "two"). reflexivity. Defined.

Section Http.
Variables Net ReqErr : Type.
Variable requests_get : string -> Net -> (ReqErr + Response) * Net.

(** X9. When the request itself raises (the server cannot be reached), the
    function raises that exception: no status is printed, and the CSV reader
    plays no part, the run being the same for every reader. *)
Theorem gsheet_transport_failure_propagates sheet_id n e n' :
  requests_get (sheet_url sheet_id) n = (inl e, n') ->
  forall pd_read_csv,
    gsheet_to_df requests_get pd_read_csv sheet_id (start n) =
    (inl (RequestException e),
     {| net := n'; trace := [EGet (sheet_url sheet_id) (inl e)] |}).
Proof.
  intros H pd. apply (GsheetFacts.fetch_unanswered Net ReqErr requests_get pd), H.
Qed.

Variable pd_read_csv : PandasCsv.bytes -> PandasCsv.exn + PandasCsv.DataFrame.
Hypothesis pandas : PandasCsv.reads_plain_tables pd_read_csv.

Lemma split_blank_lines n :
  filter (fun l => negb (PandasCsv.is_blank l))
         (PandasCsv.split_on PandasCsv.line_feed (MoreInputs.blank_lines n)) = [].
Proof. induction n as [|n IH]; simpl; [reflexivity | exact IH]. Qed.

Lemma plain_blank_lines n : PandasCsv.plain (MoreInputs.blank_lines n) = true.
Proof. induction n as [|n IH]; simpl; [reflexivity | exact IH]. Qed.

(** X10. A body of blank lines only, however many, has no header line: the
    fetch raises [EmptyDataError] after printing the status. *)
Theorem gsheet_blank_body_is_empty_data sheet_id n r n' k :
  requests_get (sheet_url sheet_id) n = (inr r, n') ->
  content r = MoreInputs.blank_lines k ->
  gsheet_to_df requests_get pd_read_csv sheet_id (start n) =
  (inl (PandasError PandasCsv.EmptyDataError),
   {| net := n';
      trace := [EGet (sheet_url sheet_id) (inr r); EPrint (status_code r)] |}).
Proof.
  intros H Hc.
  rewrite (GsheetFacts.fetch_answered Net ReqErr requests_get pd_read_csv _ _ _ _ H).
  rewrite Hc. rewrite (pandas _ (inl PandasCsv.EmptyDataError)); [reflexivity|].
  unfold PandasCsv.read_csv, PandasCsv.records.
  rewrite plain_blank_lines, split_blank_lines. reflexivity.
Qed.

Lemma type_row_length flags r :
  length flags = length r -> length (PandasCsv.type_row flags r) = length r.
Proof.
  intros H. unfold PandasCsv.type_row. rewrite length_map, length_combine. lia.
Qed.

(** X11. For a body that is a plain table the dataset is rectangular and
    complete: its columns are the fields of the first non-blank line, it has
    one row for each further non-blank line, none dropped or merged, and every
    row has one cell for each column. *)
Theorem gsheet_plain_table_is_rectangular sheet_id n r n' df :
  requests_get (sheet_url sheet_id) n = (inr r, n') ->
  PandasCsv.read_csv (content r) = Some (inr df) ->
  fst (gsheet_to_df requests_get pd_read_csv sheet_id (start n)) = inr df /\
  PandasCsv.columns df = hd [] (PandasCsv.records (content r)) /\
  length (PandasCsv.rows df) = length (tl (PandasCsv.records (content r))) /\
  Forall (fun row => length row = length (PandasCsv.columns df)) (PandasCsv.rows df).
Proof.
  intros H Hdf.
  rewrite (GsheetFacts.fetch_answered Net ReqErr requests_get pd_read_csv _ _ _ _ H).
  rewrite (pandas _ _ Hdf). split; [reflexivity|].
  unfold PandasCsv.read_csv in Hdf.
  destruct (PandasCsv.plain (content r)); [|discriminate].
  destruct (PandasCsv.records (content r)) as [|header data_rows]; [discriminate|].
  match type of Hdf with (if ?c then _ else _) = _ => destruct c eqn:Hc end;
    [|discriminate].
  inversion Hdf; subst df; clear Hdf. simpl.
  apply andb_true_iff in Hc as [_ Hlen].
  split; [reflexivity|]. split; [apply length_map|].
  rewrite Forall_forall. intros row Hrow. apply in_map_iff in Hrow as (src & <- & Hsrc).
  rewrite forallb_forall in Hlen. specialize (Hlen src Hsrc).
  apply Nat.eqb_eq in Hlen.
  rewrite type_row_length; [exact Hlen|].
  rewrite length_map, length_seq. symmetry. exact Hlen.
Qed.

End Http.

(** *** On the demonstration web *)

Lemma gsheet_transport_failure_propagates_witness :
  DemoWeb.fetch "offline" (start 0%nat) =
  (inl (RequestException DemoWeb.ConnectionError),
   {| net := 0%nat; trace := [EGet (sheet_url "offline") (inl DemoWeb.ConnectionError)] |}).
Proof.
  apply (gsheet_transport_failure_propagates nat DemoWeb.err DemoWeb.requests_get
           "offline" 0%nat DemoWeb.ConnectionError 0%nat eq_refl PandasCsv.demo_read_csv).
Defined.

Lemma gsheet_blank_body_is_empty_data_witness :
  gsheet_to_df MoreInputs.blank_web PandasCsv.demo_read_csv "any" (start 0%nat) =
  (inl (PandasError PandasCsv.EmptyDataError),
   {| net := 1%nat;
      trace := [EGet (sheet_url "any")
                  (inr {| status_code := 200; content := MoreInputs.blank_lines 3 |});
                EPrint 200] |}).
Proof.
  apply (gsheet_blank_body_is_empty_data nat DemoWeb.err MoreInputs.blank_web
           PandasCsv.demo_read_csv PandasCsvFacts.demo_reads_plain_tables
           "any" 0%nat {| status_code := 200; content := MoreInputs.blank_lines 3 |}
           1%nat 3%nat eq_refl eq_refl).
Defined.

Lemma gsheet_plain_table_is_rectangular_witness :
  exists df,
    fst (DemoWeb.fetch "two" (start 0%nat)) = inr df /\
    length (PandasCsv.rows df) = 2%nat /\
    Forall (fun row => length row = 2%nat) (PandasCsv.rows df).
Proof.
  eexists.
  destruct (gsheet_plain_table_is_rectangular nat DemoWeb.err DemoWeb.requests_get
              PandasCsv.demo_read_csv PandasCsvFacts.demo_reads_plain_tables
              "two" 0%nat {| status_code := 200; content := DemoWeb.two_rows |} 1%nat
              _ eq_refl eq_refl) as (H1 & _ & H3 & H4).
  split; [exact H1|]. split; [exact H3 | exact H4].
Defined.

End GsheetMore.

(** ** More on loading *)

Module LoadJsonMore.
Import Json JsonGrammar JsonSpecs JsonLexFacts JsonNumberFacts JsonStringFacts
  JsonValueFacts RfcFacts LoadJson MoreInputs.

Local Open Scope N_scope.

Lemma load_json_returns py file_path (encoding : codec) (fs : filesystem) v :
  load_json py file_path encoding fs = inr v <->
  exists content s,
    fs file_path = File content /\ read encoding content = inr s /\ Document py s v.
Proof.
  unfold load_json, open_r. split.
  - intros H. destruct (fs file_path) as [|[| | |errno|content]]; try discriminate.
    pose proof (LoadJsonFacts.json_load_cases py encoding content) as Hs.
    destruct (json_load py encoding content) as [e | v']; [discriminate|].
    inversion H; subst v'. destruct Hs as (s & Hr & Hd). exists content, s.
    split; [reflexivity|]. split; [exact Hr | apply Document_iff, Hd].
  - intros (content & s & Hf & Hr & Hd). rewrite Hf. unfold json_load. rewrite Hr.
    apply (proj2 (loads_iff _ _ _)) in Hd. rewrite Hd. reflexivity.
Qed.

Lemma load_json_decoder_error py file_path (encoding : codec) (fs : filesystem)
    content s msg :
  fs file_path = File content -> read encoding content = inr s ->
  loads py s = Error msg ->
  load_json py file_path encoding fs = inl (JSONDecodeError msg).
Proof.
  intros Hf Hr Hl. unfold load_json, open_r, json_load. rewrite Hf, Hr, Hl. reflexivity.
Qed.


Lemma skip_ws_all s : WS s -> skip_ws s = [].
Proof. intros H. rewrite <- (app_nil_r s). apply skip_ws_app, H. Qed.

Lemma loads_blank py s : WS s -> loads py s = Error msg_value.
Proof.
  intros H. unfold loads, decode.
  assert (E : res_bind (scan_once py (2 * length s + 2) (nesting_limit py) (skip_ws s))
                (fun '(obj, rest) =>
                   match skip_ws rest with [] => Ok obj | _ :: _ => Error msg_extra end)
              = Error msg_value).
  { rewrite (skip_ws_all s H). rewrite Nat.add_comm. reflexivity. }
  destruct s as [|c s']; [exact E|].
  apply WS_cons in H as [Hc _].
  destruct (N.eqb_spec c c_bom); [subst c; discriminate | exact E].
Qed.


Lemma read_utf8_bom rest :
  read utf_8 (utf8_bom rest) =
  match utf8_decode (byte_values rest) with
  | Some s => inr (c_bom :: universal_newlines s)
  | None => inl UnicodeDecodeError
  end.
Proof.
  unfold read, utf_8, codec_decode, utf8_bom.
  change (byte_values (String (ascii_of_nat 239)
            (String (ascii_of_nat 187) (String (ascii_of_nat 191) rest))))
    with (239 :: 187 :: 191 :: byte_values rest).
  change (utf8_decode (239 :: 187 :: 191 :: byte_values rest))
    with (option_map (cons 65279) (utf8_decode (byte_values rest))).
  destruct (utf8_decode (byte_values rest)); reflexivity.
Qed.

(** X14. A file that starts with the UTF-8 byte order mark is never loaded
    when read as [utf-8]: when the bytes after the mark are UTF-8, valid JSON
    included, the decoder refuses the mark; when they are not, reading
    fails. *)
Theorem load_json_utf8_bom py file_path (fs : filesystem) rest :
  fs file_path = File (utf8_bom rest) ->
  load_json py file_path utf_8 fs =
  inl (match utf8_decode (byte_values rest) with
       | Some _ => JSONDecodeError msg_bom
       | None => UnicodeDecodeError
       end).
Proof.
  intros Hf. unfold load_json, open_r, json_load. rewrite Hf, read_utf8_bom.
  destruct (utf8_decode (byte_values rest)); reflexivity.
Qed.

Lemma decode_extra_data py s v g :
  Document py s v ->
  match g with c :: _ => is_ws c = false | [] => False end ->
  number_ends g ->
  loads py (s ++ g) = Error msg_extra.
Proof.
  intros Hd Hg Hn. pose proof (Document_not_bom _ _ _ Hd) as Hb.
  destruct Hd as (w1 & t & w2 & -> & Hw1 & Hw2 & Hv).
  assert (E : decode py ((w1 ++ t ++ w2) ++ g) = Error msg_extra).
  { unfold decode. rewrite <- !app_assoc.
    destruct (Value_head _ _ _ _ Hv) as (c & t' & Et & Hc & _).
    rewrite Et at 2. cbn [app]. rewrite skip_ws_through by assumption.
    change (c :: t' ++ w2 ++ g) with ((c :: t') ++ w2 ++ g). rewrite <- Et.
    rewrite (proj1 (scan_complete py) _ t v Hv).
    - cbn [res_bind]. rewrite skip_ws_app by exact Hw2.
      destruct g as [|a g']; [contradiction|]. rewrite skip_ws_stay by exact Hg.
      reflexivity.
    - destruct w2 as [|a w2]; [exact Hn|]. apply WS_cons in Hw2 as [Ha _]. simpl. chars.
    - rewrite !length_app. lia. }
  unfold loads. destruct ((w1 ++ t ++ w2) ++ g) as [|c r] eqn:El; [exact E|].
  destruct (N.eqb_spec c c_bom); [|exact E]. subst c. exfalso.
  destruct (w1 ++ t ++ w2) as [|c' r']; [contradiction|].
  simpl in El. inversion El; subst. apply Hb. reflexivity.
Qed.


(** X16. Whitespace around a document changes nothing: when a file loads to
    a value, a file with the same text between more whitespace loads to the
    same value. *)
Theorem load_json_ignores_outer_whitespace
    py file_path file_path' encoding (fs : filesystem) content content' s w w' v :
  fs file_path = File content -> read encoding content = inr s ->
  fs file_path' = File content' -> read encoding content' = inr (w ++ s ++ w') ->
  WS w -> WS w' ->
  load_json py file_path encoding fs = inr v ->
  load_json py file_path' encoding fs = inr v.
Proof.
  intros Hf Hr Hf' Hr' Hw Hw' H.
  apply load_json_returns in H as (c0 & s0 & Hf0 & Hr0 & Hd).
  rewrite Hf in Hf0. inversion Hf0; subst c0. rewrite Hr in Hr0. inversion Hr0; subst s0.
  apply load_json_returns. exists content', (w ++ s ++ w').
  split; [exact Hf'|]. split; [exact Hr'|].
  destruct Hd as (w1 & t & w2 & -> & Hw1 & Hw2 & Hv).
  exists (w ++ w1), t, (w2 ++ w'). rewrite <- !app_assoc.
  split; [reflexivity|]. split; [apply WS_app; assumption|].
  split; [apply WS_app; assumption | exact Hv].
Qed.

(** *** Encodings *)

Lemma utf8_decode_ascii bs :
  forallb (fun c => c <? 128) bs = true -> utf8_decode bs = Some bs.
Proof.
  induction bs as [|b bs IH]; simpl; [reflexivity|].
  intros H. apply andb_true_iff in H as [Hb Hs]. rewrite Hb, (IH Hs). reflexivity.
Qed.

(** X17. For a file of ASCII bytes the encoding makes no difference: read as
    [utf-8] or as [latin-1], the function gives the same result. *)
Theorem load_json_ascii_encoding py file_path (fs : filesystem) content :
  fs file_path = File content -> ascii_only content = true ->
  load_json py file_path utf_8 fs = load_json py file_path latin_1 fs.
Proof.
  intros Hf Ha. unfold load_json, open_r, json_load, read. rewrite Hf.
  unfold utf_8, latin_1, codec_decode. rewrite (utf8_decode_ascii _ Ha). reflexivity.
Qed.

Ltac bounds :=
  unfold scalar_value, in_range, is_cont in *;
  repeat rewrite ?negb_true_iff, ?negb_false_iff, ?andb_true_iff, ?orb_true_iff,
    ?andb_false_iff, ?orb_false_iff, ?N.eqb_eq, ?N.eqb_neq, ?N.leb_le, ?N.leb_gt,
    ?N.ltb_lt, ?N.ltb_ge in *;
  lia.

Lemma utf8_decode_scalar_aux n : forall bs s,
  (length bs <= n)%nat -> utf8_decode bs = Some s ->
  forallb scalar_value s = true.
Proof.
  induction n as [|n IH]; intros bs s Hlen H.
  - destruct bs; [inversion H; reflexivity | simpl in Hlen; lia].
  - assert (Step : forall r (c : codepoint) s0,
              (length r <= n)%nat -> scalar_value c = true ->
              option_map (cons c) (utf8_decode r) = Some s0 ->
              forallb scalar_value s0 = true).
    { intros r c s0 Hr Hc Ho. destruct (utf8_decode r) as [s1|] eqn:Hd; [|discriminate].
      inversion Ho; subst. simpl. rewrite Hc. apply (IH r s1 Hr Hd). }
    destruct bs as [|b0 r0]; [inversion H; reflexivity|]. simpl in Hlen.
    cbn [utf8_decode] in H.
    destruct (N.ltb_spec b0 128).
    { apply (Step r0 b0 s); [lia | bounds | exact H]. }
    destruct (in_range 194 223 b0) eqn:H2.
    { destruct r0 as [|b1 r1]; [discriminate|]. simpl in Hlen.
      destruct (is_cont b1) eqn:Hc1; [|discriminate].
      eapply Step; [ | | exact H]; [lia | bounds]. }
    destruct (in_range 224 239 b0) eqn:H3.
    { destruct r0 as [|b1 [|b2 r2]]; try discriminate. simpl in Hlen.
      match type of H with (if ?c then _ else _) = _ => destruct c eqn:Hc end;
        [|discriminate].
      eapply Step; [ | | exact H]; [lia|].
      destruct (N.eqb_spec b0 224); destruct (N.eqb_spec b0 237); bounds. }
    destruct (in_range 240 244 b0) eqn:H4; [|discriminate].
    destruct r0 as [|b1 [|b2 [|b3 r3]]]; try discriminate. simpl in Hlen.
    match type of H with (if ?c then _ else _) = _ => destruct c eqn:Hc end;
      [|discriminate].
    eapply Step; [ | | exact H]; [lia|].
    destruct (N.eqb_spec b0 240); destruct (N.eqb_spec b0 244); bounds.
Qed.

(** X18. Reading as [utf-8] yields Unicode scalar values only: no code point
    above [10FFFF] and no surrogate reaches the decoder from the file. *)
Theorem utf8_read_scalar_values content s :
  read utf_8 content = inr s -> forallb scalar_value s = true.
Proof.
  unfold read, utf_8, codec_decode. intros H.
  destruct (utf8_decode (byte_values content)) as [s0|] eqn:Hd; [|discriminate].
  inversion H; subst s. clear H.
  apply (utf8_decode_scalar_aux _ _ _ (le_n _)) in Hd.
  revert Hd. generalize s0. clear.
  assert (G : forall n s0, (length s0 <= n)%nat -> forallb scalar_value s0 = true ->
                forallb scalar_value (universal_newlines s0) = true).
  { induction n as [|n IH]; intros s0 Hlen H.
    - destruct s0; [reflexivity | simpl in Hlen; lia].
    - destruct s0 as [|c s1]; [reflexivity|]. simpl in Hlen, H.
      apply andb_true_iff in H as [Hc Hs]. cbn [universal_newlines].
      destruct (c =? 13).
      + cbn [forallb]. change (scalar_value 10) with true. cbn [andb].
        destruct s1 as [|d s2]; [reflexivity|]. simpl in Hlen, Hs.
        apply andb_true_iff in Hs as [Hd Hs2].
        destruct (d =? 10).
        * apply IH; [lia | exact Hs2].
        * apply IH; [simpl; lia | simpl; rewrite Hd, Hs2; reflexivity].
      + cbn [forallb]. rewrite Hc. apply IH; [lia | exact Hs]. }
  intros s0 H. apply (G (length s0)); [apply le_n | exact H].
Qed.

(** *** Strings *)

(** X19. Strings are read in strict mode: a raw control character (a tab or
    a line break, say) after any well-formed beginning of a string is an
    error, whatever comes after it. *)
Theorem scanstring_rejects_control src str :
  StringBody src str -> forall c rest, c < 32 ->
  scanstring (src ++ c :: rest) = Error msg_control.
Proof.
  induction 1 as [ | a src str Hq Hb Hc _ IH | esc ch src str He _ IH
                 | h1 h2 h3 h4 uni src str Hh Hnp Hs IH
                 | h1 h2 h3 h4 hi lo pair src str Hh Hhi Hlo _ IH ]; intros c rest Hlt.
  - cbn [app scanstring].
    destruct (N.eqb_spec c c_quote); [chars|].
    destruct (N.eqb_spec c c_backslash); [chars|].
    destruct (N.ltb_spec c 32); [reflexivity | lia].
  - cbn [app scanstring].
    destruct (N.eqb_spec a c_quote); [contradiction|].
    destruct (N.eqb_spec a c_backslash); [contradiction|].
    destruct (N.ltb_spec a 32); [lia|].
    rewrite IH by assumption. reflexivity.
  - after_backslash. rewrite (backslash_not_u _ _ He), He, IH by assumption. reflexivity.
  - after_backslash. rewrite N.eqb_refl, Hh, IH by assumption. cbn [res_bind].
    destruct (is_high_surrogate uni) eqn:Hhigh; [|reflexivity].
    destruct src as [|b [|u src2]].
    { cbn [app]. destruct rest as [|u r]; [reflexivity|].
      destruct (N.eqb_spec c c_backslash); [chars | reflexivity]. }
    { cbn [app]. destruct (N.eqb_spec c c_u); [chars|].
      rewrite andb_false_r. reflexivity. }
    cbn [app].
    destruct (N.eqb_spec b c_backslash); [|reflexivity].
    destruct (N.eqb_spec u c_u); [|reflexivity]. subst b u. cbn [andb].
    destruct (StringBody_unicode_inv _ _ Hs) as (k1 & k2 & k3 & k4 & x' & uni2 & E & Hk).
    subst src2. cbn [app]. rewrite Hk.
    destruct (is_low_surrogate uni2) eqn:Hlow; [|reflexivity].
    exfalso. apply Hnp. split; [reflexivity|].
    exists uni2, x', k1, k2, k3, k4. repeat split; assumption.
  - destruct Hlo as (k1 & k2 & k3 & k4 & E & Hk & Hlow). subst pair.
    after_backslash. rewrite N.eqb_refl, Hh, Hhi.
    rewrite ?N.eqb_refl. cbn [andb]. rewrite Hk, Hlow, IH by assumption. reflexivity.
Qed.


(** *** On the demonstration files *)



Lemma load_json_utf8_bom_witness :
  load_json default_interpreter "bom.json" utf_8 MoreInputs.fs
    = inl (JSONDecodeError msg_bom) /\
  load_json default_interpreter "bom_broken.json" utf_8 MoreInputs.fs
    = inl UnicodeDecodeError.
Proof.
  split.
  - apply (load_json_utf8_bom default_interpreter "bom.json" MoreInputs.fs
             DemoFiles.settings eq_refl).
  - apply (load_json_utf8_bom default_interpreter "bom_broken.json" MoreInputs.fs
             (String (ascii_of_nat 255) EmptyString) eq_refl).
Defined.


Lemma load_json_ignores_outer_whitespace_witness :
  load_json default_interpreter "padded.json" utf_8 MoreInputs.fs
    = inr (JDict DemoFiles.pairs).
Proof.
  apply (load_json_ignores_outer_whitespace default_interpreter
           "conf/settings.json" "padded.json" utf_8
           MoreInputs.fs DemoFiles.settings MoreInputs.padded
           (text_of_string DemoFiles.settings) [32] [10] (JDict DemoFiles.pairs)
           eq_refl eq_refl eq_refl eq_refl eq_refl eq_refl eq_refl).
Defined.

Lemma load_json_ascii_encoding_witness :
  load_json default_interpreter "conf/settings.json" utf_8 DemoFiles.fs
  = load_json default_interpreter "conf/settings.json" latin_1 DemoFiles.fs.
Proof.
  apply (load_json_ascii_encoding default_interpreter "conf/settings.json" DemoFiles.fs
           DemoFiles.settings eq_refl eq_refl).
Defined.

Lemma utf8_read_scalar_values_witness :
  forallb scalar_value (text_of_string DemoFiles.settings) = true.
Proof.
  apply (utf8_read_scalar_values DemoFiles.settings (text_of_string DemoFiles.settings)).
  reflexivity.
Defined.

Lemma scanstring_rejects_control_witness :
  scanstring (text_of_string "ab" ++ 9 :: text_of_string "c") = Error msg_control.
Proof.
  apply (scanstring_rejects_control (text_of_string "ab") (text_of_string "ab")).
  - apply SB_char; [discriminate | discriminate | vm_compute; discriminate|].
    apply SB_char; [discriminate | discriminate | vm_compute; discriminate|].
    constructor.
  - reflexivity.
Defined.

End LoadJsonMore.
